(** * OnlineClinic chat subsystem: hub, client session, message store

    A shallow embedding of the real-time chat core of the OnlineClinic
    server and the properties its specification states about it.

    - [utils/file_handler.go]   : [parseSolarDate], [SolarToGregorian] and
                                the other date helpers
    - [config/schema.sql]       : tables [chats], [messages]; procedures
                                [CreateChat], [AddMessage], [GetChatHistory]
    - [models/chat.go]          : [ChatExists], [CreateChat], [AddMessage],
                                [GetChatHistory], [extractFileNameAndType]
    - [controllers/chats.go]    : [Hub], [Hub.Run], [ServeWs],
                                [Client.readPump], [Client.writePump], the
                                handlers [CreateChat] and [GetChatHistory]
    - [routes/routes.go]        : the chat routes
    - [cmd/main.go]             : the shutdown loop of [main]

    Go strings and [[]byte] payloads are sequences of 8-bit characters and
    are both modelled by [string].  Go [int] values are modelled by [Z].
    Pointers to [Client] objects are modelled by [positive] addresses. *)

From Stdlib Require Import Ascii String.
From stdpp Require Import base numbers option list gmap strings.

Local Open Scope Z_scope.

(** ** Errors

    One constructor per place where the code builds an error value; the
    wrapped error of [fmt.Errorf("...: %v", err)] is kept as an argument. *)

Inductive error : Type :=
  | ErrDateFormat                          (* "invalid date format, expected yyyy-MM-dd" *)
  | ErrInvalidYear (part : string)         (* "invalid year: %s" *)
  | ErrInvalidMonth (part : string)        (* "invalid month: %s" *)
  | ErrInvalidDay (part : string)          (* "invalid day: %s" *)
  | ErrMonthRange (month : Z)              (* "invalid month: %d" *)
  | ErrDayRange (day : Z)                  (* "invalid day: %d" *)
  | ErrConvertingDate (cause : error)      (* "error converting Hijri date to Gregorian: %v" *)
  | ErrCheckingChat (cause : error)        (* "error checking for existing chat: %v" *)
  | ErrNoChat (sender receiver : Z)        (* "no chat exists between sender %d and receiver %d" *)
  | ErrInvalidChatID (provided existing : Z) (* "invalid chat ID: provided ... does not match ..." *)
  | ErrScanNull                            (* Scan of a NULL column into an int *)
  | ErrForeignKey                          (* a FOREIGN KEY constraint of the schema fails *)
  | ErrDriver (code : Z).                  (* any other error reported by the database driver *)

(** ** The pieces of Go's [strings] and [strconv] that the code calls *)

Module GoStrings.

Definition code (a : ascii) : Z := Z.of_N (N_of_ascii a).

(** [unicode.IsSpace] on the UTF-8 encoding: the six ASCII spaces, the
    two-byte U+0085 and U+00A0, and the three-byte U+1680, U+2000..U+200A,
    U+2028, U+2029, U+202F, U+205F, U+3000. *)
Definition space1 (a : ascii) : bool :=
  let n := code a in ((9 <=? n) && (n <=? 13)) || (n =? 32).

Definition space2 (a b : ascii) : bool :=
  (code a =? 194) && ((code b =? 133) || (code b =? 160)).

Definition space3 (a b c : ascii) : bool :=
  let x := code a in let y := code b in let z := code c in
  ((x =? 225) && (y =? 154) && (z =? 128))
  || ((x =? 226) && (y =? 128) &&
      (((128 <=? z) && (z <=? 138)) || (z =? 168) || (z =? 169) || (z =? 175)))
  || ((x =? 226) && (y =? 129) && (z =? 159))
  || ((x =? 227) && (y =? 128) && (z =? 128)).

Fixpoint trim_left (l : list ascii) : list ascii :=
  match l with
  | [] => []
  | a :: l1 =>
      if space1 a then trim_left l1 else
      match l1 with
      | [] => l
      | b :: l2 =>
          if space2 a b then trim_left l2 else
          match l2 with
          | [] => l
          | c :: l3 => if space3 a b c then trim_left l3 else l
          end
      end
  end.

(** The same scan from the end of the string, on the reversed bytes. *)
Fixpoint trim_left_rev (l : list ascii) : list ascii :=
  match l with
  | [] => []
  | a :: l1 =>
      if space1 a then trim_left_rev l1 else
      match l1 with
      | [] => l
      | b :: l2 =>
          if space2 b a then trim_left_rev l2 else
          match l2 with
          | [] => l
          | c :: l3 => if space3 c b a then trim_left_rev l3 else l
          end
      end
  end.

Definition TrimSpace (s : string) : string :=
  string_of_list_ascii
    (rev (trim_left_rev (rev (trim_left (list_ascii_of_string s))))).

(** [strings.Split(s, sep)] for a one-byte separator: [n] separators give
    [n + 1] parts, empty parts included. *)
Fixpoint split_go (sep : ascii) (cur : list ascii) (l : list ascii) : list string :=
  match l with
  | [] => [string_of_list_ascii (rev cur)]
  | a :: l' =>
      if bool_decide (a = sep)
      then string_of_list_ascii (rev cur) :: split_go sep [] l'
      else split_go sep (a :: cur) l'
  end.

Definition Split (s : string) (sep : ascii) : list string :=
  split_go sep [] (list_ascii_of_string s).

Definition digit (a : ascii) : option Z :=
  let n := code a in
  if (48 <=? n) && (n <=? 57) then Some (n - 48) else None.

Fixpoint digits_value (acc : Z) (l : list ascii) : option Z :=
  match l with
  | [] => Some acc
  | a :: l' =>
      match digit a with
      | Some d => digits_value (acc * 10 + d) l'
      | None => None
      end
  end.

(** [strconv.Atoi]: an optional sign, then one or more decimal digits, the
    value within the 64-bit [int]; [None] stands for a non-nil error. *)
Definition Atoi (s : string) : option Z :=
  let l := list_ascii_of_string s in
  let '(neg, ds) :=
    match l with
    | a :: rest =>
        if bool_decide (a = "-"%char) then (true, rest)
        else if bool_decide (a = "+"%char) then (false, rest)
        else (false, l)
    | [] => (false, [])
    end in
  match ds with
  | [] => None
  | _ :: _ =>
      match digits_value 0 ds with
      | Some v =>
          let n := if neg : bool then - v else v in
          if (- 2 ^ 63 <=? n) && (n <? 2 ^ 63) then Some n else None
      | None => None
      end
  end.

End GoStrings.

(** ** External libraries

    [encoding/json], [go-persian-calendar] and [time] are not part of the
    repository: what the code needs from them is an interface. *)

Record File : Type := mkFile { Name : string; Type_ : string; URL : string }.

(** [models.WSMessage] *)
Record WSMessage : Type := mkWSMessage {
  Type' : string;
  ChatID : Z;
  SenderID : Z;
  ReceiverID : Z;
  Message : string;
  Time : string;
  RepliedMessage : option string;
  RepliedMessageID : option Z;
  Date : string;
  AttachedFile : option File;
  IsRead : bool
}.

Class External : Type := {
  (** the value of [time.Time] *)
  GoTime : Type;
  (** [ptime.Date(year, ptime.Month(month), day, 0, 0, 0, 0, ptime.Iran()).Time()] *)
  ptime_Date : Z → Z → Z → GoTime;
  (** [t.Format("2006-01-02")] *)
  Format_2006_01_02 : GoTime → string;
  (** [json.Unmarshal(message, &msg)] into a zero [models.WSMessage];
      [None] stands for a non-nil error. *)
  json_Unmarshal : string → option WSMessage
}.

(** ** utils/file_handler.go *)

Module Utils.
Import GoStrings.

Definition parseSolarDate (date : string) : error + (Z * Z * Z) :=
  let date := TrimSpace date in
  match Split date "-"%char with
  | [p0; p1; p2] =>
      match Atoi p0 with
      | None => inl (ErrInvalidYear p0)
      | Some year =>
          if year <? 1 then inl (ErrInvalidYear p0) else
          match Atoi p1 with
          | None => inl (ErrInvalidMonth p1)
          | Some month =>
              if (month <? 1) || (12 <? month) then inl (ErrInvalidMonth p1) else
              match Atoi p2 with
              | None => inl (ErrInvalidDay p2)
              | Some day =>
                  if (day <? 1) || (31 <? day) then inl (ErrInvalidDay p2)
                  else inr (year, month, day)
              end
          end
      end
  | _ => inl ErrDateFormat
  end.

Definition SolarToGregorian `{External} (date : string) : error + GoTime :=
  match parseSolarDate date with
  | inl err => inl err
  | inr (year, month, day) =>
      if (month <? 1) || (12 <? month) then inl (ErrMonthRange month)
      else if (day <? 1) || (31 <? day) then inl (ErrDayRange day)
      else inr (ptime_Date year month day)
  end.

End Utils.


(** ** The message store

    The tables [chats] and [messages] of [config/schema.sql], in insertion
    order, with their AUTO_INCREMENT counters.  [created_at] is written by
    the server's clock and read by no code of the chat core; it is left out.

    The program reaches the server through the connection pool of
    [*sql.DB]: the user variable [@chat_id] is kept per connection
    ([session_chat_id], absent when NULL), and [pool] is the schedule of the
    connections that the pool hands out, one for each call that asks (the
    pool keeps handing out connection 0 when the schedule has run out, as
    it does for a single goroutine on an idle pool).

    [faults] is the schedule of the store's own failures (connection lost,
    timeout, a column limit): each statement sent to the server consumes the
    head of the list, and [Some code] makes that statement fail with a driver
    error and change nothing.  An empty schedule means a healthy store. *)

Record ChatRow : Type := mkChatRow {
  chat_id : Z;
  chat_sender_id : Z;
  chat_receiver_id : Z
}.

Record MessageRow : Type := mkMessageRow {
  msg_id : Z;
  msg_chat_id : Z;
  msg_sender_id : Z;
  msg_receiver_id : Z;
  msg_text : string;
  msg_time : string;
  msg_replied_message : option string;
  msg_replied_message_id : option Z;
  msg_date : string;
  msg_attached_file_path : option string;
  msg_is_read : bool
}.

Abbreviation conn := nat.

Record DB : Type := mkDB {
  chats : list ChatRow;
  messages : list MessageRow;
  chats_auto_increment : Z;
  messages_auto_increment : Z;
  session_chat_id : gmap nat Z;
  pool : list nat;
  faults : list (option Z)
}.

Definition set_faults (f : list (option Z)) (db : DB) : DB :=
  mkDB (chats db) (messages db) (chats_auto_increment db)
       (messages_auto_increment db) (session_chat_id db) (pool db) f.

Definition set_pool (p : list conn) (db : DB) : DB :=
  mkDB (chats db) (messages db) (chats_auto_increment db)
       (messages_auto_increment db) (session_chat_id db) p (faults db).

(** [SET @chat_id = v] on connection [k]. *)
Definition set_session_chat_id (k : conn) (v : Z) (db : DB) : DB :=
  mkDB (chats db) (messages db) (chats_auto_increment db)
       (messages_auto_increment db) (<[k := v]> (session_chat_id db))
       (pool db) (faults db).

Definition insert_chat (row : ChatRow) (db : DB) : DB :=
  mkDB (chats db ++ [row]) (messages db) (chats_auto_increment db + 1)
       (messages_auto_increment db) (session_chat_id db) (pool db) (faults db).

Definition insert_message (row : MessageRow) (db : DB) : DB :=
  mkDB (chats db) (messages db ++ [row]) (chats_auto_increment db)
       (messages_auto_increment db + 1) (session_chat_id db) (pool db)
       (faults db).

(** *** Calls as sequences of statements

    The server runs one statement at a time for each session and the
    program holds no transaction and no lock: a call is the sequence of its
    statements, each atomic on its own, and between two of them the
    statements of other sessions may run (see [step] and [serve_step]).
    [Step s k] is the statement [s] followed by what the call does with its
    result. *)

Inductive Prog (A : Type) : Type :=
  | Ret (a : A)
  | Step {R : Type} (s : DB → R * DB) (k : R → Prog A).
Arguments Ret {A} a.
Arguments Step {A R} s k.

Fixpoint bind {A B : Type} (p : Prog A) (f : A → Prog B) : Prog B :=
  match p with
  | Ret a => f a
  | Step s k => Step s (λ r, bind (k r) f)
  end.

#[export] Instance Prog_bind : MBind Prog := λ A B f p, bind p f.
#[export] Instance Prog_ret : MRet Prog := λ A a, Ret a.

(** The call running alone, with no statement of another session between
    its own: [p db] is its result and the store it leaves. *)
Fixpoint alone {A : Type} (p : Prog A) (db : DB) : A * DB :=
  match p with
  | Ret a => (a, db)
  | Step s k => let '(r, db') := s db in alone (k r) db'
  end.

Coercion alone : Prog >-> Funclass.

(** A function of Go that returns [(A, error)] and talks to the store. *)
Abbreviation Stmt A := (Prog (error + A)).

(** One statement of a stored procedure. *)
Definition sql {A : Type} (s : DB → A * DB) : Prog A := Step s Ret.

(** [db.Exec] / [db.QueryRow]: one statement sent to the server. *)
Definition statement {A : Type} (body : DB → (error + A) * DB) : Stmt A :=
  sql (λ db,
    match faults db with
    | Some code :: rest => (inl (ErrDriver code), set_faults rest db)
    | None :: rest => body (set_faults rest db)
    | [] => body db
    end).

(** The same for a call whose connection shows, because it reads or writes
    [@chat_id]: the pool hands out a connection and [body] runs on it. *)
Definition connect (db : DB) : (error + conn) * DB :=
  match pool db with
  | k :: rest => (inr k, set_pool rest db)
  | [] => (inr 0%nat, db)
  end.

Definition statement_on {A : Type} (body : conn → Prog A) : Stmt A :=
  r ← statement connect;
  match r with
  | inl err => Ret (inl err)
  | inr k => a ← body k; Ret (inr a)
  end.

(** [WHERE (sender_id = a AND receiver_id = b)
        OR (sender_id = b AND receiver_id = a)] *)
Definition pair_where (a b : Z) (row : ChatRow) : bool :=
  ((chat_sender_id row =? a) && (chat_receiver_id row =? b))
  || ((chat_sender_id row =? b) && (chat_receiver_id row =? a)).

(** [SELECT id FROM chats WHERE ...] *)
Definition select_chat_ids (a b : Z) (db : DB) : list Z :=
  chat_id <$> List.filter (pair_where a b) (chats db).

(** [NULLIF(x, y)] on a nullable column value. *)
Definition NULLIF {A : Type} `{EqDecision A} (x : option A) (y : A) : option A :=
  match x with
  | Some v => if bool_decide (v = y) then None else Some v
  | None => None
  end.

(** *** config/schema.sql: the stored procedures *)

Module Schema.

(** [CREATE PROCEDURE CreateChat(IN p_sender_id, IN p_receiver_id, OUT p_chat_id)],
    called as [CALL CreateChat(?, ?, @chat_id)] on connection [k]: the
    SELECT ... LIMIT 1 into [existing_chat_id], then, when it found nothing,
    the INSERT with [LAST_INSERT_ID()] (the id of the row that this
    connection inserted), then the OUT parameter into [@chat_id].  The table
    has no UNIQUE key on the pair and the procedure takes no lock. *)
Definition CreateChat (k : conn) (p_sender_id p_receiver_id : Z) : Prog unit :=
  existing_chat_id ←
    sql (λ db, (head (select_chat_ids p_sender_id p_receiver_id db), db));
  p_chat_id ←
    match existing_chat_id with
    | Some id => Ret id
    | None =>
        sql (λ db,
          (chats_auto_increment db,
           insert_chat
             (mkChatRow (chats_auto_increment db) p_sender_id p_receiver_id)
             db))
    end;
  sql (λ db, ((), set_session_chat_id k p_chat_id db)).

(** [CREATE PROCEDURE AddMessage(...)]: one INSERT into [messages], under
    the two FOREIGN KEY constraints of the table. *)
Definition AddMessage (p_chat_id p_sender_id p_receiver_id : Z)
    (p_text p_time : string) (p_replied_message : option string)
    (p_replied_message_id : option Z) (p_date : string)
    (p_attached_file_path : option string) (p_is_read : bool)
    (db : DB) : (error + unit) * DB :=
  let replied_message := NULLIF p_replied_message ""%string in
  let replied_message_id := NULLIF p_replied_message_id 0 in
  if negb (existsb (λ c, chat_id c =? p_chat_id) (chats db))
  then (inl ErrForeignKey, db)
  else if match replied_message_id with
          | Some rid => negb (existsb (λ m, msg_id m =? rid) (messages db))
          | None => false
          end
  then (inl ErrForeignKey, db)
  else
    (inr (),
     insert_message
       (mkMessageRow (messages_auto_increment db) p_chat_id p_sender_id
          p_receiver_id p_text p_time replied_message replied_message_id
          p_date p_attached_file_path p_is_read) db).

End Schema.

(** *** models/chat.go *)

Module Models.

Definition ChatExists (senderID receiverID : Z) : Stmt Z :=
  row ← statement (λ db, (inr (head (select_chat_ids senderID receiverID db)), db));
  match row with
  | inr (Some chatID) => Ret (inr chatID)
  | inr None => Ret (inr 0)                    (* sql.ErrNoRows: no chat exists *)
  | inl err => Ret (inl err)
  end.

(** The CALL and [SELECT @chat_id] are two calls on [*sql.DB]: the pool
    serves each on a connection of its own choice. *)
Definition CreateChat (senderID receiverID : Z) : Stmt Z :=
  called ← statement_on (λ k, Schema.CreateChat k senderID receiverID);
  match called with
  | inl err => Ret (inl err)
  | inr _ =>
      scanned ← statement_on (λ k, sql (λ db, (session_chat_id db !! k, db)));
      match scanned with
      | inl err => Ret (inl err)
      | inr None => Ret (inl ErrScanNull)
      | inr (Some chatID) => Ret (inr chatID)
      end
  end.

Definition AddMessage `{External} (chatID senderID receiverID : Z)
    (text timeStr repliedMessage : string) (repliedMessageID : option Z)
    (hijriDate : string) (attachedFile : option File) (isRead : bool)
    : Stmt unit :=
  match Utils.SolarToGregorian hijriDate with
  | inl err => Ret (inl (ErrConvertingDate err))
  | inr gregorianDate =>
      let date := Format_2006_01_02 gregorianDate in
      existing ← ChatExists senderID receiverID;
      match existing with
      | inl err => Ret (inl (ErrCheckingChat err))
      | inr existingChatID =>
          if existingChatID =? 0 then Ret (inl (ErrNoChat senderID receiverID))
          else if negb (chatID =? 0) && negb (chatID =? existingChatID)
          then Ret (inl (ErrInvalidChatID chatID existingChatID))
          else
            let filePath := URL <$> attachedFile in
            statement
              (Schema.AddMessage existingChatID senderID receiverID text timeStr
                 (Some repliedMessage) repliedMessageID date filePath isRead)
      end
  end.

End Models.

(** ** controllers/chats.go *)

Module Controllers.

Abbreviation ptr := positive.

(** [send chan []byte], made by [ServeWs] with [make(chan []byte, 256)]:
    the queued payloads, oldest first, and whether [close] was called. *)
Record Chan : Type := mkChan { buf : list string; closed : bool }.

Definition send_capacity : nat := 256.

(** What this connection's socket was asked to write. *)
Record ErrorReply : Type := mkErrorReply { reply_error : string; reply_details : error }.

Inductive Frame : Type :=
  | TextMessage (data : string)
  | CloseMessage
  | JSONValue (v : ErrorReply).

(** [*websocket.Conn]: closed or not, and the frames written so far. *)
Record Socket : Type := mkSocket { sock_closed : bool; sock_written : list Frame }.

(** [type Client struct]; the [hub] field is the one hub of the process. *)
Record Client : Type := mkClient { Conn : Socket; send : Chan; ID : Z }.

Definition with_send (ch : Chan) (cl : Client) : Client := mkClient (Conn cl) ch (ID cl).
Definition with_Conn (s : Socket) (cl : Client) : Client := mkClient s (send cl) (ID cl).

(** The run-time errors of Go that the hub's statements can raise. *)
Inductive panic : Type :=
  | SendOnClosedChannel
  | CloseOfClosedChannel
  | NilPointerDereference.

Inductive outcome (A : Type) : Type :=
  | Ok (a : A)
  | Panic (p : panic).
Arguments Ok {A} a.
Arguments Panic {A} p.

(** The operations performed on the [send] channels, oldest first. *)
Inductive ChanOp : Type :=
  | OpSend (c : ptr) (message : string)
  | OpClose (c : ptr).

(** [Hub.Clients] (a [map[*Client]bool] whose values are all [true]: a set of
    pointers), the [Client] objects those pointers refer to, and the history
    of channel operations. *)
Record State : Type := mkState {
  Clients : gset positive;
  heap : gmap positive Client;
  history : list ChanOp
}.

(** [NewHub()], with the client objects that exist. *)
Definition NewHub (objects : gmap positive Client) : State := mkState ∅ objects [].

(** [close(client.send)] *)
Definition close_send (c : ptr) (st : State) : outcome State :=
  match heap st !! c with
  | None => Panic NilPointerDereference
  | Some cl =>
      if closed (send cl) then Panic CloseOfClosedChannel
      else Ok (mkState (Clients st)
                 (<[c := with_send (mkChan (buf (send cl)) true) cl]> (heap st))
                 (history st ++ [OpClose c]))
  end.

(** [select { case client.send <- message: default: }]: [Some] the new state
    when the payload was queued, [None] when the [default] branch is taken. *)
Definition try_send (c : ptr) (message : string) (st : State) : outcome (option State) :=
  match heap st !! c with
  | None => Panic NilPointerDereference
  | Some cl =>
      if closed (send cl) then Panic SendOnClosedChannel
      else if bool_decide (length (buf (send cl)) < send_capacity)%nat
      then Ok (Some (mkState (Clients st)
                       (<[c := with_send (mkChan (buf (send cl) ++ [message]) false) cl]> (heap st))
                       (history st ++ [OpSend c message])))
      else Ok None
  end.

Definition delete_client (c : ptr) (st : State) : State :=
  mkState (Clients st ∖ {[c]}) (heap st) (history st).

Definition add_client (c : ptr) (st : State) : State :=
  mkState ({[c]} ∪ Clients st) (heap st) (history st).

(** The body of [for client := range h.Clients] in the broadcast case. *)
Definition broadcast_client (message : string) (c : ptr) (st : State) : outcome State :=
  match try_send c message st with
  | Panic p => Panic p
  | Ok (Some st') => Ok st'
  | Ok None =>
      match close_send c st with
      | Panic p => Panic p
      | Ok st' => Ok (delete_client c st')
      end
  end.

(** The loop over the registry, in the order the map iteration yields.  The
    only entry the body deletes is the one it is visiting, so the loop visits
    each client that was registered when it started exactly once. *)
Fixpoint broadcast_range (order : list ptr) (message : string) (st : State) : outcome State :=
  match order with
  | [] => Ok st
  | c :: rest =>
      match broadcast_client message c st with
      | Panic p => Panic p
      | Ok st' => broadcast_range rest message st'
      end
  end.

(** The three cases of the [select] of [Hub.Run]. *)
Inductive Event : Type :=
  | Register (c : ptr)
  | Unregister (c : ptr)
  | Broadcast (message : string).

Definition Run_step (e : Event) (st : State) : outcome State :=
  match e with
  | Register client => Ok (add_client client st)
  | Unregister client =>
      if bool_decide (client ∈ Clients st)
      then close_send client (delete_client client st)
      else Ok st
  | Broadcast message => broadcast_range (elements (Clients st)) message st
  end.

(** [Hub.Run] on the events it receives, in the order its [select] takes
    them; the loop itself never ends. *)
Fixpoint Run (events : list Event) (st : State) : outcome State :=
  match events with
  | [] => Ok st
  | e :: rest =>
      match Run_step e st with
      | Panic p => Panic p
      | Ok st' => Run rest st'
      end
  end.

(** *** Client.readPump *)

(** What one pass of the read loop does to the rest of the process. *)
Inductive Effect : Type :=
  | HubSend (e : Event)                     (* c.hub.unregister <- c, c.hub.broadcast <- message *)
  | WriteJSON (c : ptr) (v : ErrorReply)    (* c.Conn.WriteJSON(...) *)
  | ConnClose (c : ptr).                    (* c.Conn.Close() *)

(** Lines 149 to 164: the chat of the pair, created when there is none. *)
Definition resolveChat (msg : WSMessage) : Stmt Z :=
  existing ← Models.ChatExists (SenderID msg) (ReceiverID msg);
  match existing with
  | inl err => Ret (inl err)
  | inr existingChatID =>
      if existingChatID =? 0
      then Models.CreateChat (SenderID msg) (ReceiverID msg)
      else Ret (inr existingChatID)
  end.

Definition set_ChatID (id : Z) (msg : WSMessage) : WSMessage :=
  mkWSMessage (Type' msg) id (SenderID msg) (ReceiverID msg) (Message msg)
    (Time msg) (RepliedMessage msg) (RepliedMessageID msg) (Date msg)
    (AttachedFile msg) (IsRead msg).

(** Lines 166 to 175: stamp the chat id and save the message. *)
Definition saveMessage `{External} (msg : WSMessage) : Stmt unit :=
  let repliedMessage := default ""%string (RepliedMessage msg) in
  Models.AddMessage (ChatID msg) (SenderID msg) (ReceiverID msg) (Message msg)
    (Time msg) repliedMessage (RepliedMessageID msg) (Date msg)
    (AttachedFile msg) (IsRead msg).

(** The body of the [for] loop of [readPump] once [ReadMessage] returned
    [message]; [c] is the client and [c_ID] its field [ID]. *)
Definition readPump_frame `{External} (c : ptr) (c_ID : Z) (message : string)
    : Prog (list Effect) :=
  match json_Unmarshal message with
  | None => Ret []                                        (* continue *)
  | Some msg =>
      if negb (SenderID msg =? c_ID) then Ret []          (* continue *)
      else
        resolved ← resolveChat msg;
        match resolved with
        | inl _ => Ret []                                 (* continue *)
        | inr existingChatID =>
            let msg := set_ChatID existingChatID msg in
            saved ← saveMessage msg;
            match saved with
            | inl err =>
                Ret [WriteJSON c (mkErrorReply "Failed to send message" err)]
            | inr _ => Ret [HubSend (Broadcast message)]
            end
        end
  end.

(** [c.Conn.ReadMessage()] *)
Inductive ReadResult : Type :=
  | ReadFrame (message : string)
  | ReadError.

(** [readPump] on the results its reads return.  The input running out
    stands for a read that has not returned yet. *)
Fixpoint readPump `{External} (c : ptr) (c_ID : Z) (input : list ReadResult)
    (db : DB) : list Effect * DB :=
  match input with
  | [] => ([], db)
  | ReadError :: _ => ([HubSend (Unregister c); ConnClose c], db)
  | ReadFrame message :: rest =>
      let '(effects, db1) := readPump_frame c c_ID message db in
      let '(effects', db2) := readPump c c_ID rest db1 in
      (effects ++ effects', db2)
  end.

(** [c.Conn.WriteJSON(v)]; the code ignores the error of a closed socket. *)
Definition conn_write (c : ptr) (f : Frame) (st : State) : outcome State :=
  match heap st !! c with
  | None => Panic NilPointerDereference
  | Some cl =>
      if sock_closed (Conn cl) then Ok st
      else Ok (mkState (Clients st)
                 (<[c := with_Conn (mkSocket false (sock_written (Conn cl) ++ [f])) cl]> (heap st))
                 (history st))
  end.

(** [c.Conn.Close()] *)
Definition conn_close (c : ptr) (st : State) : outcome State :=
  match heap st !! c with
  | None => Panic NilPointerDereference
  | Some cl =>
      Ok (mkState (Clients st)
            (<[c := with_Conn (mkSocket true (sock_written (Conn cl))) cl]> (heap st))
            (history st))
  end.

(** An effect of a read pump reaching the hub loop or the socket. *)
Definition perform (eff : Effect) (st : State) : outcome State :=
  match eff with
  | HubSend e => Run_step e st
  | WriteJSON c v => conn_write c (JSONValue v) st
  | ConnClose c => conn_close c st
  end.

Fixpoint perform_all (effs : list Effect) (st : State) : outcome State :=
  match effs with
  | [] => Ok st
  | eff :: rest =>
      match perform eff st with
      | Panic p => Panic p
      | Ok st' => perform_all rest st'
      end
  end.

End Controllers.

(** ** cmd/main.go: the shutdown loop *)

Module Main.
Import Controllers.

(** [for client := range routes.Hub.Clients { client.Conn.Close() }] *)
Fixpoint shutdown_range (order : list ptr) (st : State) : outcome State :=
  match order with
  | [] => Ok st
  | client :: rest =>
      match conn_close client st with
      | Panic p => Panic p
      | Ok st' => shutdown_range rest st'
      end
  end.

Definition shutdown (st : State) : outcome State :=
  shutdown_range (elements (Clients st)) st.

End Main.

(** ** Sample data

    A stand-in for the external libraries and a few concrete frames, stores
    and hub states on which the statements below are exercised. *)

Module Sample.
Import Controllers.

Definition dq : string := String (ascii_of_nat 34) EmptyString.

Definition jstr (s : string) : string := dq +:+ s +:+ dq.

(** [{"type":"chat","sender_id":S,"receiver_id":R,"message":"hi",
      "time":"14:00","date":D}] with the numbers and the date given as text. *)
Definition chat_frame (sender receiver date : string) : string :=
  "{" +:+ jstr "type" +:+ ":" +:+ jstr "chat" +:+ ","
  +:+ jstr "sender_id" +:+ ":" +:+ sender +:+ ","
  +:+ jstr "receiver_id" +:+ ":" +:+ receiver +:+ ","
  +:+ jstr "message" +:+ ":" +:+ jstr "hi" +:+ ","
  +:+ jstr "time" +:+ ":" +:+ jstr "14:00" +:+ ","
  +:+ jstr "date" +:+ ":" +:+ jstr date +:+ "}".

Definition chat_msg (chat sender receiver : Z) (date : string) : WSMessage :=
  mkWSMessage "chat" chat sender receiver "hi" "14:00" None None date None false.

Definition frame_10_20 : string := chat_frame "10" "20" "1403-05-01".
Definition frame_20_10 : string := chat_frame "20" "10" "1403-05-01".
Definition frame_bad_date : string := chat_frame "10" "20" "yesterday".
Definition frame_garbage : string := "{not json".

(** A decoder that knows the frames above and rejects everything else, and
    a calendar that keeps the three numbers of the date. *)
Definition sample_Unmarshal (message : string) : option WSMessage :=
  if bool_decide (message = frame_10_20) then Some (chat_msg 0 10 20 "1403-05-01")
  else if bool_decide (message = frame_20_10) then Some (chat_msg 0 20 10 "1403-05-01")
  else if bool_decide (message = frame_bad_date) then Some (chat_msg 0 10 20 "yesterday")
  else None.

#[export] Instance sample_external : External := {|
  GoTime := Z * Z * Z;
  ptime_Date := λ y m d, (y, m, d);
  Format_2006_01_02 := λ _, "2024-07-22"%string;
  json_Unmarshal := sample_Unmarshal
|}.

Definition empty_db : DB := mkDB [] [] 1 1 ∅ [] [].

(** The store after users 10 and 20 have opened a chat. *)
Definition db_with_chat : DB := mkDB [mkChatRow 1 10 20] [] 2 1 ∅ [] [].

(** The same store when its third statement from now is going to fail, and
    as the first, then the next two statements leave it. *)
Definition db_failing_insert : DB := mkDB [mkChatRow 1 10 20] [] 2 1 ∅ [] [None; None; Some 2006].
Definition db_failing_insert_1 : DB := mkDB [mkChatRow 1 10 20] [] 2 1 ∅ [] [None; Some 2006].
Definition db_failing_insert_2 : DB := mkDB [mkChatRow 1 10 20] [] 2 1 ∅ [] [].

(** The store after the first message of user 10 to user 20. *)
Definition db_after_first_message : DB :=
  mkDB [mkChatRow 1 10 20]
       [mkMessageRow 1 1 10 20 "hi" "14:00" None None "2024-07-22" None false]
       2 2 {[ 0%nat := 1 ]} [] [].

Definition new_client (id : Z) : Client := mkClient (mkSocket false []) (mkChan [] false) id.

Definition full_client (id : Z) : Client :=
  mkClient (mkSocket false []) (mkChan (replicate send_capacity "x"%string) false) id.

(** Two registered clients; the second never drained its channel. *)
Definition two_clients : State :=
  mkState {[ 1%positive; 2%positive ]}
          {[ 1%positive := new_client 10; 2%positive := full_client 20 ]} [].

End Sample.

(** * Properties *)

Import Controllers.

(** ** Predicates of the statements *)

(** Two stores with the same rows and counters. *)
Definition same_tables (db db' : DB) : Prop :=
  chats db' = chats db ∧ messages db' = messages db
  ∧ chats_auto_increment db' = chats_auto_increment db
  ∧ messages_auto_increment db' = messages_auto_increment db.

(** At most one row of [chats] for each unordered pair of participants. *)
Definition one_chat_per_pair (db : DB) : Prop :=
  ∀ a b, (length (select_chat_ids a b db) ≤ 1)%nat.

(** The [send] channel of client [c] exists and has not been closed. *)
Definition chan_open (st : State) (c : ptr) : Prop :=
  ∃ cl, heap st !! c = Some cl ∧ closed (send cl) = false.

(** Every registered client has an open [send] channel. *)
Definition registry_open (st : State) : Prop :=
  ∀ c, c ∈ Clients st → chan_open st c.

(** The [send] channel of the client has a free slot. *)
Definition has_room (cl : Client) : Prop :=
  (length (buf (send cl)) < send_capacity)%nat.

Definition is_close (c : ptr) (op : ChanOp) : bool :=
  match op with
  | OpClose c' => bool_decide (c' = c)
  | OpSend _ _ => false
  end.

(** How many times [close] ran on the channel of [c]. *)
Definition closes (c : ptr) (h : list ChanOp) : nat :=
  length (List.filter (is_close c) h).

(** Some payload was queued on the channel of [c] after its [close]. *)
Definition send_after_close (c : ptr) (h : list ChanOp) : Prop :=
  ∃ h1 h2 h3 m, h = h1 ++ OpClose c :: h2 ++ OpSend c m :: h3.

(** The clients that the events register, in order. *)
Definition registrations (events : list Event) : list ptr :=
  omap (λ e, match e with Register c => Some c | _ => None end) events.

(** The state after [message] was queued for [c], and the state after [c]
    was dropped (channel closed, entry deleted). *)
Definition enqueued (c : ptr) (cl : Client) (message : string) (st : State) : State :=
  mkState (Clients st)
    (<[c := with_send (mkChan (buf (send cl) ++ [message]) false) cl]> (heap st))
    (history st ++ [OpSend c message]).

Definition dropped (c : ptr) (cl : Client) (st : State) : State :=
  mkState (Clients st ∖ {[c]})
    (<[c := with_send (mkChan (buf (send cl)) true) cl]> (heap st))
    (history st ++ [OpClose c]).

(** What the hub loop maintains: registered clients have open channels, an
    open channel was never closed, no channel was closed twice, and nothing
    was queued on a channel after its close. *)
Definition hub_inv (st : State) : Prop :=
  registry_open st
  ∧ (∀ c, chan_open st c → closes c (history st) = 0%nat)
  ∧ (∀ c, (closes c (history st) ≤ 1)%nat)
  ∧ (∀ c, ¬ send_after_close c (history st)).

(** From [st] to [st'] no client was added, the objects of unregistered
    clients were left alone, and a client that left had its channel closed. *)
Definition evolves (st st' : State) : Prop :=
  (∀ c, c ∉ Clients st → heap st' !! c = heap st !! c)
  ∧ (∀ c, c ∈ Clients st' → c ∈ Clients st)
  ∧ (∀ c, c ∈ Clients st → c ∈ Clients st' ∨ closes c (history st') = 1%nat)
  ∧ (∀ c, (closes c (history st) ≤ closes c (history st'))%nat).

(** The client once [c.Conn.Close()] has run. *)
Definition closed_socket (cl : Client) : Client :=
  with_Conn (mkSocket true (sock_written (Conn cl))) cl.


(** * More of the code

    The write pump and the connection handler of [controllers/chats.go], the
    server as the interleaving of its goroutines, the date helpers of
    [utils/file_handler.go], the file-name helper of [models/chat.go], the
    procedure [GetChatHistory] of [config/schema.sql], and the HTTP handlers
    [controllers.CreateChat] and [controllers.GetChatHistory] with the
    routes that serve them. *)

(** ** controllers/chats.go: Client.writePump *)

(** One pass of the [for] loop of [writePump] on its client: [None] when the
    receive blocks (channel open and empty); otherwise the client after the
    pass and whether the pump returned, the deferred [c.Conn.Close()]
    included.  [write_ok] is whether the network takes the frame that the
    pass writes; a write on a socket that this process closed fails
    whatever the network does.  A text frame that is not written makes the
    pump return; the error of the close frame is ignored. *)
Definition writePump_pass (write_ok : bool) (cl : Client) : option (Client * bool) :=
  let written := negb (sock_closed (Conn cl)) && write_ok in
  match buf (send cl) with
  | message :: rest =>
      (* message, ok := <-c.send, ok = true *)
      let ch := mkChan rest (closed (send cl)) in
      if written
      then Some (mkClient
                   (mkSocket false (sock_written (Conn cl) ++ [TextMessage message]))
                   ch (ID cl), false)
      else Some (mkClient (mkSocket true (sock_written (Conn cl))) ch (ID cl), true)
  | [] =>
      if closed (send cl)
      then (* ok = false: the hub closed the channel *)
        let frames :=
          if written then sock_written (Conn cl) ++ [CloseMessage]
          else sock_written (Conn cl) in
        Some (mkClient (mkSocket true frames) (send cl) (ID cl), true)
      else None
  end.

(** [writePump] until it returns or blocks, on the outcomes of its writes,
    one for each pass; the outcomes running out stands for a write that has
    not returned yet. *)
Fixpoint writePump (writes : list bool) (cl : Client) : Client * bool :=
  match writes with
  | [] => (cl, false)
  | write_ok :: writes' =>
      match writePump_pass write_ok cl with
      | None => (cl, false)
      | Some (cl', true) => (cl', true)
      | Some (cl', false) => writePump writes' cl'
      end
  end.

(** The payloads of the text frames among the frames written to a socket. *)
Definition texts (frames : list Frame) : list string :=
  omap (λ f, match f with TextMessage data => Some data | _ => None end) frames.

(** The payloads queued on the channel of [c], oldest first. *)
Definition sent (c : ptr) (h : list ChanOp) : list string :=
  omap (λ op, match op with
              | OpSend c' message => if bool_decide (c' = c) then Some message else None
              | OpClose _ => None
              end) h.

(** ** controllers/chats.go: ServeWs, and the server as a whole *)

(** [utils.VerifyToken] hands the token to the JWT library
    ([jwt.ParseWithClaims]), whose code is outside the repository, and
    returns the claims it parsed or an error.  It is taken here as a given
    function of the token: the user id of the claims of a valid token,
    [None] for an error. *)
Class Auth : Type := { VerifyToken : string → option Z }.

(** The process: the hub and the client objects, the store, the clients whose
    read pump is in its loop, the clients whose write pump is in its loop, for
    each read pump that is in the middle of a pass what is left of the pass
    ([inflight]), and for each read pump what it is about to send or write (a
    pump is blocked on the first of these until it is taken). *)
Record System : Type := mkSystem {
  hub_state : State;
  store : DB;
  readers : gset positive;
  writers : gset positive;
  inflight : gmap positive (Prog (list Effect));
  pending : gmap positive (list Effect)
}.

(** [routes.SetupRoutes]: a new hub, no client yet. *)
Definition boot (db : DB) : System := mkSystem (NewHub ∅) db ∅ ∅ ∅ ∅.

Inductive Response : Type :=
  | Unauthorized (body : string)     (* http.Error(w, body, http.StatusUnauthorized) *)
  | UpgradeFailed                    (* upgrader.Upgrade returned an error *)
  | Upgraded (c : ptr).              (* the connection is a WebSocket served by client c *)

(** [ServeWs] for a request with query parameter [token] (empty when absent);
    [upgrade_ok] is whether [upgrader.Upgrade] succeeds.  The new client gets
    an address that no client object has, the hub takes the request sent on
    [register], and the two pumps start. *)
Definition ServeWs `{Auth} (token : string) (upgrade_ok : bool) (sys : System)
    : Response * System :=
  if bool_decide (token = ""%string) then (Unauthorized "Missing token", sys)
  else
    match VerifyToken token with
    | None => (Unauthorized "Invalid token", sys)
    | Some UserID =>
        if upgrade_ok then
          let st := hub_state sys in
          let c := fresh (dom (heap st)) in
          let client := mkClient (mkSocket false []) (mkChan [] false) UserID in
          let st1 := mkState (Clients st) (<[c := client]> (heap st)) (history st) in
          match Run_step (Register c) st1 with
          | Ok st2 =>
              (Upgraded c,
               mkSystem st2 (store sys) ({[c]} ∪ readers sys) ({[c]} ∪ writers sys)
                 (inflight sys) (pending sys))
          | Panic _ => (UpgradeFailed, sys)
          end
        else (UpgradeFailed, sys)
    end.

(** The steps of the goroutines. *)
Inductive Action : Type :=
  | Connect (token : string) (upgrade_ok : bool)   (* a request to /ws *)
  | ReadPass (c : ptr) (r : ReadResult)            (* c's read pump: ReadMessage returns, a pass starts *)
  | StoreStep (c : ptr)                            (* the server runs the next statement of c's pass *)
  | Deliver (c : ptr)                              (* the next send or write of c's read pump is done *)
  | WritePass (c : ptr) (write_ok : bool).         (* c's write pump: one pass *)

Definition set_hub_state (st : State) (sys : System) : System :=
  mkSystem st (store sys) (readers sys) (writers sys) (inflight sys) (pending sys).

(** The pass of [c] has come to [p] with the store at [db]: at a statement
    it waits for the server, at its end its sends and writes are due. *)
Definition proceed (c : ptr) (p : Prog (list Effect)) (db : DB) (sys : System)
    : System :=
  match p with
  | Ret effects =>
      mkSystem (hub_state sys) db (readers sys) (writers sys)
        (delete c (inflight sys)) (<[c := effects]> (pending sys))
  | Step _ _ =>
      mkSystem (hub_state sys) db (readers sys) (writers sys)
        (<[c := p]> (inflight sys)) (pending sys)
  end.

(** One step.  A step of a pump that is not running, or that is blocked,
    changes nothing.  A read from a closed socket returns an error.  The
    statements of the passes in flight run one at a time, in the order of
    the schedule: a pass holds no lock on the store between two of them. *)
Definition step `{External} `{Auth} (a : Action) (sys : System) : outcome System :=
  match a with
  | Connect token upgrade_ok => Ok (ServeWs token upgrade_ok sys).2
  | ReadPass c r =>
      match heap (hub_state sys) !! c, inflight sys !! c,
            default [] (pending sys !! c) with
      | Some cl, None, [] =>
          if bool_decide (c ∈ readers sys) then
            match (if sock_closed (Conn cl) then ReadError else r) with
            | ReadError =>
                Ok (mkSystem (hub_state sys) (store sys) (readers sys ∖ {[c]})
                      (writers sys) (inflight sys)
                      (<[c := [HubSend (Unregister c); ConnClose c]]> (pending sys)))
            | ReadFrame message =>
                Ok (proceed c (readPump_frame c (ID cl) message) (store sys) sys)
            end
          else Ok sys
      | _, _, _ => Ok sys
      end
  | StoreStep c =>
      match inflight sys !! c with
      | Some (Step s k) =>
          let '(r, db) := s (store sys) in Ok (proceed c (k r) db sys)
      | _ => Ok sys
      end
  | Deliver c =>
      match default [] (pending sys !! c) with
      | [] => Ok sys
      | eff :: rest =>
          match perform eff (hub_state sys) with
          | Panic p => Panic p
          | Ok st =>
              Ok (mkSystem st (store sys) (readers sys) (writers sys)
                    (inflight sys) (<[c := rest]> (pending sys)))
          end
      end
  | WritePass c write_ok =>
      match heap (hub_state sys) !! c with
      | Some cl =>
          if bool_decide (c ∈ writers sys) then
            match writePump_pass write_ok cl with
            | None => Ok sys
            | Some (cl', returned) =>
                let st := hub_state sys in
                Ok (mkSystem
                      (mkState (Clients st) (<[c := cl']> (heap st)) (history st))
                      (store sys) (readers sys)
                      (if returned then writers sys ∖ {[c]} else writers sys)
                      (inflight sys) (pending sys))
            end
          else Ok sys
      | None => Ok sys
      end
  end.

(** The server along a schedule of steps. *)
Fixpoint run `{External} `{Auth} (schedule : list Action) (sys : System) : outcome System :=
  match schedule with
  | [] => Ok sys
  | a :: rest =>
      match step a sys with
      | Panic p => Panic p
      | Ok sys' => run rest sys'
      end
  end.

(** *** What the server keeps *)

(** An effect that the read pump of [c] can have: a request to unregister
    itself, a broadcast, a write on its socket, the close of its socket. *)
Definition own_effect (c : ptr) (eff : Effect) : Prop :=
  match eff with
  | HubSend (Register _) => False
  | HubSend (Unregister c') => c' = c
  | HubSend (Broadcast _) => True
  | WriteJSON c' _ => c' = c
  | ConnClose c' => c' = c
  end.

Definition op_client (op : ChanOp) : ptr :=
  match op with
  | OpSend c _ => c
  | OpClose c => c
  end.

(** The text frames written to the socket of a client are the first payloads
    queued on its channel, in the order they were queued; as long as its
    write pump runs, those written and those still queued are all of them. *)
Definition fifo (running : gset positive) (st : State) : Prop :=
  ∀ c cl, heap st !! c = Some cl →
    texts (sock_written (Conn cl)) `prefix_of` sent c (history st)
    ∧ (c ∈ running →
       texts (sock_written (Conn cl)) ++ buf (send cl) = sent c (history st)).

(** Every client object is in the registry, or has left it with its channel
    closed once. *)
Definition left_once (st : State) : Prop :=
  ∀ c, c ∈ dom (heap st) → c ∈ Clients st ∨ closes c (history st) = 1%nat.

Definition core_inv (running : gset positive) (st : State) : Prop :=
  hub_inv st
  ∧ Clients st ⊆ dom (heap st)
  ∧ (∀ op, op ∈ history st → op_client op ∈ dom (heap st))
  ∧ fifo running st
  ∧ left_once st.

(** Whatever the statements of a call answer, its result satisfies [P]. *)
Fixpoint ends_in {A : Type} (P : A → Prop) (p : Prog A) : Prop :=
  match p with
  | Ret a => P a
  | Step _ k => ∀ r, ends_in P (k r)
  end.

Definition system_inv (sys : System) : Prop :=
  core_inv (writers sys) (hub_state sys)
  ∧ readers sys ⊆ dom (heap (hub_state sys))
  ∧ writers sys ⊆ dom (heap (hub_state sys))
  ∧ (∀ c effs, pending sys !! c = Some effs →
       c ∈ dom (heap (hub_state sys)) ∧ Forall (own_effect c) effs)
  ∧ (∀ c p, inflight sys !! c = Some p →
       c ∈ dom (heap (hub_state sys)) ∧ ends_in (Forall (own_effect c)) p).

(** The user id of the claims of some token that [ServeWs] accepts. *)
Definition verified `{Auth} (id : Z) : Prop :=
  ∃ token, token ≠ ""%string ∧ VerifyToken token = Some id.

(** The frames that the schedule makes the read pumps read. *)
Definition frames_read (schedule : list Action) : list string :=
  omap (λ a, match a with
             | ReadPass _ (ReadFrame message) => Some message
             | _ => None
             end) schedule.

(** Every payload queued on a channel, or about to be handed to the hub, is
    one of [frames]. *)
Definition provenance (frames : list string) (sys : System) : Prop :=
  (∀ c message, OpSend c message ∈ history (hub_state sys) → message ∈ frames)
  ∧ (∀ c effs message, pending sys !! c = Some effs →
       HubSend (Broadcast message) ∈ effs → message ∈ frames)
  ∧ (∀ c p, inflight sys !! c = Some p →
       ends_in (λ effs, ∀ message, HubSend (Broadcast message) ∈ effs →
                                   message ∈ frames) p).

(** ** What the store keeps

    A call among the statements of other sessions: [J] is what the store
    satisfies at every moment, [G] relates the store before and after any
    statement of any session, and [past] is the store as the call last saw
    it, after its own latest statement.  [upholds J G post past p]: each
    statement of [p] keeps [J] and stays within [G], wherever the others
    have brought the store from [past] meanwhile, and the result of [p],
    with the store right after its last statement, satisfies [post]. *)
Fixpoint upholds (J : DB → Prop) (G : DB → DB → Prop) {A : Type}
    (post : DB → A → Prop) (past : DB) (p : Prog A) : Prop :=
  match p with
  | Ret a => post past a
  | Step s k =>
      ∀ db, G past db → J db →
        J (s db).2 ∧ G db (s db).2 ∧ upholds J G post (s db).2 (k (s db).1)
  end.

(** A call that somebody started and has not finished. *)
Definition underway (J : DB → Prop) (G : DB → DB → Prop) {A : Type}
    (db : DB) (p : Prog A) : Prop :=
  ∃ past, G past db ∧ upholds J G (λ _ _, True) past p.

(** The store satisfies [J], every client stands for a user that satisfies
    [Q], and every pass in flight upholds [J] and [G]. *)
Definition store_inv (J : DB → Prop) (G : DB → DB → Prop) (Q : Z → Prop)
    (sys : System) : Prop :=
  J (store sys)
  ∧ (∀ c cl, heap (hub_state sys) !! c = Some cl → Q (ID cl))
  ∧ (∀ c p, inflight sys !! c = Some p → underway J G (store sys) p).

(** Every message row that was not in [db0] names a verified user as its
    sender. *)
Definition senders_verified `{Auth} (db0 db : DB) : Prop :=
  ∀ row, row ∈ messages db → row ∈ messages db0 ∨ verified (msg_sender_id row).


(** Every message row sits in a chat that exists and that is the chat of
    its own sender and receiver, in either order. *)
Definition messages_in_own_chat (db : DB) : Prop :=
  ∀ row, row ∈ messages db →
    ∃ chat, chat ∈ chats db
      ∧ chat_id chat = msg_chat_id row
      ∧ pair_where (msg_sender_id row) (msg_receiver_id row) chat = true.

(** ** config/schema.sql: the procedure GetChatHistory *)

(** A row of the result set ([chat_created_at] apart, see [ChatRow]). *)
Record HistoryRow : Type := mkHistoryRow {
  h_chat_id : Z;
  h_sender_id : Z;
  h_receiver_id : Z;
  h_message_id : Z;
  h_text : string;
  h_time : string;
  h_replied_message : string;
  h_replied_message_id : Z;
  h_date : string;
  h_message_sender_id : Z;
  h_message_receiver_id : Z;
  h_attached_file_path : string;
  h_is_read : bool
}.

Module History.

(** The select list: the columns of the chat, and the [COALESCE] of each
    column of the message, which is [None] for a chat without message. *)
Definition history_row (c : ChatRow) (m : option MessageRow) : HistoryRow :=
  mkHistoryRow (chat_id c) (chat_sender_id c) (chat_receiver_id c)
    (default 0 (msg_id <$> m))
    (default ""%string (msg_text <$> m))
    (default ""%string (msg_time <$> m))
    (default ""%string (m ≫= msg_replied_message))
    (default 0 (m ≫= msg_replied_message_id))
    (default ""%string (msg_date <$> m))
    (default 0 (msg_sender_id <$> m))
    (default 0 (msg_receiver_id <$> m))
    (default ""%string (m ≫= msg_attached_file_path))
    (default false (msg_is_read <$> m)).

(** [chats c LEFT JOIN messages m ON c.id = m.chat_id] for one chat. *)
Definition left_join (c : ChatRow) (msgs : list MessageRow) : list HistoryRow :=
  match List.filter (λ m, msg_chat_id m =? chat_id c) msgs with
  | [] => [history_row c None]
  | m :: ms => history_row c ∘ Some <$> (m :: ms)
  end.

(** The SELECT.  The chats come in the order of the table, which is the
    order of their creation ([ORDER BY c.created_at]), and the messages of a
    chat in the order of the table, which is the order of their ids. *)
Definition select_history (p_user_id p_receiver_id : Z) (db : DB) : list HistoryRow :=
  flat_map (λ c, left_join c (messages db))
    (List.filter (pair_where p_user_id p_receiver_id) (chats db)).

(** The WHERE of the UPDATE, on a message joined with its chat. *)
Definition to_mark (p_user_id p_receiver_id : Z) (db : DB) (m : MessageRow) : bool :=
  existsb (λ c, (msg_chat_id m =? chat_id c) && pair_where p_user_id p_receiver_id c)
    (chats db)
  && negb (msg_sender_id m =? p_user_id)
  && negb (msg_is_read m).

Definition set_is_read (m : MessageRow) : MessageRow :=
  mkMessageRow (msg_id m) (msg_chat_id m) (msg_sender_id m) (msg_receiver_id m)
    (msg_text m) (msg_time m) (msg_replied_message m) (msg_replied_message_id m)
    (msg_date m) (msg_attached_file_path m) true.

(** The UPDATE. *)
Definition mark_read (p_user_id p_receiver_id : Z) (db : DB) : DB :=
  mkDB (chats db)
    ((λ m, if to_mark p_user_id p_receiver_id db m then set_is_read m else m)
       <$> messages db)
    (chats_auto_increment db) (messages_auto_increment db)
    (session_chat_id db) (pool db) (faults db).

(** [CREATE PROCEDURE GetChatHistory(IN p_user_id, IN p_receiver_id)]: the
    result set of the SELECT, then the UPDATE. *)
Definition GetChatHistory (p_user_id p_receiver_id : Z) : Prog (list HistoryRow) :=
  rows ← sql (λ db, (select_history p_user_id p_receiver_id db, db));
  sql (λ db, ((), mark_read p_user_id p_receiver_id db));;
  Ret rows.

End History.

(** ** controllers/chats.go: the HTTP handlers of the chat routes *)

Module Handlers.

Inductive HttpResponse : Type :=
  | HttpError (status : Z) (body : string)
  | HttpCreated (id : Z) (participants : list Z).     (* status 200, the JSON of the chat *)

(** [CreateChat]: [claims] is the value that the authentication middleware
    left in the request context ([None]: absent), [body] the request body
    decoded into [Participants []int] ([None]: the decoding failed). *)
Definition CreateChat (claims : option Z) (body : option (list Z))
    : Prog HttpResponse :=
  match claims with
  | None => Ret (HttpError 401 "Unauthorized")
  | Some UserID =>
      match body with
      | None => Ret (HttpError 400 "Invalid request body")
      | Some participants =>
          match participants with
          | [p0; p1] =>
              if negb (UserID =? p0) && negb (UserID =? p1)
              then Ret (HttpError 403 "Unauthorized: You must be one of the participants")
              else
                created ← Models.CreateChat p0 p1;
                match created with
                | inl _ => Ret (HttpError 500 "Failed to create chat")
                | inr chatID => Ret (HttpCreated chatID participants)
                end
          | _ => Ret (HttpError 400 "Exactly two participants are required")
          end
      end
  end.

(** What [GetChatHistory] sends to the store, through
    [models.GetChatHistory]: [db.Query("CALL GetChatHistory(?, ?)", userID,
    receiverID)], which can fail before the procedure starts.  The scanning
    and the conversion of the rows that follow do not touch the store and
    are not modelled. *)
Definition GetChatHistory (userID receiverID : Z) : Stmt (list HistoryRow) :=
  sent ← statement (λ db, (inr (), db));
  match sent with
  | inl err => Ret (inl err)
  | inr _ => rows ← History.GetChatHistory userID receiverID; Ret (inr rows)
  end.

End Handlers.

(** ** The server with its HTTP routes

    [routes.SetupRoutes] puts the WebSocket endpoint and the HTTP routes of
    the chat on one store: a request to POST /api/chat or to
    GET /api/chat/history starts a handler goroutine, whose statements run
    between those of the read pumps and of the other handlers. *)

Inductive Reply : Type :=
  | ChatReply (response : Handlers.HttpResponse)
  | HistoryReply (rows : error + list HistoryRow).

Record Server : Type := mkServer {
  websocket : System;
  handlers : list (Prog Reply)
}.

Inductive Request : Type :=
  | Ws (a : Action)                                        (* a step of the WebSocket side *)
  | PostChat (claims : option Z) (body : option (list Z))  (* POST /api/chat *)
  | GetHistory (userID receiverID : Z)                     (* GET /api/chat/history, past its checks *)
  | HandlerStep (i : nat).                                 (* the next statement of the i-th handler *)

Definition set_store (db : DB) (sys : System) : System :=
  mkSystem (hub_state sys) db (readers sys) (writers sys) (inflight sys)
    (pending sys).

Definition serve_step `{External} `{Auth} (req : Request) (srv : Server)
    : outcome Server :=
  match req with
  | Ws a =>
      match step a (websocket srv) with
      | Panic p => Panic p
      | Ok sys => Ok (mkServer sys (handlers srv))
      end
  | PostChat claims body =>
      Ok (mkServer (websocket srv)
            (handlers srv ++ [Handlers.CreateChat claims body ≫= λ r, Ret (ChatReply r)]))
  | GetHistory userID receiverID =>
      Ok (mkServer (websocket srv)
            (handlers srv
             ++ [Handlers.GetChatHistory userID receiverID ≫= λ r, Ret (HistoryReply r)]))
  | HandlerStep i =>
      match handlers srv !! i with
      | Some (Step s k) =>
          let '(r, db) := s (store (websocket srv)) in
          Ok (mkServer (set_store db (websocket srv)) (<[i := k r]> (handlers srv)))
      | _ => Ok srv
      end
  end.

Fixpoint serve `{External} `{Auth} (requests : list Request) (srv : Server)
    : outcome Server :=
  match requests with
  | [] => Ok srv
  | req :: rest =>
      match serve_step req srv with
      | Panic p => Panic p
      | Ok srv' => serve rest srv'
      end
  end.

(** The server as it starts on the store [db]. *)
Definition start (db : DB) : Server := mkServer (boot db) [].

(** [store_inv] with the handlers. *)
Definition server_inv (J : DB → Prop) (G : DB → DB → Prop) (Q : Z → Prop)
    (srv : Server) : Prop :=
  store_inv J G Q (websocket srv)
  ∧ Forall (underway J G (store (websocket srv))) (handlers srv).

(** Between two states of the store: the rows of [chats] are still there,
    unchanged and in place, and so are those of [messages] but for their
    read flags, which only go from unread to read. *)
Definition grows (db db' : DB) : Prop :=
  chats db `prefix_of` chats db'
  ∧ (History.set_is_read <$> messages db)
      `prefix_of` (History.set_is_read <$> messages db')
  ∧ ∀ i m m', messages db !! i = Some m → messages db' !! i = Some m' →
      msg_is_read m = true → msg_is_read m' = true.

(** ** utils/file_handler.go: the other date helpers *)

Module UtilsMore.
Import GoStrings.

Definition IsSolarDateValid (date : string) : bool :=
  match Utils.parseSolarDate date with
  | inl _ => false
  | inr _ => true
  end.

(** [CompareSolarDates]: -1, 0 or 1, or the error of the first date that
    does not parse. *)
Definition CompareSolarDates (date1 date2 : string) : error + Z :=
  match Utils.parseSolarDate date1 with
  | inl err => inl err
  | inr (y1, m1, d1) =>
      match Utils.parseSolarDate date2 with
      | inl err => inl err
      | inr (y2, m2, d2) =>
          inr (if y1 <? y2 then -1
               else if y2 <? y1 then 1
               else if m1 <? m2 then -1
               else if m2 <? m1 then 1
               else if d1 <? d2 then -1
               else if d2 <? d1 then 1
               else 0)
      end
  end.

(** The inner loop of [SortSolarDates], [for j := ...; j < len(dates); j++],
    with [todo = len(dates) - j] passes to go: the error of a comparison, if
    any, and the slice as the loop leaves it. *)
Fixpoint sort_inner (todo : nat) (i j : nat) (dates : list string)
    : option error * list string :=
  match todo with
  | O => (None, dates)
  | S todo' =>
      match dates !! i, dates !! j with
      | Some a, Some b =>
          match CompareSolarDates a b with
          | inl err => (Some err, dates)
          | inr res =>
              let dates' :=
                if 0 <? res then <[i := b]> (<[j := a]> dates) else dates in
              sort_inner todo' i (S j) dates'
          end
      | _, _ => (None, dates)
      end
  end.

(** The outer loop, [for i := ...; i < len(dates); i++], with
    [todo = len(dates) - i] passes to go. *)
Fixpoint sort_outer (todo : nat) (i : nat) (dates : list string)
    : option error * list string :=
  match todo with
  | O => (None, dates)
  | S todo' =>
      match sort_inner (length dates - S i) i (S i) dates with
      | (Some err, dates') => (Some err, dates')
      | (None, dates') => sort_outer todo' (S i) dates'
      end
  end.

(** [SortSolarDates(dates)] sorts the slice in place: the returned error and
    the contents of the slice afterwards. *)
Definition SortSolarDates (dates : list string) : option error * list string :=
  sort_outer (length dates) 0 dates.

(** [fmt.Sprintf] of one [%0Nd] verb: the decimal digits of the absolute
    value, zeros in front up to the width, the sign counted in the width. *)
Definition digit_char (d : Z) : ascii := ascii_of_N (Z.to_N (48 + d)).

Fixpoint decimal_digits (fuel : nat) (n : Z) (acc : list ascii) : list ascii :=
  match fuel with
  | O => acc
  | S fuel' =>
      let acc' := digit_char (n mod 10) :: acc in
      if n <? 10 then acc' else decimal_digits fuel' (n / 10) acc'
  end.

Definition decimal (n : Z) : list ascii :=
  decimal_digits (S (Z.to_nat (Z.log2 n))) n [].

Definition zero_padded (width : nat) (n : Z) : list ascii :=
  let digits := decimal (Z.abs n) in
  if n <? 0
  then "-"%char :: replicate (width - 1 - length digits) "0"%char ++ digits
  else replicate (width - length digits) "0"%char ++ digits.

(** [fmt.Sprintf("%04d-%02d-%02d", year, month, day)] *)
Definition Sprintf_date (year month day : Z) : string :=
  string_of_list_ascii
    (zero_padded 4 year ++ "-"%char :: zero_padded 2 month
     ++ "-"%char :: zero_padded 2 day).

End UtilsMore.

(** [ptime.New(date)] with its [Year()], [int(Month())] and [Day()]: the
    solar calendar date of a time, from the external calendar library. *)
Class Calendar `{External} : Type := { ptime_New : GoTime → Z * Z * Z }.

Definition GregorianToSolar `{Calendar} (date : GoTime) : string :=
  let '(year, month, day) := ptime_New date in
  UtilsMore.Sprintf_date year month day.

(** ** models/chat.go: extractFileNameAndType *)

(** [strings.Join(parts, sep)] *)
Definition Join (parts : list string) (sep : string) : string :=
  match parts with
  | [] => ""%string
  | p :: rest => p +:+ foldr (λ q acc, sep +:+ q +:+ acc) ""%string rest
  end.

Definition extractFileNameAndType (url : string) : string * string :=
  let parts := GoStrings.Split url "/"%char in
  match last parts with
  | None => (""%string, ""%string)                     (* len(parts) == 0 *)
  | Some fileNameWithExt =>
      let fileParts := GoStrings.Split fileNameWithExt "."%char in
      if (length fileParts <? 2)%nat then (fileNameWithExt, ""%string)
      else
        (Join (take (length fileParts - 1) fileParts) ".",
         default ""%string (last fileParts))
  end.

(** ** Measures used in the statements about dates *)

(** The place of a solar date in the order of dates: it grows with the year,
    then the month (1 to 12), then the day (1 to 31). *)
Definition ordinal (ymd : Z * Z * Z) : Z :=
  let '(y, m, d) := ymd in (y * 13 + m) * 32 + d.

(** The ordinal of the date that a string parses to, 0 when it does not. *)
Definition rank (date : string) : Z :=
  match Utils.parseSolarDate date with
  | inl _ => 0
  | inr ymd => ordinal ymd
  end.

(** *** Sample data for the server *)

Module SampleServer.
Import Sample.

(** A verifier that knows the tokens of users 10 and 20. *)
Definition sample_VerifyToken (token : string) : option Z :=
  if bool_decide (token = "token-of-10"%string) then Some 10
  else if bool_decide (token = "token-of-20"%string) then Some 20
  else None.

#[export] Instance sample_auth : Auth := {| VerifyToken := sample_VerifyToken |}.

(** A pass of the read pump of [c] on a frame, with nothing in between: the
    read, then the statements of the pass (a pass sends nine at most). *)
Definition a_pass (c : ptr) (message : string) : list Action :=
  ReadPass c (ReadFrame message) :: replicate 9 (StoreStep c).

(** Users 10 and 20 connect (clients 1 and 2), a forged token is turned
    away, user 10 sends a frame in the name of user 20 and then its own
    first message, user 20 answers, and the write pumps run in between. *)
Definition a_schedule : list Action :=
  [Connect "token-of-10" true; Connect "token-of-20" true; Connect "forged" true]
  ++ a_pass 1%positive frame_20_10 ++ [Deliver 1%positive]
  ++ a_pass 1%positive frame_10_20 ++ [Deliver 1%positive; WritePass 2%positive true]
  ++ a_pass 2%positive frame_20_10
  ++ [Deliver 2%positive; WritePass 1%positive true; WritePass 2%positive true].

(** The empty store behind a pool that serves the calls of two goroutines in
    turn, each on a connection of its own. *)
Definition two_connections : DB := mkDB [] [] 1 1 ∅ [1; 2; 1; 2]%nat [].

(** Users 10 and 20, who have no chat yet, send each other a first message
    at the same time: both lookups find nothing, both calls of the procedure
    select before either inserts, and each pass then runs to its end. *)
Definition a_race : list Action :=
  [Connect "token-of-10" true; Connect "token-of-20" true;
   ReadPass 1%positive (ReadFrame frame_10_20);
   ReadPass 2%positive (ReadFrame frame_20_10);
   StoreStep 1%positive; StoreStep 2%positive;       (* ChatExists: no chat, twice *)
   StoreStep 1%positive; StoreStep 2%positive;       (* CALL CreateChat, twice *)
   StoreStep 1%positive; StoreStep 2%positive;       (* its SELECT: nothing, twice *)
   StoreStep 1%positive; StoreStep 2%positive]       (* its INSERT, twice *)
  ++ replicate 5 (StoreStep 1%positive) ++ replicate 5 (StoreStep 2%positive)
  ++ [Deliver 1%positive; Deliver 2%positive].

(** Where the race leaves the server. *)
Definition after_the_race : System :=
  Eval vm_compute in
    match run a_race (boot two_connections) with
    | Ok sys => sys
    | Panic _ => boot two_connections
    end.

(** A client with two payloads queued and a closed channel. *)
Definition closing_client : Client :=
  mkClient (mkSocket false [TextMessage "a"]) (mkChan ["b"%string; "c"%string] true) 10.

(** The same client after its read pump closed the socket. *)
Definition dead_client : Client :=
  mkClient (mkSocket true [TextMessage "a"]) (mkChan ["b"%string; "c"%string] false) 10.

(** Where the schedule leaves the server, from the empty store. *)
Definition final_system : System :=
  Eval vm_compute in
    match run a_schedule (boot empty_db) with
    | Ok sys => sys
    | Panic _ => boot empty_db
    end.

(** Where it leaves the server from a store that already has the first
    message of user 10 to user 20. *)
Definition later_system : System :=
  Eval vm_compute in
    match run a_schedule (boot db_after_first_message) with
    | Ok sys => sys
    | Panic _ => boot db_after_first_message
    end.

(** Both users connect, user 10 sends a message, its socket fails, and its
    read pump unregisters it and closes the socket; user 20 stays, and a
    second disconnection of client 1 is asked for in vain. *)
Definition a_departure : list Action :=
  [Connect "token-of-10" true; Connect "token-of-20" true]
  ++ a_pass 1%positive frame_10_20 ++ [Deliver 1%positive]
  ++ [ReadPass 1%positive ReadError; Deliver 1%positive; Deliver 1%positive;
      WritePass 1%positive true; WritePass 1%positive true;
      ReadPass 1%positive ReadError; Deliver 1%positive].

Definition after_the_departure : System :=
  Eval vm_compute in
    match run a_departure (boot empty_db) with
    | Ok sys => sys
    | Panic _ => boot empty_db
    end.

(** The sample schedule, then user 20 asks for its history with user 10 and
    for their chat, and the two handlers take turns at the store. *)
Definition some_requests : list Request :=
  (Ws <$> a_schedule)
  ++ [GetHistory 20 10; PostChat (Some 20) (Some [20; 10])]
  ++ [HandlerStep 0; HandlerStep 1; HandlerStep 0; HandlerStep 1;
      HandlerStep 0; HandlerStep 1]
  ++ replicate 6 (HandlerStep 1).

Definition served : Server :=
  Eval vm_compute in
    match serve some_requests (start db_after_first_message) with
    | Ok srv => srv
    | Panic _ => start db_after_first_message
    end.

(** Four dates that parse, out of order, two of them the same day written
    differently. *)
Definition some_dates : list string :=
  ["1403-05-01"; "1402-01-01"; "1403-5-1"; "1401-12-29"]%string.

(** A calendar on the sample times, which are the three numbers. *)
#[export] Instance sample_calendar : @Calendar sample_external :=
  {| ptime_New := λ date : @GoTime sample_external, date |}.

Definition client_1_at_end : Client :=
  mkClient (mkSocket false [TextMessage frame_10_20]) (mkChan [frame_20_10] false) 10.

Definition client_2_at_end : Client :=
  mkClient (mkSocket false [TextMessage frame_10_20; TextMessage frame_20_10])
    (mkChan [] false) 20.

End SampleServer.

(** ** The store: what each call leaves in the tables *)

Lemma same_tables_refl db : same_tables db db.
Proof. by repeat split. Qed.

Lemma same_tables_set_faults f db : same_tables db (set_faults f db).
Proof. by repeat split. Qed.

Lemma same_tables_trans db1 db2 db3 :
  same_tables db1 db2 → same_tables db2 db3 → same_tables db1 db3.
Proof.
  intros (?&?&?&?) (?&?&?&?). repeat split; congruence.
Qed.

(** A call running alone: its statements one after the other. *)
Lemma alone_bind {A B} (p : Prog A) (f : A → Prog B) db :
  alone (p ≫= f) db = f (p db).1 (p db).2.
Proof.
  revert db. induction p as [a|R s k IH]; intros db; [done|].
  change (alone (Step s k ≫= f) db)
    with (let '(r, db') := s db in alone (k r ≫= f) db').
  simpl. destruct (s db) as [r db']. apply IH.
Qed.

Lemma alone_sql {A} (s : DB → A * DB) db : sql s db = s db.
Proof. simpl. by destruct (s db). Qed.

(** A statement either fails by the schedule and changes no table, or runs
    its body on the same tables. *)
Lemma statement_cases {A} (body : DB → (error + A) * DB) db :
  (∃ code rest, faults db = Some code :: rest
      ∧ statement body db = (inl (ErrDriver code), set_faults rest db))
  ∨ (∃ db0, same_tables db db0 ∧ session_chat_id db0 = session_chat_id db
      ∧ pool db0 = pool db
      ∧ statement body db = body db0).
Proof.
  unfold statement. rewrite alone_sql.
  destruct (faults db) as [|[code|] rest] eqn:Hf.
  - right. exists db. split; [apply same_tables_refl | done].
  - left. by exists code, rest.
  - right. exists (set_faults rest db). split; [apply same_tables_set_faults | done].
Qed.

Lemma statement_healthy {A} (body : DB → (error + A) * DB) db :
  faults db = [] → statement body db = body db.
Proof. unfold statement. rewrite alone_sql. by intros ->. Qed.

(** [ChatExists] never changes a table, and answers with the id of the first
    chat of the pair, or 0. *)
Lemma ChatExists_ok senderID receiverID db id db1 :
  Models.ChatExists senderID receiverID db = (inr id, db1) →
  same_tables db db1
  ∧ id = default 0 (head (select_chat_ids senderID receiverID db)).
Proof.
  unfold Models.ChatExists. rewrite alone_bind.
  destruct (statement_cases
    (λ db, (inr (head (select_chat_ids senderID receiverID db)), db)) db)
    as [(code & rest & _ & ->)|(db0 & Ht & _ & _ & ->)]; [done|].
  assert (select_chat_ids senderID receiverID db0
          = select_chat_ids senderID receiverID db) as ->.
  { unfold select_chat_ids. by destruct Ht as (-> & _). }
  simpl. destruct (head _); intros [= <- <-]; done.
Qed.

Lemma ChatExists_err senderID receiverID db err db1 :
  Models.ChatExists senderID receiverID db = (inl err, db1) → same_tables db db1.
Proof.
  unfold Models.ChatExists. rewrite alone_bind.
  destruct (statement_cases
    (λ db, (inr (head (select_chat_ids senderID receiverID db)), db)) db)
    as [(code & rest & _ & ->)|(db0 & Ht & _ & _ & ->)]; simpl.
  - intros [= <- <-]. apply same_tables_set_faults.
  - destruct (head _); intros [= <- <-].
Qed.

Lemma ChatExists_healthy senderID receiverID db :
  faults db = [] →
  Models.ChatExists senderID receiverID db
  = (inr (default 0 (head (select_chat_ids senderID receiverID db))), db).
Proof.
  intros Hf. unfold Models.ChatExists.
  rewrite alone_bind, statement_healthy by done. simpl.
  by destruct (head _).
Qed.

(** [ChatExists] leaves the session variables and the pool as they are. *)
Lemma ChatExists_session senderID receiverID db res db1 :
  Models.ChatExists senderID receiverID db = (res, db1) →
  session_chat_id db1 = session_chat_id db ∧ pool db1 = pool db.
Proof.
  unfold Models.ChatExists. rewrite alone_bind.
  destruct (statement_cases
    (λ db, (inr (head (select_chat_ids senderID receiverID db)), db)) db)
    as [(code & rest & _ & ->)|(db0 & Ht & Hs & Hp & ->)]; simpl.
  - by intros [= <- <-].
  - destruct (head _); by intros [= <- <-].
Qed.

(** A call whose connection shows either fails by the schedule, or runs its
    body on the connection that the pool hands out. *)
Lemma statement_on_cases {A} (body : conn → Prog A) db :
  (∃ code rest, faults db = Some code :: rest
      ∧ statement_on body db = (inl (ErrDriver code), set_faults rest db))
  ∨ (∃ db0, same_tables db db0 ∧ session_chat_id db0 = session_chat_id db
      ∧ pool db0 = tail (pool db) ∧ faults db0 = tail (faults db)
      ∧ statement_on body db
        = (inr (body (default 0%nat (head (pool db))) db0).1,
           (body (default 0%nat (head (pool db))) db0).2)).
Proof.
  unfold statement_on, statement. rewrite alone_bind, alone_sql.
  destruct (faults db) as [|[code|] rest] eqn:Hf.
  - right. unfold connect. destruct (pool db) as [|k ks] eqn:Hp; simpl.
    + exists db. rewrite alone_bind, Hp, Hf. by repeat split.
    + exists (set_pool ks db). rewrite alone_bind. simpl. by repeat split.
  - left. by exists code, rest.
  - right. unfold connect. simpl.
    destruct (pool db) as [|k ks] eqn:Hp; simpl.
    + exists (set_faults rest db). rewrite alone_bind. simpl.
      rewrite Hp. by repeat split.
    + exists (set_pool ks (set_faults rest db)). rewrite alone_bind. simpl.
      by repeat split.
Qed.

(** On a healthy store served by one connection the call is its body on
    connection 0. *)
Lemma statement_on_healthy {A} (body : conn → Prog A) db :
  faults db = [] → pool db = [] →
  statement_on body db = (inr (body 0%nat db).1, (body 0%nat db).2).
Proof.
  intros Hf Hp. unfold statement_on, statement.
  rewrite alone_bind, alone_sql, Hf. unfold connect. rewrite Hp. simpl.
  by rewrite alone_bind.
Qed.

(** The procedure [CreateChat] running alone on connection [k]. *)
Lemma Schema_CreateChat_alone k s r db :
  Schema.CreateChat k s r db
  = match head (select_chat_ids s r db) with
    | Some id => ((), set_session_chat_id k id db)
    | None =>
        ((), set_session_chat_id k (chats_auto_increment db)
               (insert_chat (mkChatRow (chats_auto_increment db) s r) db))
    end.
Proof.
  unfold Schema.CreateChat. rewrite alone_bind, alone_sql. simpl.
  destruct (head (select_chat_ids s r db)); rewrite alone_bind; simpl; done.
Qed.

(** [models.CreateChat] running alone.  Either its CALL fails and the tables
    are as they were, or the procedure runs on the first connection [k] of
    the pool: it finds the first chat of the pair or inserts one, leaves its
    id in the [@chat_id] of [k], and the answer is what the second
    connection of the pool has in its own [@chat_id], unless that call
    fails. *)
Lemma CreateChat_alone s r db res db' :
  Models.CreateChat s r db = (res, db') →
  (∃ code, res = inl (ErrDriver code) ∧ same_tables db db'
           ∧ session_chat_id db' = session_chat_id db)
  ∨ (∃ id,
       ((head (select_chat_ids s r db) = Some id ∧ chats db' = chats db
         ∧ chats_auto_increment db' = chats_auto_increment db)
        ∨ (select_chat_ids s r db = [] ∧ id = chats_auto_increment db
           ∧ chats db' = chats db ++ [mkChatRow id s r]
           ∧ chats_auto_increment db' = chats_auto_increment db + 1))
       ∧ messages db' = messages db
       ∧ messages_auto_increment db' = messages_auto_increment db
       ∧ session_chat_id db'
         = <[default 0%nat (head (pool db)) := id]> (session_chat_id db)
       ∧ ((∃ code, res = inl (ErrDriver code))
          ∨ (faults db' = tail (tail (faults db))
             ∧ res = match session_chat_id db'
                           !! default 0%nat (head (tail (pool db))) with
                     | Some id' => inr id'
                     | None => inl ErrScanNull
                     end))).
Proof.
  unfold Models.CreateChat. rewrite alone_bind.
  destruct (statement_on_cases (λ k, Schema.CreateChat k s r) db)
    as [(code & rest & _ & ->)|(db0 & Ht & Hs & Hp & Hf & ->)].
  { simpl. intros [= <- <-]. left. exists code. split; [done|].
    split; [apply same_tables_set_faults|done]. }
  set (k := default 0%nat (head (pool db))).
  rewrite Schema_CreateChat_alone.
  destruct Ht as (Hc & Hm & Hca & Hma).
  assert (select_chat_ids s r db0 = select_chat_ids s r db) as Hsel.
  { unfold select_chat_ids. by rewrite Hc. }
  rewrite Hsel.
  set (db1 := match head (select_chat_ids s r db) with
              | Some id => ((), set_session_chat_id k id db0)
              | None => ((), set_session_chat_id k (chats_auto_increment db0)
                               (insert_chat (mkChatRow (chats_auto_increment db0) s r) db0))
              end).
  assert (∃ id,
    ((head (select_chat_ids s r db) = Some id ∧ chats db1.2 = chats db
      ∧ chats_auto_increment db1.2 = chats_auto_increment db)
     ∨ (select_chat_ids s r db = [] ∧ id = chats_auto_increment db
        ∧ chats db1.2 = chats db ++ [mkChatRow id s r]
        ∧ chats_auto_increment db1.2 = chats_auto_increment db + 1))
    ∧ messages db1.2 = messages db
    ∧ messages_auto_increment db1.2 = messages_auto_increment db
    ∧ session_chat_id db1.2 = <[k := id]> (session_chat_id db)
    ∧ pool db1.2 = tail (pool db) ∧ faults db1.2 = tail (faults db))
    as (id & Hchats & Hm1 & Hma1 & Hs1 & Hp1 & Hf1).
  { unfold db1. destruct (head (select_chat_ids s r db)) as [id|] eqn:Hhead.
    - exists id. simpl. rewrite Hs. split; [left; by repeat split|done].
    - exists (chats_auto_increment db). apply head_None in Hhead. simpl.
      rewrite Hs, Hc, Hca. split; [right; by repeat split|done]. }
  destruct db1 as [[] db1]. simpl in Hchats, Hm1, Hma1, Hs1, Hp1, Hf1.
  cbn [fst snd]. rewrite alone_bind.
  destruct (statement_on_cases
              (λ k, sql (λ db, (session_chat_id db !! k, db))) db1)
    as [(code & rest & _ & ->)|(db2 & Ht2 & Hs2 & Hp2 & Hf2 & ->)];
    rewrite ?alone_sql; simpl.
  { intros [= <- <-]. right. exists id. simpl.
    split; [done|]. split; [done|]. split; [done|]. split; [done|].
    left. by exists code. }
  destruct Ht2 as (Hc2 & Hm2 & Hca2 & Hma2). rewrite Hp1.
  intros Hres. right. exists id.
  assert (db' = db2 ∧ res = match session_chat_id db2
                                   !! default 0%nat (head (tail (pool db))) with
                            | Some id' => inr id'
                            | None => inl ErrScanNull
                            end) as [-> ->].
  { destruct (session_chat_id db2 !! _); by injection Hres as <- <-. }
  rewrite Hc2, Hm2, Hca2, Hma2, Hs2, Hf2, Hf1.
  split; [done|]. split; [done|]. split; [done|]. split; [done|]. by right.
Qed.

(** ** The read pump, frame by frame *)

Section Session.
Context `{External}.

Lemma CreateChat_messages senderID receiverID db r db1 :
  Models.CreateChat senderID receiverID db = (r, db1) → messages db1 = messages db.
Proof.
  intros [(code & _ & (_ & Hm & _) & _)|(id & _ & Hm & _)]%CreateChat_alone;
    done.
Qed.

Lemma resolveChat_messages msg db r db1 :
  resolveChat msg db = (r, db1) → messages db1 = messages db.
Proof.
  unfold resolveChat. rewrite alone_bind.
  destruct (Models.ChatExists _ _ db) as [[err|id] db0] eqn:Hex; simpl.
  - intros [= <- <-]. by apply ChatExists_err in Hex as (_ & -> & _).
  - apply ChatExists_ok in Hex as ((_ & Hm & _) & _).
    destruct (id =? 0).
    + intros Hc%CreateChat_messages. congruence.
    + intros [= <- <-]. done.
Qed.

(** A pass of the read loop running alone, step by step. *)
Lemma readPump_frame_alone c c_ID message db :
  readPump_frame c c_ID message db
  = match json_Unmarshal message with
    | None => ([], db)
    | Some msg =>
        if negb (SenderID msg =? c_ID) then ([], db)
        else
          match resolveChat msg db with
          | (inl _, db1) => ([], db1)
          | (inr existingChatID, db1) =>
              match saveMessage (set_ChatID existingChatID msg) db1 with
              | (inl err, db2) =>
                  ([WriteJSON c (mkErrorReply "Failed to send message" err)], db2)
              | (inr _, db2) => ([HubSend (Broadcast message)], db2)
              end
          end
    end.
Proof.
  unfold readPump_frame.
  destruct (json_Unmarshal message) as [msg|]; [|done].
  destruct (negb _); [done|]. rewrite alone_bind.
  destruct (resolveChat msg db) as [[e|chat] db1]; [done|].
  cbn [fst snd]. rewrite alone_bind.
  by destruct (saveMessage (set_ChatID chat msg) db1) as [[e|[]] db2].
Qed.

Lemma readPump_cons c c_ID message rest db :
  readPump c c_ID (ReadFrame message :: rest) db
  = ((readPump_frame c c_ID message db).1
       ++ (readPump c c_ID rest (readPump_frame c c_ID message db).2).1,
     (readPump c c_ID rest (readPump_frame c c_ID message db).2).2).
Proof.
  simpl. destruct (readPump_frame c c_ID message db) as [effs db1]. simpl.
  by destruct (readPump c c_ID rest db1).
Qed.

(** C7. A frame that does not decode as a [WSMessage] is skipped: the pass
    of the loop has no effect at all (nothing reaches the hub, the socket or
    the store, for this connection or any other) and the loop goes on with
    the next read. *)
Theorem undecodable_frame_is_skipped c c_ID message rest db st :
  json_Unmarshal message = None →
  readPump_frame c c_ID message db = ([], db)
  ∧ readPump c c_ID (ReadFrame message :: rest) db = readPump c c_ID rest db
  ∧ perform_all (readPump_frame c c_ID message db).1 st = Ok st.
Proof.
  intros Hdec.
  assert (readPump_frame c c_ID message db = ([], db)) as Hframe.
  { rewrite readPump_frame_alone. by rewrite Hdec. }
  split; [done|]. rewrite readPump_cons, Hframe. simpl.
  split; [|done]. by destruct (readPump c c_ID rest db).
Qed.

(** C2. A frame whose [sender_id] is not the authenticated id of the
    connection is dropped in silence: no store call is made (so no row is
    written), no effect is produced (no broadcast, no reply, no unregister,
    no close), and the loop goes on with the next read. *)
Theorem foreign_sender_is_dropped c c_ID message msg rest db st :
  json_Unmarshal message = Some msg →
  SenderID msg ≠ c_ID →
  readPump_frame c c_ID message db = ([], db)
  ∧ readPump c c_ID (ReadFrame message :: rest) db = readPump c c_ID rest db
  ∧ perform_all (readPump_frame c c_ID message db).1 st = Ok st.
Proof.
  intros Hdec Hne.
  assert (readPump_frame c c_ID message db = ([], db)) as Hframe.
  { rewrite readPump_frame_alone. rewrite Hdec.
    by destruct (Z.eqb_spec (SenderID msg) c_ID). }
  split; [done|]. rewrite readPump_cons, Hframe. simpl.
  split; [|done]. by destruct (readPump c c_ID rest db).
Qed.

(** C3. When saving the message fails, the pass of the loop produces one
    effect only, the error reply written to the socket of the connection the
    frame came from.  Nothing is sent to the hub: the registry, every
    outbound channel and every other client are left as they were, and the
    loop goes on with the next read. *)
Theorem persistence_error_is_reported_to_sender
    c c_ID message msg chat err rest db db1 db2 :
  json_Unmarshal message = Some msg →
  SenderID msg = c_ID →
  resolveChat msg db = (inr chat, db1) →
  saveMessage (set_ChatID chat msg) db1 = (inl err, db2) →
  let reply := mkErrorReply "Failed to send message" err in
  readPump_frame c c_ID message db = ([WriteJSON c reply], db2)
  ∧ readPump c c_ID (ReadFrame message :: rest) db
    = (WriteJSON c reply :: (readPump c c_ID rest db2).1,
       (readPump c c_ID rest db2).2)
  ∧ ∀ st cl, heap st !! c = Some cl →
      ∃ st', perform_all (readPump_frame c c_ID message db).1 st = Ok st'
        ∧ Clients st' = Clients st
        ∧ history st' = history st
        ∧ (∀ c', c' ≠ c → heap st' !! c' = heap st !! c')
        ∧ (∃ cl', heap st' !! c = Some cl' ∧ send cl' = send cl
             ∧ (sock_closed (Conn cl) = false →
                Conn cl' = mkSocket false (sock_written (Conn cl) ++ [JSONValue reply]))).
Proof.
  intros Hdec Hid Hres Hsave reply.
  assert (readPump_frame c c_ID message db = ([WriteJSON c reply], db2)) as Hframe.
  { rewrite readPump_frame_alone. rewrite Hdec, Hid, Z.eqb_refl. cbn [negb].
    by rewrite Hres, Hsave. }
  split; [done|]. split.
  { rewrite readPump_cons, Hframe. done. }
  intros st cl Hcl. rewrite Hframe. simpl. unfold conn_write. rewrite Hcl.
  destruct (sock_closed (Conn cl)) eqn:Hclosed.
  - exists st. repeat split; try done. exists cl. by repeat split.
  - eexists. split; [done|]. simpl. repeat split; try done.
    + intros c' Hne. by rewrite lookup_insert_ne.
    + eexists. rewrite lookup_insert_eq. split; [done|]. by split.
Qed.

(** C6. Whenever a pass of the loop broadcasts, the payload it hands to the
    hub is the frame as it was read from the socket, and it is the only
    effect; the decoded copy, stamped with the chat id of the pair, went to
    the store only. *)
Theorem broadcast_payload_is_the_raw_frame c c_ID message db effs db' payload :
  readPump_frame c c_ID message db = (effs, db') →
  HubSend (Broadcast payload) ∈ effs →
  payload = message
  ∧ effs = [HubSend (Broadcast message)]
  ∧ ∃ msg chat db1,
      json_Unmarshal message = Some msg
      ∧ SenderID msg = c_ID
      ∧ resolveChat msg db = (inr chat, db1)
      ∧ saveMessage (set_ChatID chat msg) db1 = (inr (), db').
Proof.
  rewrite readPump_frame_alone.
  destruct (json_Unmarshal message) as [msg|] eqn:Hdec;
    [|intros [= <- <-] Hin; by apply elem_of_nil in Hin].
  destruct (Z.eqb_spec (SenderID msg) c_ID) as [Hid|Hne]; cbn [negb];
    [|intros [= <- <-] Hin; by apply elem_of_nil in Hin].
  destruct (resolveChat msg db) as [[e|chat] db1] eqn:Hres;
    [intros [= <- <-] Hin; by apply elem_of_nil in Hin|].
  destruct (saveMessage (set_ChatID chat msg) db1) as [[e|[]] db2] eqn:Hsave;
    intros [= <- <-] Hin; apply list_elem_of_singleton in Hin.
  - discriminate.
  - injection Hin as ->. split; [done|]. split; [done|].
    by exists msg, chat, db1.
Qed.

(** A failure while the chat of the pair is looked up or created is not a
    failure of the save: the pass ends there, in silence. *)
Lemma resolve_failure_is_silent c c_ID message msg err db db1 :
  json_Unmarshal message = Some msg →
  SenderID msg = c_ID →
  resolveChat msg db = (inl err, db1) →
  readPump_frame c c_ID message db = ([], db1).
Proof.
  intros Hdec Hid Hres. rewrite readPump_frame_alone.
  rewrite Hdec, Hid, Z.eqb_refl. cbn [negb]. by rewrite Hres.
Qed.

End Session.

(** ** The store: chats and messages *)

Section Store.
Context `{External}.

Lemma Schema_AddMessage_cases chat s r text timeStr rm rmid date file isRead db res db' :
  Schema.AddMessage chat s r text timeStr rm rmid date file isRead db = (res, db') →
  (∃ e, res = inl e ∧ db' = db)
  ∨ (∃ row, res = inr () ∧ db' = insert_message row db ∧ msg_chat_id row = chat
       ∧ msg_sender_id row = s ∧ msg_receiver_id row = r ∧ msg_text row = text).
Proof.
  unfold Schema.AddMessage.
  repeat case_match; intros [= <- <-]; eauto 10.
Qed.

Lemma statement_AddMessage_cases chat s r text timeStr rm rmid date file isRead db res db' :
  statement (Schema.AddMessage chat s r text timeStr rm rmid date file isRead) db
    = (res, db') →
  (∃ e, res = inl e ∧ same_tables db db')
  ∨ (∃ row, res = inr () ∧ chats db' = chats db
       ∧ messages db' = messages db ++ [row] ∧ msg_chat_id row = chat
       ∧ msg_sender_id row = s ∧ msg_receiver_id row = r ∧ msg_text row = text).
Proof.
  destruct (statement_cases
    (Schema.AddMessage chat s r text timeStr rm rmid date file isRead) db)
    as [(code & rest & _ & ->)|(db0 & Ht & _ & _ & ->)].
  - intros [= <- <-]. left. eexists. split; [done|]. apply same_tables_set_faults.
  - intros [(e & -> & ->)|(row & -> & -> & Hrow)]%Schema_AddMessage_cases.
    + left. eauto.
    + right. exists row. destruct Ht as (Hc & Hm & _). simpl.
      rewrite Hc, Hm. by repeat split; try apply Hrow.
Qed.

(** [models.AddMessage] running alone, step by step. *)
Lemma AddMessage_alone chatID s r text timeStr rm rmid date file isRead db :
  Models.AddMessage chatID s r text timeStr rm rmid date file isRead db
  = match Utils.SolarToGregorian date with
    | inl err => (inl (ErrConvertingDate err), db)
    | inr g =>
        match Models.ChatExists s r db with
        | (inl err, db1) => (inl (ErrCheckingChat err), db1)
        | (inr existingChatID, db1) =>
            if existingChatID =? 0 then (inl (ErrNoChat s r), db1)
            else if negb (chatID =? 0) && negb (chatID =? existingChatID)
            then (inl (ErrInvalidChatID chatID existingChatID), db1)
            else
              statement
                (Schema.AddMessage existingChatID s r text timeStr (Some rm) rmid
                   (Format_2006_01_02 g) (URL <$> file) isRead)
                db1
        end
    end.
Proof.
  unfold Models.AddMessage.
  destruct (Utils.SolarToGregorian date) as [err|g]; [done|].
  rewrite alone_bind.
  destruct (Models.ChatExists s r db) as [[e|id] db1]; [done|].
  cbn [fst snd]. by repeat case_match.
Qed.

Lemma pair_where_sym a b row : pair_where a b row = pair_where b a row.
Proof. unfold pair_where. apply orb_comm. Qed.

Lemma select_chat_ids_sym a b db : select_chat_ids a b db = select_chat_ids b a db.
Proof.
  unfold select_chat_ids. f_equal. apply List.filter_ext, pair_where_sym.
Qed.

(** The row of one pair answers the lookups of that pair only. *)
Lemma pair_where_same a b id s r row :
  pair_where a b (mkChatRow id s r) = true →
  pair_where a b row = pair_where s r row.
Proof.
  unfold pair_where. simpl.
  rewrite orb_true_iff, !andb_true_iff, !Z.eqb_eq.
  intros [[-> ->]|[-> ->]]; [done|apply orb_comm].
Qed.

Lemma select_chat_ids_insert a b row db :
  select_chat_ids a b (insert_chat row db)
  = select_chat_ids a b db ++ (if pair_where a b row then [chat_id row] else []).
Proof.
  unfold select_chat_ids. simpl. rewrite List.filter_app, fmap_app. simpl.
  by destruct (pair_where a b row).
Qed.

Lemma select_chat_ids_chats a b db db' :
  chats db' = chats db → select_chat_ids a b db' = select_chat_ids a b db.
Proof. unfold select_chat_ids. by intros ->. Qed.

Lemma one_chat_per_pair_chats db db' :
  chats db' = chats db → one_chat_per_pair db → one_chat_per_pair db'.
Proof.
  intros Hc Hinv a b. rewrite (select_chat_ids_chats a b db db') by done. apply Hinv.
Qed.

Lemma select_chat_ids_exists a b id db :
  id ∈ select_chat_ids a b db →
  existsb (λ c, chat_id c =? id) (chats db) = true.
Proof.
  unfold select_chat_ids. intros (row & -> & Hin)%list_elem_of_fmap.
  apply list_elem_of_In, List.filter_In in Hin as [Hin _].
  apply existsb_exists. exists row. split; [done|apply Z.eqb_refl].
Qed.

(** C9. [AddMessage] checks the chat id against the store before it writes.
    With [existing] the answer of its lookup for the pair (the id of their
    chat, 0 when they have none): no chat gives an error and no insert; a
    nonzero supplied id other than [existing] gives an error and no insert;
    otherwise the one statement sent is the insert under [existing], whatever
    id was supplied.  That insert can only fail by a failure of the store or
    by a reply reference to a message that does not exist: in every other
    case the call returns nil and has appended the row, which carries
    [existing]; and a failed call leaves the tables as they were. *)
Theorem AddMessage_checks_the_chat_id
    chatID senderID receiverID text timeStr repliedMessage repliedMessageID
    hijriDate attachedFile isRead db gregorianDate existing db1 :
  Utils.SolarToGregorian hijriDate = inr gregorianDate →
  Models.ChatExists senderID receiverID db = (inr existing, db1) →
  let call := Models.AddMessage chatID senderID receiverID text timeStr
                repliedMessage repliedMessageID hijriDate attachedFile isRead db in
  existing = default 0 (head (select_chat_ids senderID receiverID db))
  ∧ same_tables db db1
  ∧ (existing = 0 → call = (inl (ErrNoChat senderID receiverID), db1))
  ∧ (existing ≠ 0 → chatID ≠ 0 → chatID ≠ existing →
       call = (inl (ErrInvalidChatID chatID existing), db1))
  ∧ (existing ≠ 0 → chatID = 0 ∨ chatID = existing →
       call = statement
                (Schema.AddMessage existing senderID receiverID text timeStr
                   (Some repliedMessage) repliedMessageID
                   (Format_2006_01_02 gregorianDate) (URL <$> attachedFile) isRead)
                db1
       ∧ (∀ db2, call = (inr (), db2) →
            chats db2 = chats db
            ∧ ∃ row, messages db2 = messages db ++ [row] ∧ msg_chat_id row = existing)
       ∧ (∀ e db2, call = (inl e, db2) → same_tables db db2)
       ∧ ((∀ code rest, faults db1 ≠ Some code :: rest) →
          (∀ rid, repliedMessageID = Some rid →
             rid = 0 ∨ ∃ m, m ∈ messages db ∧ msg_id m = rid) →
          ∃ db2, call = (inr (), db2)
            ∧ chats db2 = chats db
            ∧ messages db2
              = messages db
                ++ [mkMessageRow (messages_auto_increment db) existing
                      senderID receiverID text timeStr
                      (NULLIF (Some repliedMessage) ""%string)
                      (NULLIF repliedMessageID 0)
                      (Format_2006_01_02 gregorianDate)
                      (URL <$> attachedFile) isRead])).
Proof.
  intros Hconv Hex call.
  destruct (ChatExists_ok _ _ _ _ _ Hex) as [Ht Hid].
  split; [done|]. split; [done|].
  unfold call. rewrite AddMessage_alone, Hconv, Hex.
  split; [|split].
  - intros ->. done.
  - intros H0 Hc Hne.
    destruct (Z.eqb_spec existing 0); [done|].
    destruct (Z.eqb_spec chatID 0); [done|].
    by destruct (Z.eqb_spec chatID existing).
  - intros H0 Hc.
    destruct (Z.eqb_spec existing 0); [done|].
    assert (negb (chatID =? 0) && negb (chatID =? existing) = false) as ->.
    { destruct Hc as [->| ->]; [done|]. rewrite Z.eqb_refl. apply andb_false_r. }
    split; [done|]. destruct Ht as (Hc1 & Hm1 & Ha1 & Hb1). split; [|split].
    + intros db2 [(e & ? & _)|(row & _ & Hc2 & Hm2 & Hrow & _)]%statement_AddMessage_cases;
        [done|].
      split; [congruence|]. exists row. split; [congruence|done].
    + intros e db2 [(e' & _ & Ht2)|(row & ? & _)]%statement_AddMessage_cases; [|done].
      eapply same_tables_trans; [|done]. by repeat split.
    + intros Hhealthy Hreply.
      destruct (statement_cases
        (Schema.AddMessage existing senderID receiverID text timeStr
           (Some repliedMessage) repliedMessageID
           (Format_2006_01_02 gregorianDate) (URL <$> attachedFile) isRead) db1)
        as [(code & rest & Hf & _)|(db0 & (Hc0 & Hm0 & Ha0 & Hb0) & _ & _ & ->)];
        [by destruct (Hhealthy code rest)|].
      assert (existing ∈ select_chat_ids senderID receiverID db) as Hin.
      { destruct (select_chat_ids senderID receiverID db) as [|id ids];
          simpl in Hid; [done|]. subst id. apply list_elem_of_here. }
      apply select_chat_ids_exists in Hin.
      unfold Schema.AddMessage. rewrite Hc0, Hc1, Hin. simpl.
      assert (match NULLIF repliedMessageID 0 with
              | Some rid => negb (existsb (λ m, msg_id m =? rid) (messages db0))
              | None => false
              end = false) as ->.
      { destruct repliedMessageID as [rid|]; [|done]. simpl.
        case_bool_decide as Hrid; [done|].
        destruct (Hreply rid eq_refl) as [?|(m & Hm & Hmid)]; [done|].
        apply negb_false_iff, existsb_exists. exists m.
        rewrite Hm0, Hm1. split; [by apply list_elem_of_In|].
        by apply Z.eqb_eq. }
      eexists. split; [done|]. simpl. rewrite Hc0, Hm0, Hb0, Hc1, Hm1, Hb1. done.
Qed.

(** Appending the row of a pair that has no chat keeps the pairs apart. *)
Lemma one_chat_per_pair_insert s r id db chats' :
  one_chat_per_pair db → select_chat_ids s r db = [] →
  chats' = chats db ++ [mkChatRow id s r] →
  ∀ db', chats db' = chats' → one_chat_per_pair db'.
Proof.
  intros Hinv Hnone -> db' Hc a b.
  rewrite (select_chat_ids_chats a b (insert_chat (mkChatRow id s r) db)) by done.
  rewrite select_chat_ids_insert.
  destruct (pair_where a b _) eqn:Hp; [|rewrite app_nil_r; apply Hinv].
  assert (select_chat_ids a b db = select_chat_ids s r db) as ->.
  { unfold select_chat_ids. f_equal. apply List.filter_ext.
    intros row. by eapply pair_where_same. }
  rewrite Hnone. simpl. lia.
Qed.

(** What [models.CreateChat], running alone, can leave in [chats]. *)
Lemma CreateChat_cases s r db res db' :
  Models.CreateChat s r db = (res, db') →
  chats db' = chats db
  ∨ (select_chat_ids s r db = []
     ∧ chats db' = chats db ++ [mkChatRow (chats_auto_increment db) s r]).
Proof.
  intros [(code & _ & (Hc & _) & _)|(id & Hchats & _)]%CreateChat_alone;
    [by left|].
  destruct Hchats as [(_ & Hc & _)|(Hnone & -> & Hc & _)]; [by left|by right].
Qed.

Lemma CreateChat_one_chat_per_pair s r db res db' :
  one_chat_per_pair db → Models.CreateChat s r db = (res, db') →
  one_chat_per_pair db'.
Proof.
  intros Hinv [Hc|(Hnone & Hc)]%CreateChat_cases.
  - by apply (one_chat_per_pair_chats db).
  - by eapply one_chat_per_pair_insert.
Qed.

Lemma AddMessage_chats chatID s r text timeStr rm rmid date file isRead db res db' :
  Models.AddMessage chatID s r text timeStr rm rmid date file isRead db = (res, db') →
  chats db' = chats db.
Proof.
  rewrite AddMessage_alone.
  destruct (Utils.SolarToGregorian date); [by intros [= <- <-]|].
  destruct (Models.ChatExists s r db) as [[e|id] db1] eqn:Hex.
  { intros [= <- <-]. by apply ChatExists_err in Hex as (-> & _). }
  apply ChatExists_ok in Hex as ((Hc & _) & _).
  repeat case_match; try (intros [= <- <-]; done).
  intros [(e & _ & (-> & _))|(row & _ & -> & _)]%statement_AddMessage_cases; done.
Qed.

Lemma resolveChat_alone msg db :
  resolveChat msg db
  = match Models.ChatExists (SenderID msg) (ReceiverID msg) db with
    | (inl err, db1) => (inl err, db1)
    | (inr existingChatID, db1) =>
        if existingChatID =? 0
        then Models.CreateChat (SenderID msg) (ReceiverID msg) db1
        else (inr existingChatID, db1)
    end.
Proof.
  unfold resolveChat. rewrite alone_bind.
  destruct (Models.ChatExists _ _ db) as [[e|id] db1]; [done|].
  cbn [fst snd]. by destruct (id =? 0).
Qed.

Lemma resolveChat_one_chat_per_pair msg db res db' :
  one_chat_per_pair db → resolveChat msg db = (res, db') → one_chat_per_pair db'.
Proof.
  intros Hinv. rewrite resolveChat_alone.
  destruct (Models.ChatExists _ _ db) as [[e|id] db1] eqn:Hex.
  { intros [= <- <-]. apply ChatExists_err in Hex as (Hc & _).
    by apply (one_chat_per_pair_chats db). }
  apply ChatExists_ok in Hex as ((Hc & _) & _).
  assert (one_chat_per_pair db1) as Hinv1 by by apply (one_chat_per_pair_chats db).
  destruct (id =? 0).
  - by apply CreateChat_one_chat_per_pair.
  - by intros [= <- <-].
Qed.

Lemma readPump_frame_one_chat_per_pair c c_ID message db effs db' :
  one_chat_per_pair db → readPump_frame c c_ID message db = (effs, db') →
  one_chat_per_pair db'.
Proof.
  intros Hinv. rewrite readPump_frame_alone.
  destruct (json_Unmarshal message) as [msg|]; [|by intros [= <- <-]].
  destruct (negb _); [by intros [= <- <-]|].
  destruct (resolveChat msg db) as [[e|chat] db1] eqn:Hres.
  { intros [= <- <-]. by eapply resolveChat_one_chat_per_pair. }
  apply resolveChat_one_chat_per_pair in Hres; [|done].
  destruct (saveMessage _ db1) as [res db2] eqn:Hs.
  unfold saveMessage in Hs. apply AddMessage_chats in Hs.
  assert (one_chat_per_pair db2) by by apply (one_chat_per_pair_chats db1).
  by destruct res as [e|[]]; intros [= <- <-].
Qed.

(** *** A healthy store: the calls as functions of the tables *)

Lemma CreateChat_healthy_new s r db :
  faults db = [] → pool db = [] → select_chat_ids s r db = [] →
  Models.CreateChat s r db
  = (inr (chats_auto_increment db),
     set_session_chat_id 0%nat (chats_auto_increment db)
       (insert_chat (mkChatRow (chats_auto_increment db) s r) db)).
Proof.
  intros Hf Hp Hnone. unfold Models.CreateChat.
  rewrite alone_bind, statement_on_healthy, Schema_CreateChat_alone by done.
  rewrite Hnone. cbn [head fst snd]. rewrite alone_bind.
  rewrite statement_on_healthy by done. rewrite alone_sql. cbn [fst snd].
  cbn [session_chat_id set_session_chat_id]. by rewrite lookup_insert_eq.
Qed.

Lemma CreateChat_healthy_existing s r db id rest :
  faults db = [] → pool db = [] → select_chat_ids s r db = id :: rest →
  Models.CreateChat s r db = (inr id, set_session_chat_id 0%nat id db).
Proof.
  intros Hf Hp Hsome. unfold Models.CreateChat.
  rewrite alone_bind, statement_on_healthy, Schema_CreateChat_alone by done.
  rewrite Hsome. cbn [head fst snd]. rewrite alone_bind.
  rewrite statement_on_healthy by done. rewrite alone_sql. cbn [fst snd].
  cbn [session_chat_id set_session_chat_id]. by rewrite lookup_insert_eq.
Qed.

Lemma AddMessage_healthy chatID s r text timeStr rm rmid date file isRead db g id rest :
  faults db = [] →
  Utils.SolarToGregorian date = inr g →
  select_chat_ids s r db = id :: rest → id ≠ 0 →
  chatID = 0 ∨ chatID = id →
  rmid = None →
  Models.AddMessage chatID s r text timeStr rm rmid date file isRead db
  = (inr (),
     insert_message
       (mkMessageRow (messages_auto_increment db) id s r text timeStr
          (NULLIF (Some rm) ""%string) None (Format_2006_01_02 g)
          (URL <$> file) isRead) db).
Proof.
  intros Hf Hconv Hsel Hid Hchat ->. rewrite AddMessage_alone.
  rewrite Hconv, ChatExists_healthy, Hsel by done.
  change (default 0 (head (id :: rest))) with id.
  destruct (Z.eqb_spec id 0); [done|].
  assert (negb (chatID =? 0) && negb (chatID =? id) = false) as ->.
  { destruct Hchat as [->| ->]; [done|]. rewrite Z.eqb_refl. apply andb_false_r. }
  rewrite statement_healthy by done. unfold Schema.AddMessage.
  rewrite (select_chat_ids_exists s r id db); [done|].
  rewrite Hsel. apply list_elem_of_here.
Qed.

(** A frame from its authenticated sender, with a date that converts and no
    reply reference, on a healthy store served by one connection and with no
    other session at work: the chat of the pair is found or created, the
    message is stored under it and the frame is broadcast. *)
Lemma readPump_frame_healthy c message msg g db :
  json_Unmarshal message = Some msg →
  Utils.SolarToGregorian (Date msg) = inr g →
  RepliedMessageID msg = None →
  faults db = [] → pool db = [] → 0 < chats_auto_increment db →
  (∀ id, id ∈ select_chat_ids (SenderID msg) (ReceiverID msg) db → id ≠ 0) →
  ∃ db1 row,
    readPump_frame c (SenderID msg) message db = ([HubSend (Broadcast message)], db1)
    ∧ faults db1 = [] ∧ pool db1 = [] ∧ 0 < chats_auto_increment db1
    ∧ messages db1 = messages db ++ [row]
    ∧ match select_chat_ids (SenderID msg) (ReceiverID msg) db with
      | [] =>
          chats db1 = chats db ++ [mkChatRow (chats_auto_increment db)
                                     (SenderID msg) (ReceiverID msg)]
          ∧ msg_chat_id row = chats_auto_increment db
      | id :: _ => chats db1 = chats db ∧ msg_chat_id row = id
      end.
Proof.
  intros Hdec Hconv Hrep Hf Hp Hauto Hids.
  rewrite readPump_frame_alone, Hdec, Z.eqb_refl. cbn [negb].
  rewrite resolveChat_alone. unfold saveMessage.
  rewrite ChatExists_healthy by done.
  destruct (select_chat_ids (SenderID msg) (ReceiverID msg) db) as [|id rest] eqn:Hsel.
  - change (default 0 (head [])) with 0. rewrite Z.eqb_refl.
    rewrite CreateChat_healthy_new by done.
    set (auto := chats_auto_increment db).
    set (db0 := set_session_chat_id _ _ _).
    erewrite (AddMessage_healthy auto _ _ _ _ _ _ _ _ _ db0 g auto []);
      [|done|done| |subst auto; lia|by right|done].
    + eexists _, _. split; [done|]. simpl. repeat split; try done. subst auto. lia.
    + unfold db0. rewrite (select_chat_ids_chats _ _ (insert_chat _ db)) by done.
      cbn [SenderID ReceiverID set_ChatID].
      rewrite select_chat_ids_insert, Hsel. simpl.
      unfold pair_where. simpl. by rewrite !Z.eqb_refl.
  - change (default 0 (head (id :: rest))) with id.
    assert (id ≠ 0) as Hid by (apply Hids, list_elem_of_here).
    destruct (Z.eqb_spec id 0); [done|].
    erewrite (AddMessage_healthy id _ _ _ _ _ _ _ _ _ db g id rest);
      [|done|done|done|done|by right|done].
    eexists _, _. split; [done|]. simpl. by repeat split.
Qed.

(** X19. One chat per unordered pair, for calls that run one after the
    other.
    (1) [ChatExists] gives the same answer for (a, b) and (b, a), and finds a
    chat stored in either order.  (2) [CreateChat], running alone, for a pair
    that has a chat inserts nothing; on a healthy store whose calls are served
    on one connection it answers with the id of that chat.  (3) No pass of the
    read loop and no call of [CreateChat] that runs alone, from its first
    statement to its last, breaks "at most one row per unordered pair".
    (4) On a healthy store served on one connection where A and B have no
    chat, a first message from A to B that is followed, after its pass has
    ended, by a first message from B to A leaves exactly one new chat row, and
    both message rows carry its id.  Nothing here covers two passes whose
    statements interleave. *)
Theorem one_chat_per_pair_when_alone :
  (∀ a b db, Models.ChatExists a b db = Models.ChatExists b a db)
  ∧ (∀ a b db row,
       row ∈ chats db → chat_sender_id row = a → chat_receiver_id row = b →
       faults db = [] →
       ∃ id, Models.ChatExists a b db = (inr id, db)
             ∧ Models.ChatExists b a db = (inr id, db)
             ∧ id ∈ select_chat_ids a b db)
  ∧ (∀ a b db id rest,
       select_chat_ids a b db = id :: rest →
       (∀ res db', Models.CreateChat a b db = (res, db') → chats db' = chats db)
       ∧ (faults db = [] → pool db = [] →
          ∃ db', Models.CreateChat a b db = (inr id, db') ∧ chats db' = chats db))
  ∧ (∀ db, one_chat_per_pair db →
       (∀ a b res db', Models.CreateChat a b db = (res, db') → one_chat_per_pair db')
       ∧ (∀ c c_ID message effs db',
            readPump_frame c c_ID message db = (effs, db') → one_chat_per_pair db'))
  ∧ (∀ cA cB mA mB msgA msgB gA gB db,
       json_Unmarshal mA = Some msgA → json_Unmarshal mB = Some msgB →
       SenderID msgB = ReceiverID msgA → ReceiverID msgB = SenderID msgA →
       Utils.SolarToGregorian (Date msgA) = inr gA →
       Utils.SolarToGregorian (Date msgB) = inr gB →
       RepliedMessageID msgA = None → RepliedMessageID msgB = None →
       faults db = [] → pool db = [] → 0 < chats_auto_increment db →
       select_chat_ids (SenderID msgA) (ReceiverID msgA) db = [] →
       ∃ db1 db2 rowA rowB,
         readPump_frame cA (SenderID msgA) mA db = ([HubSend (Broadcast mA)], db1)
         ∧ readPump_frame cB (SenderID msgB) mB db1 = ([HubSend (Broadcast mB)], db2)
         ∧ chats db2 = chats db ++ [mkChatRow (chats_auto_increment db)
                                      (SenderID msgA) (ReceiverID msgA)]
         ∧ messages db2 = messages db ++ [rowA; rowB]
         ∧ msg_chat_id rowA = chats_auto_increment db
         ∧ msg_chat_id rowB = chats_auto_increment db).
Proof.
  assert (∀ a b db, Models.ChatExists a b db = Models.ChatExists b a db) as Hsym.
  { intros a b db. unfold Models.ChatExists, statement, sql. simpl.
    destruct (faults db) as [|[code|] rest]; simpl;
      by rewrite ?(select_chat_ids_sym a b). }
  split; [done|]. split; [|split; [|split]].
  - intros a b db row Hin Ha Hb Hf.
    assert (chat_id row ∈ select_chat_ids a b db) as Hsel.
    { unfold select_chat_ids. apply list_elem_of_fmap. exists row. split; [done|].
      apply list_elem_of_In, List.filter_In. split; [by apply list_elem_of_In|].
      unfold pair_where. by rewrite Ha, Hb, !Z.eqb_refl. }
    rewrite <- (Hsym a b), ChatExists_healthy by done.
    destruct (select_chat_ids a b db) as [|id rest] eqn:Hl;
      [by apply elem_of_nil in Hsel|].
    exists id. simpl. repeat split. apply list_elem_of_here.
  - intros a b db id rest Hsel. split.
    + intros res db' [Hc|(Hnone & _)]%CreateChat_cases; [done|congruence].
    + intros Hf Hp. erewrite CreateChat_healthy_existing by done. by eexists.
  - intros db Hinv. split.
    + intros a b res db'. by apply CreateChat_one_chat_per_pair.
    + intros c c_ID message effs db'. by apply readPump_frame_one_chat_per_pair.
  - intros cA cB mA mB msgA msgB gA gB db HdA HdB Hs Hr HgA HgB HrA HrB Hf Hp Hauto Hnone.
    destruct (readPump_frame_healthy cA mA msgA gA db)
      as (db1 & rowA & HfA & Hf1 & Hp1 & Hauto1 & Hm1 & Hc1); try done.
    { intros id. rewrite Hnone. by intros ?%elem_of_nil. }
    rewrite Hnone in Hc1. destruct Hc1 as [Hc1 HidA].
    assert (select_chat_ids (SenderID msgB) (ReceiverID msgB) db1
            = [chats_auto_increment db]) as Hsel.
    { rewrite Hs, Hr, select_chat_ids_sym. unfold select_chat_ids in *.
      rewrite Hc1, List.filter_app, fmap_app, Hnone. simpl.
      unfold pair_where. simpl. by rewrite !Z.eqb_refl. }
    destruct (readPump_frame_healthy cB mB msgB gB db1)
      as (db2 & rowB & HfB & _ & _ & _ & Hm2 & Hc2); try done.
    { intros id. rewrite Hsel. intros ->%list_elem_of_singleton. lia. }
    rewrite Hsel in Hc2. destruct Hc2 as [Hc2 HidB].
    exists db1, db2, rowA, rowB. repeat split; try done.
    + congruence.
    + rewrite Hm2, Hm1, <- app_assoc. done.
Qed.

(** On a healthy store a frame's chat is resolved whenever the calls of the
    pass are served on one connection, or the pair already has a chat (then
    [CreateChat], the one call that needs two statements on the same
    connection, is not made). *)
Lemma resolveChat_healthy msg db :
  faults db = [] →
  pool db = []
  ∨ default 0 (head (select_chat_ids (SenderID msg) (ReceiverID msg) db)) ≠ 0 →
  ∃ chat db1, resolveChat msg db = (inr chat, db1).
Proof.
  intros Hf Hp. rewrite resolveChat_alone, ChatExists_healthy by done.
  cbn [fst snd].
  destruct (default 0 _ =? 0) eqn:Hz; [|by eexists _, _].
  destruct Hp as [Hp|Hp]; [|lia].
  destruct (select_chat_ids (SenderID msg) (ReceiverID msg) db) as [|id rest] eqn:Hsel.
  - rewrite CreateChat_healthy_new by done. by eexists _, _.
  - erewrite CreateChat_healthy_existing by done. by eexists _, _.
Qed.

(** C10. [AddMessage] converts the date before it sends anything to the
    store: when the conversion fails it returns the wrapped error and the
    store it was given, untouched.  A frame that reaches [AddMessage] with
    such a date is therefore answered with the error reply, is not
    broadcast, and adds no message row; on a healthy store every frame from
    its authenticated sender reaches [AddMessage], provided the calls of the
    pass are served on one connection or the pair already has a chat. *)
Theorem malformed_date_is_a_persistence_error
    chatID senderID receiverID text timeStr repliedMessage repliedMessageID
    hijriDate attachedFile isRead db err :
  Utils.SolarToGregorian hijriDate = inl err →
  Models.AddMessage chatID senderID receiverID text timeStr repliedMessage
      repliedMessageID hijriDate attachedFile isRead db
    = (inl (ErrConvertingDate err), db)
  ∧ (∀ c c_ID message msg chat db0 db1,
      json_Unmarshal message = Some msg →
      SenderID msg = c_ID →
      Date msg = hijriDate →
      resolveChat msg db0 = (inr chat, db1) →
      readPump_frame c c_ID message db0
        = ([WriteJSON c (mkErrorReply "Failed to send message" (ErrConvertingDate err))], db1)
      ∧ messages db1 = messages db0)
  ∧ (∀ c c_ID message msg db0,
      json_Unmarshal message = Some msg →
      SenderID msg = c_ID →
      Date msg = hijriDate →
      faults db0 = [] →
      pool db0 = []
      ∨ default 0 (head (select_chat_ids (SenderID msg) (ReceiverID msg) db0)) ≠ 0 →
      ∃ db1,
        readPump_frame c c_ID message db0
          = ([WriteJSON c (mkErrorReply "Failed to send message" (ErrConvertingDate err))], db1)
        ∧ messages db1 = messages db0).
Proof.
  intros Hconv.
  assert (∀ c c_ID message msg chat db0 db1,
      json_Unmarshal message = Some msg →
      SenderID msg = c_ID →
      Date msg = hijriDate →
      resolveChat msg db0 = (inr chat, db1) →
      readPump_frame c c_ID message db0
        = ([WriteJSON c (mkErrorReply "Failed to send message" (ErrConvertingDate err))], db1)
      ∧ messages db1 = messages db0) as Hreach.
  { intros c c_ID message msg chat db0 db1 Hdec Hid Hdate Hres.
    split; [|by eapply resolveChat_messages].
    rewrite readPump_frame_alone, Hdec, Hid, Z.eqb_refl. cbn [negb].
    rewrite Hres. cbn [fst snd].
    unfold saveMessage. rewrite AddMessage_alone. cbn [Date set_ChatID].
    by rewrite Hdate, Hconv. }
  split; [|split; [done|]].
  { by rewrite AddMessage_alone, Hconv. }
  intros c c_ID message msg db0 Hdec Hid Hdate Hf Hp.
  destruct (resolveChat_healthy msg db0 Hf Hp) as (chat & db1 & Hres).
  exists db1. by eapply Hreach.
Qed.

End Store.

(** ** The hub *)

Section Hub.

Lemma closes_app c h1 h2 : closes c (h1 ++ h2) = (closes c h1 + closes c h2)%nat.
Proof. unfold closes. by rewrite List.filter_app, length_app. Qed.

Lemma closes_send c c' m : closes c [OpSend c' m] = 0%nat.
Proof. done. Qed.

Lemma closes_close_eq c : closes c [OpClose c] = 1%nat.
Proof. unfold closes. simpl. by rewrite bool_decide_eq_true_2. Qed.

Lemma closes_close_ne c c' : c' ≠ c → closes c [OpClose c'] = 0%nat.
Proof. intros Hne. unfold closes. simpl. by rewrite bool_decide_eq_false_2. Qed.

Lemma closes_after_close c h1 h2 : (1 ≤ closes c (h1 ++ OpClose c :: h2))%nat.
Proof.
  rewrite closes_app. change (OpClose c :: h2) with ([OpClose c] ++ h2).
  rewrite closes_app, closes_close_eq. lia.
Qed.

(** Appending one operation to a history without a send after close. *)
Lemma send_after_close_snoc c h op :
  send_after_close c (h ++ [op]) →
  send_after_close c h
  ∨ (∃ m, op = OpSend c m ∧ (1 ≤ closes c h)%nat).
Proof.
  intros (h1 & h2 & h3 & m & Heq).
  destruct h3 as [|x h3' _] using rev_ind.
  - right. exists m.
    change (h1 ++ OpClose c :: h2 ++ [OpSend c m])
      with (h1 ++ (OpClose c :: h2) ++ [OpSend c m]) in Heq.
    rewrite app_assoc in Heq. apply app_inj_tail in Heq as [-> ->].
    split; [done|apply closes_after_close].
  - left. exists h1, h2, h3', m.
    assert (h1 ++ OpClose c :: h2 ++ OpSend c m :: h3' ++ [x]
            = (h1 ++ OpClose c :: h2 ++ OpSend c m :: h3') ++ [x]) as Hassoc.
    { rewrite <- app_assoc. simpl. by rewrite <- app_assoc. }
    rewrite Hassoc in Heq. by apply app_inj_tail in Heq as [-> _].
Qed.

(** *** The two outcomes of a send attempt *)

Lemma broadcast_client_cases message c st cl :
  heap st !! c = Some cl → closed (send cl) = false →
  (has_room cl ∧ broadcast_client message c st = Ok (enqueued c cl message st))
  ∨ (¬ has_room cl ∧ broadcast_client message c st = Ok (dropped c cl st)).
Proof.
  intros Hcl Hopen. unfold broadcast_client, try_send, close_send, has_room.
  rewrite Hcl, Hopen. case_bool_decide; [by left|by right].
Qed.

Lemma unregister_registered c st cl :
  c ∈ Clients st → heap st !! c = Some cl → closed (send cl) = false →
  Run_step (Unregister c) st = Ok (dropped c cl st).
Proof.
  intros Hin Hcl Hopen. simpl. rewrite bool_decide_eq_true_2 by done.
  unfold close_send. simpl. by rewrite Hcl, Hopen.
Qed.

Lemma chan_open_enqueued c cl message st c' :
  heap st !! c = Some cl → closed (send cl) = false →
  chan_open (enqueued c cl message st) c' ↔ chan_open st c'.
Proof.
  intros Hcl Hopen. unfold chan_open. simpl.
  destruct (decide (c' = c)) as [->|Hne].
  - rewrite lookup_insert_eq. split; intros _; eauto.
  - by rewrite lookup_insert_ne.
Qed.

Lemma chan_open_dropped c cl st c' :
  chan_open (dropped c cl st) c' ↔ c' ≠ c ∧ chan_open st c'.
Proof.
  unfold chan_open. simpl. destruct (decide (c' = c)) as [->|Hne].
  - rewrite lookup_insert_eq. split; [intros (cl' & [= <-] & Hcl'); done|].
    by intros [? _].
  - rewrite lookup_insert_ne by done. split; [by intros ?|by intros [_ ?]].
Qed.

Lemma hub_inv_enqueued c cl message st :
  hub_inv st → heap st !! c = Some cl → closed (send cl) = false →
  hub_inv (enqueued c cl message st).
Proof.
  intros (Hreg & Hzero & Hone & Hsafe) Hcl Hopen.
  split; [|split; [|split]].
  - intros c' Hin. apply chan_open_enqueued; [done..|]. by apply Hreg.
  - intros c' Hc'%chan_open_enqueued; [|done..]. simpl.
    rewrite closes_app, closes_send, Nat.add_0_r. by apply Hzero.
  - intros c'. simpl. rewrite closes_app, closes_send, Nat.add_0_r. apply Hone.
  - intros c'. simpl. intros [Hbad|(m & Heq & Hcl')]%send_after_close_snoc.
    + by apply (Hsafe c').
    + injection Heq as Hcc _. subst c'.
      rewrite (Hzero c) in Hcl'; [lia|]. by exists cl.
Qed.

Lemma evolves_enqueued c cl message st :
  c ∈ Clients st → evolves st (enqueued c cl message st).
Proof.
  intros Hin. split; [|split; [|split]]; simpl.
  - intros c' Hout. rewrite lookup_insert_ne; [done|]. by intros ->.
  - done.
  - by left.
  - intros c'. rewrite closes_app. lia.
Qed.

Lemma hub_inv_dropped c cl st :
  hub_inv st → heap st !! c = Some cl → closed (send cl) = false →
  hub_inv (dropped c cl st).
Proof.
  intros (Hreg & Hzero & Hone & Hsafe) Hcl Hopen.
  assert (closes c (history st) = 0%nat) as Hc0 by (apply Hzero; by exists cl).
  split; [|split; [|split]].
  - intros c' Hin. simpl in Hin. apply elem_of_difference in Hin as [Hin Hne].
    apply chan_open_dropped. split; [set_solver|]. by apply Hreg.
  - intros c' [Hne Hc']%chan_open_dropped. simpl.
    rewrite closes_app, closes_close_ne by done. rewrite Nat.add_0_r. by apply Hzero.
  - intros c'. simpl. rewrite closes_app. destruct (decide (c' = c)) as [->|Hne].
    + rewrite closes_close_eq. lia.
    + rewrite closes_close_ne by done. specialize (Hone c'). lia.
  - intros c'. simpl. intros [Hbad|(m & [=] & _)]%send_after_close_snoc.
    by apply (Hsafe c').
Qed.

Lemma evolves_dropped c cl st :
  hub_inv st → c ∈ Clients st → heap st !! c = Some cl → closed (send cl) = false →
  evolves st (dropped c cl st).
Proof.
  intros (_ & Hzero & _) Hin Hcl Hopen. split; [|split; [|split]]; simpl.
  - intros c' Hout. rewrite lookup_insert_ne; [done|]. by intros ->.
  - by intros c' [? _]%elem_of_difference.
  - intros c' Hin'. destruct (decide (c' = c)) as [->|Hne]; [right|left; set_solver].
    rewrite closes_app, closes_close_eq, (Hzero c); [done|]. by exists cl.
  - intros c'. rewrite closes_app. lia.
Qed.

Lemma evolves_refl st : evolves st st.
Proof. split; [|split; [|split]]; auto. Qed.

Lemma evolves_trans st1 st2 st3 :
  hub_inv st3 → evolves st1 st2 → evolves st2 st3 → evolves st1 st3.
Proof.
  intros (_ & _ & Hone & _) (Hh1 & Hc1 & Hl1 & Hm1) (Hh2 & Hc2 & Hl2 & Hm2).
  split; [|split; [|split]].
  - intros c Hout. rewrite Hh2; [by apply Hh1|]. intros Hin. by apply Hout, Hc1.
  - intros c Hin. by apply Hc1, Hc2.
  - intros c Hin. destruct (Hl1 c Hin) as [Hin2|Hcl]; [by apply Hl2|].
    right. specialize (Hm2 c). specialize (Hone c). lia.
  - intros c. specialize (Hm1 c). specialize (Hm2 c). lia.
Qed.

(** *** The broadcast loop *)

(** The loop over any duplicate-free selection of registered clients. *)
Lemma broadcast_range_pointwise order message : ∀ st,
  NoDup order →
  (∀ c, c ∈ order → c ∈ Clients st ∧ chan_open st c) →
  ∃ st', broadcast_range order message st = Ok st'
    ∧ (∀ c, c ∉ order →
         heap st' !! c = heap st !! c ∧ (c ∈ Clients st' ↔ c ∈ Clients st))
    ∧ (∀ c cl, c ∈ order → heap st !! c = Some cl →
         (has_room cl →
            c ∈ Clients st'
            ∧ heap st' !! c
              = Some (with_send (mkChan (buf (send cl) ++ [message]) false) cl))
         ∧ (¬ has_room cl →
            (c ∉ Clients st')
            ∧ heap st' !! c = Some (with_send (mkChan (buf (send cl)) true) cl))).
Proof.
  induction order as [|c rest IH]; intros st Hnd Hall.
  { exists st. split; [done|]. split; [done|]. by intros c cl ?%elem_of_nil. }
  apply NoDup_cons in Hnd as [Hfresh Hnd].
  destruct (Hall c) as (Hin & cl & Hcl & Hopen); [apply list_elem_of_here|].
  (* the state after the pass for [c]: only [c] is touched *)
  assert (∃ st1, broadcast_client message c st = Ok st1
    ∧ (∀ c', c' ≠ c →
         heap st1 !! c' = heap st !! c' ∧ (c' ∈ Clients st1 ↔ c' ∈ Clients st))
    ∧ (has_room cl →
         c ∈ Clients st1
         ∧ heap st1 !! c = Some (with_send (mkChan (buf (send cl) ++ [message]) false) cl))
    ∧ (¬ has_room cl →
         (c ∉ Clients st1)
         ∧ heap st1 !! c = Some (with_send (mkChan (buf (send cl)) true) cl)))
    as (st1 & Hstep & Hother & Hroom & Hfull).
  { destruct (broadcast_client_cases message c st cl Hcl Hopen) as [[Hr ->]|[Hr ->]];
      eexists; (split; [done|]); simpl.
    - split; [|split]; [| |done].
      + intros c' Hne. by rewrite lookup_insert_ne.
      + intros _. by rewrite lookup_insert_eq.
    - split; [|split]; [|done|].
      + intros c' Hne. rewrite lookup_insert_ne by done. split; [done|].
        rewrite elem_of_difference, elem_of_singleton.
        split; [by intros [? _]|by intros ?].
      + intros _. rewrite lookup_insert_eq. split; [|done].
        rewrite elem_of_difference, elem_of_singleton. by intros [_ ?]. }
  destruct (IH st1 Hnd) as (st' & Hrun & Hout & Hin').
  { intros c' Hc'. assert (c' ≠ c) as Hne by (intros ->; done).
    destruct (Hall c') as [Hreg (cl' & Hcl' & Hopen')]; [by apply list_elem_of_further|].
    destruct (Hother c' Hne) as [Hheap Hmem]. split; [by apply Hmem|].
    exists cl'. by rewrite Hheap. }
  exists st'. simpl. rewrite Hstep. split; [done|]. split.
  - intros c' Hc'. apply not_elem_of_cons in Hc' as [Hne Hrest].
    destruct (Hout c' Hrest) as [-> ->]. by apply Hother.
  - intros c' cl' Hc' Hcl'. apply elem_of_cons in Hc' as [->|Hrest].
    + destruct (Hout c Hfresh) as [Hheap Hmem]. rewrite Hheap, Hmem.
      rewrite Hcl in Hcl'. injection Hcl' as <-. done.
    + assert (c' ≠ c) as Hne by (intros ->; done).
      apply Hin'; [done|]. destruct (Hother c' Hne) as [-> _]. done.
Qed.

(** The same loop keeps the invariant of the hub. *)
Lemma broadcast_range_inv order message : ∀ st,
  hub_inv st → NoDup order → (∀ c, c ∈ order → c ∈ Clients st) →
  ∃ st', broadcast_range order message st = Ok st' ∧ hub_inv st' ∧ evolves st st'.
Proof.
  induction order as [|c rest IH]; intros st Hinv Hnd Hall.
  { exists st. split; [done|]. split; [done|apply evolves_refl]. }
  apply NoDup_cons in Hnd as [Hfresh Hnd].
  assert (c ∈ Clients st) as Hin by apply Hall, list_elem_of_here.
  destruct Hinv as (Hreg & Hrest).
  destruct (Hreg c Hin) as (cl & Hcl & Hopen).
  assert (hub_inv st) as Hinv by done.
  assert (∃ st1, broadcast_client message c st = Ok st1 ∧ hub_inv st1 ∧ evolves st st1
            ∧ ∀ c', c' ≠ c → c' ∈ Clients st → c' ∈ Clients st1)
    as (st1 & Hstep & Hinv1 & Hev1 & Hkeep).
  { destruct (broadcast_client_cases message c st cl Hcl Hopen) as [[_ ->]|[_ ->]];
      eexists; (split; [done|]).
    - split; [by apply hub_inv_enqueued|]. split; [by apply evolves_enqueued|done].
    - split; [by apply hub_inv_dropped|]. split; [by apply evolves_dropped|].
      intros c' Hne Hc'. simpl. rewrite elem_of_difference, elem_of_singleton. done. }
  destruct (IH st1 Hinv1 Hnd) as (st' & Hrun & Hinv' & Hev').
  { intros c' Hc'. apply Hkeep; [by intros ->|]. by apply Hall, list_elem_of_further. }
  exists st'. simpl. rewrite Hstep. split; [done|]. split; [done|].
  by eapply evolves_trans.
Qed.

(** C1. A broadcast always completes, whatever order the iteration over the
    registry takes ([Hub.Run] uses the order of [range h.Clients]): started
    with every registered client's channel open, it returns a state in which
    each registered client with room in its channel has the payload queued
    last and is still registered, each registered client whose channel is
    full has its channel closed and has left the registry, and the clients
    that were not registered are untouched. *)
Theorem broadcast_drops_only_full_recipients message st order :
  registry_open st →
  order ≡ₚ elements (Clients st) →
  Run_step (Broadcast message) st
    = broadcast_range (elements (Clients st)) message st
  ∧ ∃ st', broadcast_range order message st = Ok st'
      ∧ ∀ c cl, heap st !! c = Some cl →
          (c ∈ Clients st → has_room cl →
             c ∈ Clients st'
             ∧ heap st' !! c
               = Some (with_send (mkChan (buf (send cl) ++ [message]) false) cl))
          ∧ (c ∈ Clients st → ¬ has_room cl →
             (c ∉ Clients st')
             ∧ heap st' !! c = Some (with_send (mkChan (buf (send cl)) true) cl))
          ∧ (c ∉ Clients st → (c ∉ Clients st') ∧ heap st' !! c = Some cl).
Proof.
  intros Hreg Hperm. split; [done|].
  assert (∀ c, c ∈ order ↔ c ∈ Clients st) as Hmem.
  { intros c. rewrite Hperm. apply elem_of_elements. }
  destruct (broadcast_range_pointwise order message st) as (st' & Hrun & Hout & Hin).
  { rewrite Hperm. apply NoDup_elements. }
  { intros c Hc%Hmem. split; [done|by apply Hreg]. }
  exists st'. split; [done|]. intros c cl Hcl. split; [|split].
  - intros Hc%Hmem Hroom. by apply (Hin c cl).
  - intros Hc%Hmem Hfull. by apply (Hin c cl).
  - intros Hc. assert (c ∉ order) as Hc' by by rewrite Hmem.
    destruct (Hout c Hc') as [-> Hiff]. split; [by rewrite Hiff|done].
Qed.

(** *** Sequences of events *)

Lemma hub_inv_NewHub objects : hub_inv (NewHub objects).
Proof.
  split; [|split; [|split]]; simpl.
  - by intros c ?%elem_of_empty.
  - done.
  - intros c. unfold closes. simpl. lia.
  - intros c (h1 & h2 & h3 & m & Heq). by destruct h1.
Qed.

(** A step that adds no client keeps the clients still to be registered
    fresh, and the clients registered so far either in the registry or
    closed once. *)
Lemma evolves_carry st st1 (pending past : list positive) :
  hub_inv st1 → evolves st st1 →
  (∀ c, c ∈ pending → (c ∉ Clients st) ∧ chan_open st c) →
  (∀ c, c ∈ past → c ∈ Clients st ∨ closes c (history st) = 1%nat) →
  (∀ c, c ∈ pending → (c ∉ Clients st1) ∧ chan_open st1 c)
  ∧ (∀ c, c ∈ past → c ∈ Clients st1 ∨ closes c (history st1) = 1%nat).
Proof.
  intros (_ & _ & Hone & _) (Hheap & Hsub & Hleft & Hmono) Hpending Hpast. split.
  - intros c [Hout Hopen]%Hpending. split; [by intros ?%Hsub|].
    unfold chan_open. by rewrite Hheap.
  - intros c [Hin|Hcl]%Hpast; [by apply Hleft|].
    right. specialize (Hone c). specialize (Hmono c). lia.
Qed.

Lemma Run_safe events : ∀ st (past : list positive),
  hub_inv st →
  NoDup (registrations events) →
  (∀ c, c ∈ registrations events → (c ∉ Clients st) ∧ chan_open st c) →
  (∀ c, c ∈ past → c ∈ Clients st ∨ closes c (history st) = 1%nat) →
  ∃ st', Run events st = Ok st' ∧ hub_inv st'
    ∧ ∀ c, c ∈ past ++ registrations events →
        c ∈ Clients st' ∨ closes c (history st') = 1%nat.
Proof.
  induction events as [|e events IH]; intros st past Hinv Hnd Hpending Hpast.
  { exists st. simpl. rewrite app_nil_r. done. }
  destruct e as [c|c|message]; simpl in *.
  - (* Register *)
    apply NoDup_cons in Hnd as [Hfresh Hnd].
    destruct (Hpending c) as [Hout Hopen]; [apply list_elem_of_here|].
    destruct Hinv as (Hreg & Hzero & Hone & Hsafe).
    destruct (IH (add_client c st) (past ++ [c])) as (st' & Hrun & Hinv' & Hall).
    + split; [|done]. intros c' [Heq%elem_of_singleton|Hin]%elem_of_union; [by subst c'|].
      destruct (Hreg c' Hin) as (cl & ? & ?). by exists cl.
    + done.
    + intros c' Hc'. simpl. destruct (Hpending c') as [Hout' Hopen'];
        [by apply list_elem_of_further|].
      split; [|done]. rewrite elem_of_union, elem_of_singleton.
      intros [->|?]; done.
    + intros c' [Hc'|Heq%list_elem_of_singleton]%elem_of_app; [|subst c']; simpl.
      * destruct (Hpast c' Hc') as [?|?]; [left|by right].
        apply elem_of_union. by right.
      * left. apply elem_of_union. left. by apply elem_of_singleton.
    + exists st'. split; [done|]. split; [done|].
      intros c' Hc'. apply Hall. by rewrite <- app_assoc.
  - (* Unregister *)
    assert (∃ st1, Run_step (Unregister c) st = Ok st1 ∧ hub_inv st1 ∧ evolves st st1)
      as (st1 & Hstep & Hinv1 & Hev1).
    { destruct (decide (c ∈ Clients st)) as [Hin|Hout].
      - destruct Hinv as (Hreg & Hrest). destruct (Hreg c Hin) as (cl & Hcl & Hopen).
        exists (dropped c cl st). split; [by apply unregister_registered|].
        split; [by apply hub_inv_dropped|by apply evolves_dropped].
      - exists st. simpl. rewrite bool_decide_eq_false_2 by done.
        split; [done|]. split; [done|apply evolves_refl]. }
    simpl in Hstep. rewrite Hstep.
    destruct (evolves_carry st st1 (registrations events) past) as [Hp1 Hp2]; try done.
    by apply IH.
  - (* Broadcast *)
    destruct (broadcast_range_inv (elements (Clients st)) message st)
      as (st1 & Hstep & Hinv1 & Hev1); [done|apply NoDup_elements| |].
    { intros c. by rewrite elem_of_elements. }
    rewrite Hstep.
    destruct (evolves_carry st st1 (registrations events) past) as [Hp1 Hp2]; try done.
    by apply IH.
Qed.

(** Along any sequence of events that registers each client at most once,
    with its channel open (what [ServeWs] does), the loop never stops on a
    run-time error, no channel is closed twice, nothing is queued on a
    channel after its close, a registered client's channel has not been
    closed, and a client that was registered and has left the registry had
    its channel closed exactly once. *)
Lemma Run_closes_once objects events :
  NoDup (registrations events) →
  (∀ c, c ∈ registrations events →
     ∃ cl, objects !! c = Some cl ∧ closed (send cl) = false) →
  ∃ st, Run events (NewHub objects) = Ok st
    ∧ ∀ c, (closes c (history st) ≤ 1)%nat
        ∧ ¬ send_after_close c (history st)
        ∧ (c ∈ Clients st → closes c (history st) = 0%nat)
        ∧ (c ∈ registrations events → c ∉ Clients st →
           closes c (history st) = 1%nat).
Proof.
  intros Hnd Hfresh.
  destruct (Run_safe events (NewHub objects) []) as (st & Hrun & Hinv & Hall).
  - apply hub_inv_NewHub.
  - done.
  - intros c Hc. split; [by intros ?%elem_of_empty|]. by apply Hfresh.
  - by intros c ?%elem_of_nil.
  - exists st. split; [done|]. destruct Hinv as (Hreg & Hzero & Hone & Hsafe).
    intros c. split; [done|]. split; [done|]. split.
    + intros Hin. by apply Hzero, Hreg.
    + intros Hc Hout. by destruct (Hall c Hc).
Qed.

(** The precondition of C1 holds in every state the loop reaches when each
    client is registered once, with its channel open. *)
Lemma reachable_registry_open objects events st :
  NoDup (registrations events) →
  (∀ c, c ∈ registrations events →
     ∃ cl, objects !! c = Some cl ∧ closed (send cl) = false) →
  Run events (NewHub objects) = Ok st →
  registry_open st.
Proof.
  intros Hnd Hfresh Hrun.
  destruct (Run_safe events (NewHub objects) []) as (st' & Hrun' & (Hreg & _) & _).
  - apply hub_inv_NewHub.
  - done.
  - intros c Hc. split; [by intros ?%elem_of_empty|]. by apply Hfresh.
  - by intros c ?%elem_of_nil.
  - rewrite Hrun in Hrun'. by injection Hrun' as ->.
Qed.

End Hub.

(** ** Shutdown *)

Section Shutdown.

Lemma closed_socket_twice cl : closed_socket (closed_socket cl) = closed_socket cl.
Proof. done. Qed.

Lemma shutdown_range_spec order : ∀ st,
  (∀ c, c ∈ order → is_Some (heap st !! c)) →
  ∃ st', Main.shutdown_range order st = Ok st'
    ∧ Clients st' = Clients st
    ∧ history st' = history st
    ∧ (∀ c, c ∉ order → heap st' !! c = heap st !! c)
    ∧ (∀ c cl, c ∈ order → heap st !! c = Some cl →
         heap st' !! c = Some (closed_socket cl)).
Proof.
  induction order as [|c rest IH]; intros st Hall.
  { exists st. repeat split; try done. by intros c cl ?%elem_of_nil. }
  destruct (Hall c) as [cl Hcl]; [apply list_elem_of_here|].
  simpl. unfold conn_close. rewrite Hcl.
  set (st1 := mkState _ _ _).
  destruct (IH st1) as (st' & Hrun & Hreg & Hhist & Hout & Hin).
  { intros c' Hc'. unfold st1. simpl. destruct (decide (c' = c)) as [->|Hne].
    - rewrite lookup_insert_eq. by eexists.
    - rewrite lookup_insert_ne by done. by apply Hall, list_elem_of_further. }
  exists st'. split; [done|]. split; [done|]. split; [done|]. split.
  - intros c' [Hne Hrest]%not_elem_of_cons. rewrite Hout by done.
    unfold st1. simpl. by rewrite lookup_insert_ne.
  - intros c' cl' Hc' Hcl'. destruct (decide (c' ∈ rest)) as [Hrest|Hrest].
    + destruct (decide (c' = c)) as [->|Hne].
      * rewrite Hcl in Hcl'. injection Hcl' as <-.
        rewrite (Hin c (closed_socket cl)); [done|done|].
        unfold st1. simpl. by rewrite lookup_insert_eq.
      * apply Hin; [done|]. unfold st1. simpl. by rewrite lookup_insert_ne.
    + apply elem_of_cons in Hc' as [->|?]; [|done].
      rewrite Hcl in Hcl'. injection Hcl' as <-.
      rewrite Hout by done. unfold st1. simpl. by rewrite lookup_insert_eq.
Qed.

(** C8 (as amended). The shutdown loop of [main] closes the socket of every
    client in the registry and does nothing else: the registry keeps the same
    clients, no [send] channel is closed or written, and the clients outside
    the registry are untouched. *)
Theorem shutdown_closes_every_registered_socket st :
  (∀ c, c ∈ Clients st → is_Some (heap st !! c)) →
  ∃ st', Main.shutdown st = Ok st'
    ∧ Clients st' = Clients st
    ∧ history st' = history st
    ∧ (∀ c cl, heap st !! c = Some cl →
         ∃ cl', heap st' !! c = Some cl'
           ∧ send cl' = send cl ∧ ID cl' = ID cl
           ∧ sock_written (Conn cl') = sock_written (Conn cl)
           ∧ (c ∈ Clients st → sock_closed (Conn cl') = true)
           ∧ (c ∉ Clients st → cl' = cl)).
Proof.
  intros Hall. unfold Main.shutdown.
  destruct (shutdown_range_spec (elements (Clients st)) st)
    as (st' & Hrun & Hreg & Hhist & Hout & Hin).
  { intros c Hc%elem_of_elements. by apply Hall. }
  exists st'. split; [done|]. split; [done|]. split; [done|].
  intros c cl Hcl. destruct (decide (c ∈ Clients st)) as [Hc|Hc].
  - exists (closed_socket cl). split; [|by repeat split].
    apply Hin; [by apply elem_of_elements|done].
  - exists cl. split; [|by repeat split].
    rewrite Hout; [done|]. by rewrite elem_of_elements.
Qed.

(** What follows a closed socket, when the process lives long enough: the
    next read of the client's pump fails, the pump asks the hub to
    unregister the client and closes the socket; once the hub has handled
    the request the client is out of the registry and its channel is closed. *)
Lemma read_error_unregisters `{External} c c_ID rest db st cl :
  c ∈ Clients st → heap st !! c = Some cl → closed (send cl) = false →
  readPump c c_ID (ReadError :: rest) db = ([HubSend (Unregister c); ConnClose c], db)
  ∧ ∃ st', perform_all (readPump c c_ID (ReadError :: rest) db).1 st = Ok st'
      ∧ (c ∉ Clients st')
      ∧ heap st' !! c
        = Some (mkClient (mkSocket true (sock_written (Conn cl)))
                  (mkChan (buf (send cl)) true) (ID cl)).
Proof.
  intros Hin Hcl Hopen. split; [done|].
  simpl. rewrite bool_decide_eq_true_2 by done.
  unfold close_send, conn_close. simpl. rewrite Hcl, Hopen. simpl.
  rewrite lookup_insert_eq. eexists. split; [done|]. simpl. split.
  - rewrite elem_of_difference, elem_of_singleton. by intros [_ ?].
  - by rewrite insert_insert_eq, lookup_insert_eq.
Qed.

End Shutdown.

(** ** The statements on the sample data *)

Import Sample.

Example parseSolarDate_trims : Utils.parseSolarDate " 1403-05-01 " = inr (1403, 5, 1).
Proof. reflexivity. Qed.

Example parseSolarDate_slashes : Utils.parseSolarDate "1403/05/01" = inl ErrDateFormat.
Proof. reflexivity. Qed.

Example parseSolarDate_month : Utils.parseSolarDate "1403-13-01" = inl (ErrInvalidMonth "13").
Proof. reflexivity. Qed.

Example parseSolarDate_day : Utils.parseSolarDate "1403-12-3x" = inl (ErrInvalidDay "3x").
Proof. reflexivity. Qed.

Example readPump_stream :
  readPump 1%positive 10
    [ReadFrame frame_20_10; ReadFrame frame_garbage; ReadFrame frame_10_20; ReadError]
    empty_db
  = ([HubSend (Broadcast frame_10_20); HubSend (Unregister 1%positive);
      ConnClose 1%positive],
     db_after_first_message).
Proof. vm_compute. reflexivity. Qed.

Lemma two_clients_registry_open : registry_open two_clients.
Proof.
  intros c Hc. unfold two_clients in Hc. simpl in Hc.
  apply elem_of_union in Hc as [Hc|Hc]; apply elem_of_singleton in Hc; subst c;
    eexists; (split; [reflexivity|reflexivity]).
Defined.

(** C1 on two clients, the second with a full channel. *)
Lemma broadcast_drops_only_full_recipients_witness :
  registry_open two_clients
  ∧ ∃ st', Run_step (Broadcast "m") two_clients = Ok st'
      ∧ 1%positive ∈ Clients st'
      ∧ heap st' !! 1%positive
        = Some (mkClient (mkSocket false []) (mkChan ["m"%string] false) 10)
      ∧ (2%positive ∉ Clients st')
      ∧ closed ∘ send <$> heap st' !! 2%positive = Some true.
Proof.
  split; [exact two_clients_registry_open|].
  destruct (broadcast_drops_only_full_recipients "m" two_clients
              (elements (Clients two_clients)) two_clients_registry_open
              (reflexivity _)) as (Hstep & st' & Hrun & Hall).
  exists st'. rewrite Hstep. split; [exact Hrun|].
  destruct (Hall 1%positive (new_client 10) eq_refl) as ((Hin1 & Hheap1) & _).
  { apply (bool_decide_unpack _). vm_compute. exact I. }
  { unfold has_room. vm_compute. lia. }
  destruct (Hall 2%positive (full_client 20) eq_refl) as (_ & (Hin2 & Hheap2) & _).
  { apply (bool_decide_unpack _). vm_compute. exact I. }
  { unfold has_room. vm_compute. lia. }
  split; [exact Hin1|]. split; [exact Hheap1|]. split; [exact Hin2|].
  rewrite Hheap2. reflexivity.
Defined.

(** C2: user 10's connection receives a frame that names user 20 as sender. *)
Lemma foreign_sender_is_dropped_witness :
  json_Unmarshal frame_20_10 = Some (chat_msg 0 20 10 "1403-05-01")
  ∧ readPump_frame 1%positive 10 frame_20_10 db_with_chat = ([], db_with_chat)
  ∧ readPump 1%positive 10 [ReadFrame frame_20_10; ReadFrame frame_10_20] db_with_chat
    = readPump 1%positive 10 [ReadFrame frame_10_20] db_with_chat
  ∧ perform_all (readPump_frame 1%positive 10 frame_20_10 db_with_chat).1 two_clients
    = Ok two_clients.
Proof.
  assert (json_Unmarshal frame_20_10 = Some (chat_msg 0 20 10 "1403-05-01")) as Hdec
    by (vm_compute; reflexivity).
  split; [exact Hdec|].
  apply (foreign_sender_is_dropped 1%positive 10 frame_20_10 _
           [ReadFrame frame_10_20] db_with_chat two_clients Hdec).
  simpl. discriminate.
Defined.

(** C3: the store fails the insert of the message. *)
Lemma persistence_error_is_reported_to_sender_witness :
  resolveChat (chat_msg 0 10 20 "1403-05-01") db_failing_insert
    = (inr 1, db_failing_insert_1)
  ∧ saveMessage (set_ChatID 1 (chat_msg 0 10 20 "1403-05-01")) db_failing_insert_1
    = (inl (ErrDriver 2006), db_failing_insert_2)
  ∧ readPump_frame 1%positive 10 frame_10_20 db_failing_insert
    = ([WriteJSON 1%positive (mkErrorReply "Failed to send message" (ErrDriver 2006))],
       db_failing_insert_2).
Proof.
  assert (resolveChat (chat_msg 0 10 20 "1403-05-01") db_failing_insert
          = (inr 1, db_failing_insert_1)) as Hres by (vm_compute; reflexivity).
  assert (saveMessage (set_ChatID 1 (chat_msg 0 10 20 "1403-05-01")) db_failing_insert_1
          = (inl (ErrDriver 2006), db_failing_insert_2)) as Hsave
    by (vm_compute; reflexivity).
  split; [exact Hres|]. split; [exact Hsave|].
  assert (json_Unmarshal frame_10_20 = Some (chat_msg 0 10 20 "1403-05-01")) as Hdec
    by (vm_compute; reflexivity).
  destruct (persistence_error_is_reported_to_sender 1%positive 10 frame_10_20 _ 1
              (ErrDriver 2006) [] _ _ _ Hdec eq_refl Hres Hsave) as (Hframe & _).
  exact Hframe.
Defined.

(** C6: the first message of user 10 to user 20. *)
Lemma broadcast_payload_is_the_raw_frame_witness :
  readPump_frame 1%positive 10 frame_10_20 empty_db
    = ([HubSend (Broadcast frame_10_20)], db_after_first_message)
  ∧ ∃ msg chat db1,
      json_Unmarshal frame_10_20 = Some msg
      ∧ SenderID msg = 10
      ∧ resolveChat msg empty_db = (inr chat, db1)
      ∧ saveMessage (set_ChatID chat msg) db1 = (inr (), db_after_first_message).
Proof.
  assert (readPump_frame 1%positive 10 frame_10_20 empty_db
          = ([HubSend (Broadcast frame_10_20)], db_after_first_message)) as Hframe
    by (vm_compute; reflexivity).
  split; [exact Hframe|].
  destruct (broadcast_payload_is_the_raw_frame 1%positive 10 frame_10_20 empty_db
              _ _ frame_10_20 Hframe (list_elem_of_here _ _)) as (_ & _ & Hsaved).
  exact Hsaved.
Defined.

(** C7: a frame that is not JSON. *)
Lemma undecodable_frame_is_skipped_witness :
  json_Unmarshal frame_garbage = None
  ∧ readPump_frame 1%positive 10 frame_garbage db_with_chat = ([], db_with_chat)
  ∧ readPump 1%positive 10 [ReadFrame frame_garbage; ReadFrame frame_10_20] db_with_chat
    = readPump 1%positive 10 [ReadFrame frame_10_20] db_with_chat
  ∧ perform_all (readPump_frame 1%positive 10 frame_garbage db_with_chat).1 two_clients
    = Ok two_clients.
Proof.
  assert (json_Unmarshal frame_garbage = None) as Hdec by (vm_compute; reflexivity).
  split; [exact Hdec|].
  exact (undecodable_frame_is_skipped 1%positive 10 frame_garbage
           [ReadFrame frame_10_20] db_with_chat two_clients Hdec).
Defined.

(** C10: a date that is not a solar date. *)
Lemma malformed_date_is_a_persistence_error_witness :
  Utils.SolarToGregorian "yesterday" = inl ErrDateFormat
  ∧ Models.AddMessage 1 10 20 "hi" "14:00" "" None "yesterday" None false db_with_chat
    = (inl (ErrConvertingDate ErrDateFormat), db_with_chat)
  ∧ readPump_frame 1%positive 10 frame_bad_date db_with_chat
    = ([WriteJSON 1%positive
          (mkErrorReply "Failed to send message" (ErrConvertingDate ErrDateFormat))],
       db_with_chat).
Proof.
  assert (Utils.SolarToGregorian "yesterday" = inl ErrDateFormat) as Hconv
    by (vm_compute; reflexivity).
  split; [exact Hconv|].
  destruct (malformed_date_is_a_persistence_error 1 10 20 "hi" "14:00" "" None
              "yesterday" None false db_with_chat ErrDateFormat Hconv)
    as (Hadd & Hframe & _).
  split; [exact Hadd|].
  assert (json_Unmarshal frame_bad_date = Some (chat_msg 0 10 20 "yesterday")) as Hdec
    by (vm_compute; reflexivity).
  assert (resolveChat (chat_msg 0 10 20 "yesterday") db_with_chat
          = (inr 1, db_with_chat)) as Hres by (vm_compute; reflexivity).
  exact (proj1 (Hframe 1%positive 10 frame_bad_date _ 1 db_with_chat db_with_chat
                  Hdec eq_refl eq_refl Hres)).
Defined.

(** X19 on the sample store: a first message each way, the
    second after the pass of the first has ended. *)
Lemma one_chat_per_pair_when_alone_witness :
  Models.ChatExists 10 20 db_with_chat = Models.ChatExists 20 10 db_with_chat
  ∧ (∃ db', Models.CreateChat 20 10 db_with_chat = (inr 1, db')
            ∧ chats db' = chats db_with_chat)
  ∧ ∃ db1 db2 rowA rowB,
      readPump_frame 1%positive 10 frame_10_20 empty_db
        = ([HubSend (Broadcast frame_10_20)], db1)
      ∧ readPump_frame 2%positive 20 frame_20_10 db1
        = ([HubSend (Broadcast frame_20_10)], db2)
      ∧ chats db2 = [mkChatRow 1 10 20]
      ∧ messages db2 = [rowA; rowB]
      ∧ msg_chat_id rowA = 1
      ∧ msg_chat_id rowB = 1.
Proof.
  destruct one_chat_per_pair_when_alone as (Hsym & _ & Hcreate & _ & Htwo).
  split; [exact (Hsym 10 20 db_with_chat)|]. split.
  - destruct (Hcreate 20 10 db_with_chat 1 []) as [_ Hhealthy];
      [vm_compute; reflexivity|].
    exact (Hhealthy eq_refl eq_refl).
  - exact (Htwo 1%positive 2%positive frame_10_20 frame_20_10
             (chat_msg 0 10 20 "1403-05-01") (chat_msg 0 20 10 "1403-05-01")
             (1403, 5, 1) (1403, 5, 1) empty_db
             eq_refl eq_refl eq_refl eq_refl eq_refl eq_refl eq_refl eq_refl
             eq_refl eq_refl eq_refl eq_refl).
Defined.

(** C8 as the specification states it fails on [main]: after the shutdown
    loop both clients are still in the registry and their [send] channels
    are still open; only their sockets are closed. *)
Lemma shutdown_leaves_registry_and_channels :
  ∃ st', Main.shutdown two_clients = Ok st'
    ∧ Clients st' = {[ 1%positive; 2%positive ]}
    ∧ closed ∘ send <$> heap st' !! 1%positive = Some false
    ∧ closed ∘ send <$> heap st' !! 2%positive = Some false
    ∧ sock_closed ∘ Conn <$> heap st' !! 1%positive = Some true
    ∧ sock_closed ∘ Conn <$> heap st' !! 2%positive = Some true
    ∧ history st' = [].
Proof.
  eexists. split; [vm_compute; reflexivity|].
  split; [|repeat split].
  apply (bool_decide_unpack _). vm_compute. exact I.
Qed.

(** C8 as amended, on the two sample clients. *)
Lemma shutdown_closes_every_registered_socket_witness :
  (∀ c, c ∈ Clients two_clients → is_Some (heap two_clients !! c))
  ∧ ∃ st', Main.shutdown two_clients = Ok st'
      ∧ Clients st' = Clients two_clients
      ∧ ∃ cl', heap st' !! 1%positive = Some cl'
          ∧ send cl' = mkChan [] false
          ∧ sock_closed (Conn cl') = true.
Proof.
  assert (∀ c, c ∈ Clients two_clients → is_Some (heap two_clients !! c)) as Hall.
  { intros c Hc. destruct (two_clients_registry_open c Hc) as (cl & Hcl & _).
    exists cl. exact Hcl. }
  split; [exact Hall|].
  destruct (shutdown_closes_every_registered_socket two_clients Hall)
    as (st' & Hrun & Hreg & _ & Hobjs).
  exists st'. split; [exact Hrun|]. split; [exact Hreg|].
  destruct (Hobjs 1%positive (new_client 10) eq_refl)
    as (cl' & Hcl' & Hsend & _ & _ & Hclosed & _).
  exists cl'. split; [exact Hcl'|]. split; [exact Hsend|].
  apply Hclosed. apply (bool_decide_unpack _). vm_compute. exact I.
Defined.

(** C9 on the sample store, where users 10 and 20 have chat 1: a pair
    without a chat, a supplied id that is not the pair's, and a message that
    is inserted under the pair's chat. *)
Lemma AddMessage_checks_the_chat_id_witness :
  Utils.SolarToGregorian "1403-05-01" = inr (1403, 5, 1)
  ∧ Models.ChatExists 10 20 db_with_chat = (inr 1, db_with_chat)
  ∧ Models.ChatExists 10 30 db_with_chat = (inr 0, db_with_chat)
  ∧ Models.AddMessage 0 10 30 "hi" "14:00" "" None "1403-05-01" None false db_with_chat
    = (inl (ErrNoChat 10 30), db_with_chat)
  ∧ Models.AddMessage 7 10 20 "hi" "14:00" "" None "1403-05-01" None false db_with_chat
    = (inl (ErrInvalidChatID 7 1), db_with_chat)
  ∧ ∃ db2,
      Models.AddMessage 0 10 20 "hi" "14:00" "" None "1403-05-01" None false db_with_chat
        = (inr (), db2)
      ∧ chats db2 = [mkChatRow 1 10 20]
      ∧ messages db2
        = [mkMessageRow 1 1 10 20 "hi" "14:00" None None "2024-07-22" None false].
Proof.
  assert (Utils.SolarToGregorian "1403-05-01" = inr (1403, 5, 1)) as Hconv
    by (vm_compute; reflexivity).
  assert (Models.ChatExists 10 20 db_with_chat = (inr 1, db_with_chat)) as Hex
    by (vm_compute; reflexivity).
  assert (Models.ChatExists 10 30 db_with_chat = (inr 0, db_with_chat)) as Hnone
    by (vm_compute; reflexivity).
  split; [exact Hconv|]. split; [exact Hex|]. split; [exact Hnone|].
  split; [|split].
  - destruct (AddMessage_checks_the_chat_id 0 10 30 "hi" "14:00" "" None
                "1403-05-01" None false db_with_chat _ 0 _ Hconv Hnone)
      as (_ & _ & Hno & _).
    exact (Hno eq_refl).
  - destruct (AddMessage_checks_the_chat_id 7 10 20 "hi" "14:00" "" None
                "1403-05-01" None false db_with_chat _ 1 _ Hconv Hex)
      as (_ & _ & _ & Hbad & _).
    apply Hbad; discriminate.
  - destruct (AddMessage_checks_the_chat_id 0 10 20 "hi" "14:00" "" None
                "1403-05-01" None false db_with_chat _ 1 _ Hconv Hex)
      as (_ & _ & _ & _ & Hok).
    destruct Hok as (_ & _ & _ & Hins); [discriminate|by left|].
    apply Hins; [discriminate|discriminate].
Defined.

(** ** Calls among the statements of other sessions *)

Lemma upholds_impl J G {A} (post post' : DB → A → Prop) (p : Prog A) : ∀ past,
  (∀ db a, post db a → post' db a) →
  upholds J G post past p → upholds J G post' past p.
Proof.
  induction p as [a|R s k IH]; intros past Hpost; simpl; [by apply Hpost|].
  intros Hp db HG HJ. destruct (Hp db HG HJ) as (HJ' & HG' & Hk).
  split; [done|]. split; [done|]. by apply IH.
Qed.

Lemma upholds_bind J G {A B} (mid : DB → A → Prop) (post : DB → B → Prop)
    (p : Prog A) (f : A → Prog B) : ∀ past,
  upholds J G mid past p →
  (∀ db a, mid db a → upholds J G post db (f a)) →
  upholds J G post past (p ≫= f).
Proof.
  induction p as [a|R s k IH]; intros past Hp Hf; [by apply Hf|].
  intros db HG HJ. destruct (Hp db HG HJ) as (HJ' & HG' & Hk).
  split; [done|]. split; [done|]. by apply IH.
Qed.

Lemma upholds_sql J G {A} (post : DB → A → Prop) (s : DB → A * DB) past :
  (∀ db, G past db → J db →
     J (s db).2 ∧ G db (s db).2 ∧ post (s db).2 (s db).1) →
  upholds J G post past (sql s).
Proof. intros Hs db HG HJ. apply Hs; done. Qed.

Section Calls.
Context `{External}.
Variables (J : DB → Prop) (G : DB → DB → Prop) (Q : Z → Prop).

(** What [J] and [G] have to allow: a statement that leaves the tables as
    they are, the insert of a chat, and the insert of a message whose sender
    satisfies [Q] into a chat that a lookup for its pair found earlier. *)
Hypothesis quiet : ∀ db db',
  chats db' = chats db → messages db' = messages db → J db → J db' ∧ G db db'.
Hypothesis chat_insert : ∀ db db' s r,
  chats db' = chats db ++ [mkChatRow (chats_auto_increment db) s r] →
  messages db' = messages db → J db → J db' ∧ G db db'.
Hypothesis message_insert : ∀ past db db' row,
  G past db →
  msg_chat_id row ∈ select_chat_ids (msg_sender_id row) (msg_receiver_id row) past →
  Q (msg_sender_id row) →
  chats db' = chats db → messages db' = messages db ++ [row] →
  J db → J db' ∧ G db db'.

Lemma upholds_quiet {A} (post : DB → A → Prop) (s : DB → A * DB) past :
  (∀ db, chats (s db).2 = chats db ∧ messages (s db).2 = messages db) →
  (∀ db, post (s db).2 (s db).1) →
  upholds J G post past (sql s).
Proof.
  intros Hkept Hpost. apply upholds_sql. intros db HG HJ.
  destruct (Hkept db) as [Hc Hm]. destruct (quiet db (s db).2 Hc Hm HJ).
  by repeat split.
Qed.

(** A statement sent to the server with a body that changes no table. *)
Lemma upholds_statement_quiet {A} (post : DB → error + A → Prop)
    (body : DB → (error + A) * DB) past :
  (∀ db, chats (body db).2 = chats db ∧ messages (body db).2 = messages db) →
  (∀ db db0, chats db0 = chats db → post (body db0).2 (body db0).1) →
  (∀ db code, post db (inl (ErrDriver code))) →
  upholds J G post past (statement body).
Proof.
  intros Hkept Hpost Herr. unfold statement. apply upholds_sql. intros db HG HJ.
  destruct (faults db) as [|[code|] rest].
  - destruct (Hkept db) as [Hc Hm]. destruct (quiet db (body db).2 Hc Hm HJ).
    split; [done|]. split; [done|]. by apply (Hpost db).
  - simpl. destruct (quiet db (set_faults rest db)) as [? ?]; [done..|].
    by repeat split.
  - destruct (Hkept (set_faults rest db)) as [Hc Hm].
    destruct (quiet db (body (set_faults rest db)).2 Hc Hm HJ).
    split; [done|]. split; [done|]. by apply (Hpost db).
Qed.

(** [ChatExists] answers with the first chat of the pair in the store as its
    statement found it, or 0. *)
Lemma ChatExists_upholds s r past :
  upholds J G
    (λ db res, ∀ id, res = inr id →
       id = default 0 (head (select_chat_ids s r db)))
    past (Models.ChatExists s r).
Proof.
  unfold Models.ChatExists.
  apply (upholds_bind J G
    (λ db row, ∀ found, row = inr found → found = head (select_chat_ids s r db))).
  - apply upholds_statement_quiet; [done| |done].
    intros db db0 Hc found [= <-]. simpl. unfold select_chat_ids. by rewrite Hc.
  - intros db [e|[id|]] Hrow; simpl; [done| |].
    + intros id' [= <-]. by rewrite <- (Hrow (Some id) eq_refl).
    + intros id' [= <-]. by rewrite <- (Hrow None eq_refl).
Qed.

Lemma connect_quiet db :
  chats (connect db).2 = chats db ∧ messages (connect db).2 = messages db.
Proof. unfold connect. by destruct (pool db). Qed.

Lemma statement_on_upholds {A} (body : conn → Prog A) past :
  (∀ k db, upholds J G (λ _ _, True) db (body k)) →
  upholds J G (λ _ _, True) past (statement_on body).
Proof.
  intros Hbody. unfold statement_on.
  apply (upholds_bind J G (λ _ _, True)).
  - by apply upholds_statement_quiet; [apply connect_quiet|..].
  - intros db [e|k] _; [done|].
    apply (upholds_bind J G (λ _ _, True)); [apply Hbody|done].
Qed.

Lemma Schema_CreateChat_upholds k s r past :
  upholds J G (λ _ _, True) past (Schema.CreateChat k s r).
Proof.
  unfold Schema.CreateChat.
  apply (upholds_bind J G (λ _ _, True)); [by apply upholds_quiet|].
  intros db existing _.
  apply (upholds_bind J G (λ _ _, True)).
  - destruct existing as [id|]; [done|].
    apply upholds_sql. intros db1 HG HJ. simpl.
    destruct (chat_insert db1
                (insert_chat (mkChatRow (chats_auto_increment db1) s r) db1) s r);
      done.
  - intros db1 id _. by apply upholds_quiet.
Qed.

Lemma CreateChat_upholds s r past :
  upholds J G (λ _ _, True) past (Models.CreateChat s r).
Proof.
  unfold Models.CreateChat.
  apply (upholds_bind J G (λ _ _, True)).
  - apply statement_on_upholds. intros k db. apply Schema_CreateChat_upholds.
  - intros db [e|[]] _; [done|].
    apply (upholds_bind J G (λ _ _, True)).
    + apply statement_on_upholds. intros k db1. by apply upholds_quiet.
    + by intros db1 [e|[id|]] _.
Qed.

Lemma AddMessage_upholds chatID s r text timeStr rm rmid date file isRead past :
  Q s →
  upholds J G (λ _ _, True) past
    (Models.AddMessage chatID s r text timeStr rm rmid date file isRead).
Proof.
  intros HQ. unfold Models.AddMessage.
  destruct (Utils.SolarToGregorian date) as [err|g]; [done|].
  eapply upholds_bind; [apply ChatExists_upholds|].
  intros db1 [e|existing] Hfound; [done|]. simpl.
  destruct (Z.eqb_spec existing 0) as [|Hne]; [done|].
  destruct (negb (chatID =? 0) && negb (chatID =? existing)); [done|].
  assert (existing ∈ select_chat_ids s r db1) as Hin.
  { specialize (Hfound existing eq_refl).
    destruct (select_chat_ids s r db1) as [|id ids]; simpl in Hfound; [done|].
    subst id. apply list_elem_of_here. }
  unfold statement. apply upholds_sql. intros db HG HJ.
  assert (∀ db0, chats db0 = chats db → messages db0 = messages db →
            let out := Schema.AddMessage existing s r text timeStr (Some rm) rmid
                         (Format_2006_01_02 g) (URL <$> file) isRead db0 in
            J out.2 ∧ G db out.2) as Hbody.
  { intros db0 Hc Hm out. subst out. unfold Schema.AddMessage.
    repeat case_match; simpl; try (apply quiet; done);
      (eapply (message_insert db1 db);
       [exact HG| | |exact Hc|simpl; rewrite Hm; reflexivity|exact HJ];
       simpl; done). }
  destruct (faults db) as [|[code|] rest]; simpl.
  - destruct (Hbody db eq_refl eq_refl). by repeat split.
  - destruct (quiet db (set_faults rest db)); [done..|]. by repeat split.
  - destruct (Hbody (set_faults rest db) eq_refl eq_refl). by repeat split.
Qed.

Lemma resolveChat_upholds msg past :
  upholds J G (λ _ _, True) past (resolveChat msg).
Proof.
  unfold resolveChat.
  eapply upholds_bind; [apply ChatExists_upholds|].
  intros db [e|existing] _; [done|]. simpl.
  destruct (existing =? 0); [apply CreateChat_upholds|done].
Qed.

(** A pass of the read loop of a client whose user satisfies [Q]. *)
Lemma readPump_frame_upholds c c_ID message past :
  Q c_ID →
  upholds J G (λ _ _, True) past (readPump_frame c c_ID message).
Proof.
  intros HQ. unfold readPump_frame.
  destruct (json_Unmarshal message) as [msg|]; [|done].
  destruct (Z.eqb_spec (SenderID msg) c_ID) as [Hid|Hne]; [|done]. cbn [negb].
  eapply upholds_bind; [apply resolveChat_upholds|].
  intros db [e|chat] _; [done|].
  eapply upholds_bind;
    [unfold saveMessage; apply AddMessage_upholds; simpl; by rewrite Hid|].
  by intros db1 [e|[]] _.
Qed.

Lemma Handlers_CreateChat_upholds claims body past :
  upholds J G (λ _ _, True) past (Handlers.CreateChat claims body).
Proof.
  unfold Handlers.CreateChat.
  destruct claims as [UserID|]; [|done]. destruct body as [participants|]; [|done].
  destruct participants as [|p0 [|p1 [|p2 rest]]]; try done.
  destruct (negb (UserID =? p0) && negb (UserID =? p1)); [done|].
  eapply upholds_bind; [apply CreateChat_upholds|]. by intros db [e|id] _.
Qed.

End Calls.

(** * More properties *)

(** ** The server as a whole *)

Section Server.
Context `{External} `{Auth}.

Lemma sent_app c h1 h2 : sent c (h1 ++ h2) = sent c h1 ++ sent c h2.
Proof. unfold sent. apply omap_app. Qed.

Lemma sent_send_eq c m : sent c [OpSend c m] = [m].
Proof. unfold sent. simpl. by rewrite bool_decide_eq_true_2. Qed.

Lemma sent_send_ne c c' m : c' ≠ c → sent c [OpSend c' m] = [].
Proof. intros Hne. unfold sent. simpl. by rewrite bool_decide_eq_false_2. Qed.

Lemma sent_close c c' : sent c [OpClose c'] = [].
Proof. done. Qed.

Lemma texts_app f1 f2 : texts (f1 ++ f2) = texts f1 ++ texts f2.
Proof. unfold texts. apply omap_app. Qed.

(** A client that no operation names has no operation. *)
Lemma unnamed_client c h :
  (∀ op, op ∈ h → op_client op ≠ c) → closes c h = 0%nat ∧ sent c h = [].
Proof.
  induction h as [|op h IH]; intros Hall; [done|].
  destruct IH as [IHc IHs].
  { intros op' Hop'. apply Hall. by apply list_elem_of_further. }
  assert (op_client op ≠ c) as Hne by apply Hall, list_elem_of_here.
  change (op :: h) with ([op] ++ h). rewrite closes_app, sent_app, IHc, IHs.
  destruct op as [c' m|c']; simpl in Hne.
  - by rewrite closes_send, sent_send_ne.
  - by rewrite closes_close_ne, sent_close.
Qed.

Lemma chan_open_update st c cl cl' c0 :
  heap st !! c = Some cl → closed (send cl') = closed (send cl) →
  chan_open (mkState (Clients st) (<[c := cl']> (heap st)) (history st)) c0
  ↔ chan_open st c0.
Proof.
  intros Hcl Hsame. unfold chan_open. simpl.
  destruct (decide (c0 = c)) as [->|Hne].
  - rewrite lookup_insert_eq. split.
    + intros (? & [= <-] & Hopen). exists cl. split; [done|congruence].
    + intros (? & Heq & Hopen). exists cl'. split; [done|].
      rewrite Hcl in Heq. injection Heq as <-. congruence.
  - by rewrite lookup_insert_ne.
Qed.

(** Changing a client without opening or closing its channel keeps the
    invariant of the hub. *)
Lemma hub_inv_update st c cl cl' :
  hub_inv st → heap st !! c = Some cl → closed (send cl') = closed (send cl) →
  hub_inv (mkState (Clients st) (<[c := cl']> (heap st)) (history st)).
Proof.
  intros (Hreg & Hzero & Hone & Hsafe) Hcl Hsame.
  split; [|split; [|split]]; simpl; [| |done|done].
  - intros c0 Hc0. apply (chan_open_update st c cl cl'); [done..|]. by apply Hreg.
  - intros c0 Hc0%(chan_open_update st c cl cl'); [|done..]. by apply Hzero.
Qed.

Lemma dom_heap_update (m : gmap positive Client) c cl cl' :
  m !! c = Some cl → dom (<[c := cl']> m) = dom m.
Proof.
  intros Hcl. apply dom_insert_lookup_L. by eexists.
Qed.

Lemma core_inv_enqueued running st c cl message :
  core_inv running st → c ∈ Clients st → heap st !! c = Some cl →
  closed (send cl) = false →
  core_inv running (enqueued c cl message st).
Proof.
  intros (Hinv & Hsub & Hhist & Hfifo & Hleft) Hin Hcl Hopen.
  split; [by apply hub_inv_enqueued|]. split; [|split; [|split]]; simpl.
  - by rewrite (dom_heap_update _ c cl).
  - rewrite (dom_heap_update _ c cl) by done.
    intros op [Hop|Hop%list_elem_of_singleton]%elem_of_app; [by apply Hhist|].
    subst op. simpl. apply elem_of_dom. by eexists.
  - intros c0 cl0. simpl. rewrite sent_app. destruct (decide (c0 = c)) as [->|Hne].
    + rewrite lookup_insert_eq, sent_send_eq. intros [= <-]. simpl.
      destruct (Hfifo c cl Hcl) as [Hpre Hrun]. split.
      * by apply prefix_app_r.
      * intros Hc. by rewrite app_assoc, Hrun.
    + rewrite lookup_insert_ne by done. intros Hcl0.
      rewrite sent_send_ne, app_nil_r by done. by apply Hfifo.
  - intros c0. unfold enqueued. simpl.
    rewrite (dom_heap_update _ c cl), closes_app, closes_send by done.
    rewrite Nat.add_0_r. apply Hleft.
Qed.

Lemma core_inv_dropped running st c cl :
  core_inv running st → c ∈ Clients st → heap st !! c = Some cl →
  closed (send cl) = false →
  core_inv running (dropped c cl st).
Proof.
  intros (Hinv & Hsub & Hhist & Hfifo & Hleft) Hin Hcl Hopen.
  split; [by apply hub_inv_dropped|]. split; [|split; [|split]]; simpl.
  - rewrite (dom_heap_update _ c cl) by done.
    intros c0 [Hc0 _]%elem_of_difference. by apply Hsub.
  - rewrite (dom_heap_update _ c cl) by done.
    intros op [Hop|Hop%list_elem_of_singleton]%elem_of_app; [by apply Hhist|].
    subst op. simpl. apply elem_of_dom. by eexists.
  - intros c0 cl0. simpl. rewrite sent_app, sent_close, app_nil_r.
    destruct (decide (c0 = c)) as [->|Hne].
    + rewrite lookup_insert_eq. intros [= <-]. simpl. by apply Hfifo.
    + rewrite lookup_insert_ne by done. by apply Hfifo.
  - intros c0. unfold dropped. simpl.
    rewrite (dom_heap_update _ c cl), closes_app by done.
    destruct (decide (c0 = c)) as [->|Hne].
    + intros _. right. rewrite closes_close_eq.
      destruct Hinv as (_ & Hzero & _). rewrite (Hzero c); [done|by exists cl].
    + rewrite closes_close_ne, Nat.add_0_r by done.
      intros [Hc0|Hc0]%Hleft; [left|by right].
      by rewrite elem_of_difference, elem_of_singleton.
Qed.

(** A change of one client that keeps its channel as it is and writes no
    text frame. *)
Lemma core_inv_socket running st c cl cl' :
  core_inv running st → heap st !! c = Some cl →
  send cl' = send cl →
  texts (sock_written (Conn cl')) = texts (sock_written (Conn cl)) →
  core_inv running (mkState (Clients st) (<[c := cl']> (heap st)) (history st)).
Proof.
  intros (Hinv & Hsub & Hhist & Hfifo & Hleft) Hcl Hsend Htexts.
  split; [apply (hub_inv_update st c cl); [done..|by rewrite Hsend]|].
  split; [|split; [|split]]; simpl.
  - by rewrite (dom_heap_update _ c cl).
  - by rewrite (dom_heap_update _ c cl).
  - intros c0 cl0. simpl. destruct (decide (c0 = c)) as [->|Hne].
    + rewrite lookup_insert_eq. intros [= <-]. rewrite Htexts, Hsend. by apply Hfifo.
    + rewrite lookup_insert_ne by done. by apply Hfifo.
  - intros c0. simpl. rewrite (dom_heap_update _ c cl) by done. apply Hleft.
Qed.

Lemma fifo_fewer running running' st :
  running' ⊆ running → fifo running st → fifo running' st.
Proof.
  intros Hsub Hfifo c cl Hcl. destruct (Hfifo c cl Hcl) as [Hpre Hrun].
  split; [done|]. intros Hc. apply Hrun. by apply Hsub.
Qed.

(** What a pass of the write pump does to its client: the channel stays
    open or closed as it was and the id stays; either the pass wrote the
    head of the channel as a text frame and goes on, or it wrote no text
    frame and returned. *)
Lemma writePump_pass_cases write_ok cl cl' returned :
  writePump_pass write_ok cl = Some (cl', returned) →
  closed (send cl') = closed (send cl) ∧ ID cl' = ID cl
  ∧ ((∃ message, buf (send cl) = message :: buf (send cl')
        ∧ returned = false
        ∧ sock_written (Conn cl')
          = sock_written (Conn cl) ++ [TextMessage message])
     ∨ (returned = true
        ∧ texts (sock_written (Conn cl')) = texts (sock_written (Conn cl)))).
Proof.
  unfold writePump_pass.
  destruct (buf (send cl)) as [|message rest] eqn:Hbuf.
  - destruct (closed (send cl)) eqn:Hclosed; [|done].
    intros [= <- <-]. simpl. split; [done|]. split; [done|]. right.
    split; [done|].
    destruct (negb (sock_closed (Conn cl)) && write_ok); [|done].
    by rewrite texts_app, app_nil_r.
  - destruct (negb (sock_closed (Conn cl)) && write_ok);
      intros [= <- <-]; simpl; (split; [done|]); (split; [done|]).
    + left. by exists message.
    + by right.
Qed.

(** A pass of the write pump of a running writer. *)
Lemma core_inv_writePump_pass write_ok running st c cl cl' returned :
  core_inv running st → heap st !! c = Some cl → c ∈ running →
  writePump_pass write_ok cl = Some (cl', returned) →
  core_inv (if returned then running ∖ {[c]} else running)
    (mkState (Clients st) (<[c := cl']> (heap st)) (history st)).
Proof.
  intros (Hinv & Hsub & Hhist & Hfifo & Hleft) Hcl Hrunning Hpass.
  destruct (Hfifo c cl Hcl) as [Hpre Hrun]. specialize (Hrun Hrunning).
  destruct (writePump_pass_cases _ _ _ _ Hpass) as (Hsame & _ & Hcases).
  split; [by apply (hub_inv_update st c cl)|]. split; [|split; [|split]]; simpl.
  - by rewrite (dom_heap_update _ c cl).
  - by rewrite (dom_heap_update _ c cl).
  - intros c0 cl0. simpl. destruct (decide (c0 = c)) as [->|Hne].
    + rewrite lookup_insert_eq. intros [= <-].
      destruct Hcases as [(message & Hbuf & -> & Hwritten)|[-> Htexts]].
      * rewrite Hwritten, texts_app. simpl. rewrite Hbuf in Hrun.
        assert (texts (sock_written (Conn cl)) ++ message :: buf (send cl')
                = (texts (sock_written (Conn cl)) ++ [message]) ++ buf (send cl'))
          as Hassoc by by rewrite <- app_assoc.
        rewrite Hassoc in Hrun. split; [|done].
        rewrite <- Hrun. by apply prefix_app_r.
      * rewrite Htexts. split; [done|]. intros [_ Hout]%elem_of_difference.
        exfalso. by apply Hout, elem_of_singleton.
    + rewrite lookup_insert_ne by done. intros Hcl0.
      destruct (Hfifo c0 cl0 Hcl0) as [Hpre0 Hrun0]. split; [done|].
      intros Hc0. apply Hrun0. destruct returned; [|done].
      by apply elem_of_difference in Hc0 as [? _].
  - intros c0. simpl. rewrite (dom_heap_update _ c cl) by done. apply Hleft.
Qed.

Lemma broadcast_range_core running order message : ∀ st,
  core_inv running st → NoDup order → (∀ c, c ∈ order → c ∈ Clients st) →
  ∃ st', broadcast_range order message st = Ok st'
    ∧ core_inv running st' ∧ dom (heap st') = dom (heap st).
Proof.
  induction order as [|c rest IH]; intros st Hcore Hnd Hall.
  { by exists st. }
  apply NoDup_cons in Hnd as [Hfresh Hnd].
  assert (c ∈ Clients st) as Hin by apply Hall, list_elem_of_here.
  destruct Hcore as (Hinv & Hrest). destruct Hinv as (Hreg & Hinv').
  destruct (Hreg c Hin) as (cl & Hcl & Hopen).
  assert (core_inv running st) as Hcore by done.
  assert (∃ st1, broadcast_client message c st = Ok st1 ∧ core_inv running st1
            ∧ dom (heap st1) = dom (heap st)
            ∧ ∀ c', c' ≠ c → c' ∈ Clients st → c' ∈ Clients st1)
    as (st1 & Hstep & Hcore1 & Hdom1 & Hkeep).
  { destruct (broadcast_client_cases message c st cl Hcl Hopen) as [[_ ->]|[_ ->]];
      eexists; (split; [done|]).
    - split; [by apply core_inv_enqueued|]. split; [|done].
      simpl. by apply (dom_heap_update _ c cl).
    - split; [by apply core_inv_dropped|]. split.
      + simpl. by apply (dom_heap_update _ c cl).
      + intros c' Hne Hc'. simpl. by rewrite elem_of_difference, elem_of_singleton. }
  destruct (IH st1 Hcore1 Hnd) as (st' & Hrun & Hcore' & Hdom').
  { intros c' Hc'. apply Hkeep; [by intros ->|]. by apply Hall, list_elem_of_further. }
  exists st'. simpl. rewrite Hstep. split; [done|]. split; [done|congruence].
Qed.

Lemma Run_step_core running e st :
  core_inv running st →
  match e with Register _ => False | _ => True end →
  ∃ st', Run_step e st = Ok st' ∧ core_inv running st'
    ∧ dom (heap st') = dom (heap st).
Proof.
  intros Hcore He. destruct e as [c|c|message]; [done| |].
  - destruct (decide (c ∈ Clients st)) as [Hin|Hout].
    + destruct Hcore as (Hinv & Hrest). destruct Hinv as (Hreg & Hinv').
      destruct (Hreg c Hin) as (cl & Hcl & Hopen).
      exists (dropped c cl st). split; [by apply unregister_registered|].
      split; [by apply core_inv_dropped|]. simpl. by apply (dom_heap_update _ c cl).
    + exists st. simpl. by rewrite bool_decide_eq_false_2.
  - simpl. apply broadcast_range_core; [done|apply NoDup_elements|].
    intros c. by rewrite elem_of_elements.
Qed.

Lemma ends_in_True {A} (p : Prog A) : ends_in (λ _, True) p.
Proof. induction p as [a|R s k IH]; simpl; auto. Qed.

Lemma ends_in_impl {A} (P Q : A → Prop) (p : Prog A) :
  (∀ a, P a → Q a) → ends_in P p → ends_in Q p.
Proof. intros HPQ. induction p as [a|R s k IH]; simpl; auto. Qed.

Lemma ends_in_bind {A B} (Q : A → Prop) (P : B → Prop) (p : Prog A)
    (f : A → Prog B) :
  ends_in Q p → (∀ a, Q a → ends_in P (f a)) → ends_in P (p ≫= f).
Proof.
  intros Hp Hf. induction p as [a|R s k IH]; [by apply Hf|].
  intros r. apply IH, Hp.
Qed.

(** A pass of the read loop produces at most one effect, whatever the store
    answers: nothing, the error reply on the client's own socket, or the
    broadcast of the frame. *)
Lemma readPump_frame_cases c c_ID message :
  ends_in
    (λ effs,
       effs = []
       ∨ (∃ err, effs = [WriteJSON c (mkErrorReply "Failed to send message" err)])
       ∨ effs = [HubSend (Broadcast message)])
    (readPump_frame c c_ID message).
Proof.
  unfold readPump_frame.
  destruct (json_Unmarshal message) as [msg|]; [|by left].
  destruct (negb _); [by left|].
  apply (ends_in_bind (λ _, True)); [apply ends_in_True|].
  intros [e|chat] _; [by left|].
  apply (ends_in_bind (λ _, True)); [apply ends_in_True|].
  intros [e|[]] _; simpl; eauto.
Qed.

Lemma readPump_own_effects c c_ID message :
  ends_in (Forall (own_effect c)) (readPump_frame c c_ID message).
Proof.
  eapply ends_in_impl; [|apply readPump_frame_cases].
  intros effs [->|[(err & ->)| ->]]; repeat constructor.
Qed.

Lemma system_inv_boot db : system_inv (boot db).
Proof.
  split; [|split; [|split; [|split]]]; simpl; [|done|done| |].
  - split; [apply hub_inv_NewHub|]. split; [done|]. split; [|split].
    + by intros op ?%elem_of_nil.
    + intros c cl. simpl. by rewrite lookup_empty.
    + intros c. simpl. by rewrite dom_empty_L, elem_of_empty.
  - intros c effs. by rewrite lookup_empty.
  - intros c p. by rewrite lookup_empty.
Qed.

(** [ServeWs] keeps the invariant: the new client has a fresh address, an
    open empty channel and an open socket. *)
Lemma ServeWs_inv token upgrade_ok sys :
  system_inv sys → system_inv (ServeWs token upgrade_ok sys).2.
Proof.
  intros Hsys. unfold ServeWs.
  case_bool_decide; [done|]. destruct (VerifyToken token) as [UserID|]; [|done].
  destruct upgrade_ok; [|done]. simpl.
  set (st := hub_state sys). set (c := fresh (dom (heap st))).
  assert (c ∉ dom (heap st)) as Hfresh by apply is_fresh.
  destruct Hsys as ((Hinv & Hsub & Hhist & Hfifo & Hleft) & Hreaders & Hwriters
                    & Hpending & Hinflight).
  fold st in Hinv, Hsub, Hhist, Hfifo, Hleft, Hreaders, Hwriters, Hpending,
    Hinflight.
  destruct (unnamed_client c (history st)) as [Hcloses0 Hs0].
  { intros op Hop <-. by apply Hfresh, Hhist. }
  assert (heap st !! c = None) as Hnone by by apply not_elem_of_dom.
  destruct Hinv as (Hreg & Hzero & Hone & Hsafe).
  split; [|split; [|split; [|split]]]; simpl.
  - split; [|split; [|split; [|split]]]; simpl.
    + split; [|split; [|split]]; simpl; [| |done|done].
      * intros c0 Hin0. unfold chan_open. simpl.
        destruct (decide (c0 = c)) as [->|Hne].
        -- rewrite lookup_insert_eq. by eexists.
        -- rewrite lookup_insert_ne by done. apply Hreg.
           apply elem_of_union in Hin0 as [Hin0%elem_of_singleton|Hin0]; done.
      * intros c0. unfold chan_open. simpl. destruct (decide (c0 = c)) as [->|Hne].
        -- done.
        -- rewrite lookup_insert_ne by done. apply Hzero.
    + rewrite dom_insert_L. by apply union_mono_l.
    + intros op Hop. rewrite dom_insert_L. apply elem_of_union. right. by apply Hhist.
    + intros c0 cl0. simpl. destruct (decide (c0 = c)) as [->|Hne].
      * rewrite lookup_insert_eq. intros [= <-]. simpl. rewrite Hs0.
        split; [done|done].
      * rewrite lookup_insert_ne by done. intros Hcl0.
        destruct (Hfifo c0 cl0 Hcl0) as [Hpre Hrun]. split; [done|].
        intros [Hc%elem_of_singleton|Hc]%elem_of_union; [done|by apply Hrun].
    + intros c0. simpl. rewrite dom_insert_L, !elem_of_union, elem_of_singleton.
      intros [->|[Hc0|Hc0]%Hleft]; auto.
  - rewrite dom_insert_L. by apply union_mono_l.
  - rewrite dom_insert_L. by apply union_mono_l.
  - intros c0 effs Hp. destruct (Hpending c0 effs Hp) as [Hdom Hown].
    split; [|done]. rewrite dom_insert_L. apply elem_of_union. by right.
  - intros c0 p Hp. destruct (Hinflight c0 p Hp) as [Hdom Hown].
    split; [|done]. rewrite dom_insert_L. apply elem_of_union. by right.
Qed.

Lemma perform_core running c eff st :
  core_inv running st → c ∈ dom (heap st) → own_effect c eff →
  ∃ st', perform eff st = Ok st' ∧ core_inv running st'
    ∧ dom (heap st') = dom (heap st).
Proof.
  intros Hcore Hdom Hown. apply elem_of_dom in Hdom as [cl Hcl].
  destruct eff as [e|c' v|c']; simpl in *.
  - apply Run_step_core; [done|]. by destruct e.
  - subst c'. unfold conn_write. rewrite Hcl.
    destruct (sock_closed (Conn cl)); [by exists st|].
    eexists. split; [done|]. split.
    + apply (core_inv_socket running st c cl); [done..|].
      simpl. by rewrite texts_app, app_nil_r.
    + simpl. by apply (dom_heap_update _ c cl).
  - subst c'. unfold conn_close. rewrite Hcl.
    eexists. split; [done|]. split.
    + by apply (core_inv_socket running st c cl).
    + simpl. by apply (dom_heap_update _ c cl).
Qed.

(** A pass that has come to [p] keeps the invariant, whatever the store. *)
Lemma proceed_inv c p db sys :
  system_inv sys → c ∈ dom (heap (hub_state sys)) →
  ends_in (Forall (own_effect c)) p →
  system_inv (proceed c p db sys).
Proof.
  intros (Hcore & Hreaders & Hwriters & Hpending & Hinflight) Hdom Hends.
  destruct p as [effects|R s k]; simpl;
    (split; [done|]); (split; [done|]); (split; [done|]); split; simpl.
  - intros c0 effs. destruct (decide (c0 = c)) as [->|Hne].
    + rewrite lookup_insert_eq. by intros [= <-].
    + rewrite lookup_insert_ne by done. apply Hpending.
  - intros c0 p. destruct (decide (c0 = c)) as [->|Hne].
    + by rewrite lookup_delete_eq.
    + rewrite lookup_delete_ne by done. apply Hinflight.
  - done.
  - intros c0 p. destruct (decide (c0 = c)) as [->|Hne].
    + rewrite lookup_insert_eq. by intros [= <-].
    + rewrite lookup_insert_ne by done. apply Hinflight.
Qed.

(** Every step keeps the invariant of the server, and no step stops on a
    run-time error. *)
Lemma step_inv a sys :
  system_inv sys → ∃ sys', step a sys = Ok sys' ∧ system_inv sys'.
Proof.
  intros Hsys. destruct a as [token upgrade_ok|c r|c|c|c write_ok]; unfold step.
  - eexists. split; [done|]. by apply ServeWs_inv.
  - destruct (heap (hub_state sys) !! c) as [cl|] eqn:Hcl; [|by exists sys].
    destruct (inflight sys !! c) as [p|] eqn:Hp; [by exists sys|].
    destruct (default [] (pending sys !! c)) as [|eff rest]; [|by exists sys].
    case_bool_decide as Hreader; [|by exists sys].
    assert (c ∈ dom (heap (hub_state sys))) as Hdom
      by (apply elem_of_dom; by eexists).
    destruct (if sock_closed (Conn cl) then ReadError else r) as [message|].
    + eexists. split; [done|].
      apply proceed_inv; [done..|apply readPump_own_effects].
    + eexists. split; [done|].
      destruct Hsys as (Hcore & Hreaders & Hwriters & Hpending & Hinflight).
      split; [done|]. split; [|split; [done|split; [|done]]]; simpl.
      * intros c0 [Hc0 _]%elem_of_difference. by apply Hreaders.
      * intros c0 effs. destruct (decide (c0 = c)) as [->|Hne].
        -- rewrite lookup_insert_eq. intros [= <-].
           split; [done|]. repeat constructor.
        -- rewrite lookup_insert_ne by done. apply Hpending.
  - destruct (inflight sys !! c) as [[effs|R s k]|] eqn:Hp;
      [by exists sys| |by exists sys].
    destruct (s (store sys)) as [r db] eqn:Hs.
    eexists. split; [done|].
    destruct Hsys as (Hcore & Hreaders & Hwriters & Hpending & Hinflight).
    destruct (Hinflight c _ Hp) as [Hdom Hends].
    apply proceed_inv; [done|done|]. apply Hends.
  - destruct (pending sys !! c) as [effs|] eqn:Hp; simpl; [|by exists sys].
    destruct effs as [|eff rest]; [by exists sys|].
    destruct Hsys as (Hcore & Hreaders & Hwriters & Hpending & Hinflight).
    destruct (Hpending c _ Hp) as [Hdom [Hown Hrest]%Forall_cons].
    destruct (perform_core (writers sys) c eff (hub_state sys))
      as (st' & -> & Hcore' & Hdom'); [done..|].
    eexists. split; [done|].
    split; [done|]. simpl. rewrite Hdom'. split; [done|]. split; [done|].
    split; [|done].
    intros c0 effs. destruct (decide (c0 = c)) as [->|Hne].
    + rewrite lookup_insert_eq. by intros [= <-].
    + rewrite lookup_insert_ne by done. apply Hpending.
  - destruct (heap (hub_state sys) !! c) as [cl|] eqn:Hcl; [|by exists sys].
    case_bool_decide as Hwriter; [|by exists sys].
    destruct (writePump_pass write_ok cl) as [[cl' returned]|] eqn:Hpass;
      [|by exists sys].
    eexists. split; [done|].
    destruct Hsys as (Hcore & Hreaders & Hwriters & Hpending & Hinflight).
    split; [by apply (core_inv_writePump_pass write_ok _ _ c cl)|]. simpl.
    rewrite (dom_heap_update _ c cl) by done.
    split; [done|]. split; [|done].
    destruct returned; [|done].
    intros c0 [Hc0 _]%elem_of_difference. by apply Hwriters.
Qed.

Lemma run_inv schedule : ∀ sys,
  system_inv sys → ∃ sys', run schedule sys = Ok sys' ∧ system_inv sys'.
Proof.
  induction schedule as [|a rest IH]; intros sys Hsys; [by exists sys|].
  destruct (step_inv a sys Hsys) as (sys1 & Hstep & Hsys1).
  simpl. rewrite Hstep. by apply IH.
Qed.

(** X1. Whatever the clients send and however the goroutines interleave,
    the server never stops on a run-time error of the hub (send on a closed
    channel, close of a closed channel, nil client): from [boot], every
    schedule of connections, read-pump passes, deliveries and write-pump
    passes runs to a state where every registered client has an open
    channel, no channel was closed twice and nothing was queued on a channel
    after its close. *)
Theorem server_never_panics schedule db :
  ∃ sys, run schedule (boot db) = Ok sys
    ∧ registry_open (hub_state sys)
    ∧ ∀ c, (closes c (history (hub_state sys)) ≤ 1)%nat
           ∧ ¬ send_after_close c (history (hub_state sys)).
Proof.
  destruct (run_inv schedule (boot db) (system_inv_boot db))
    as (sys & Hrun & ((Hreg & _ & Hone & Hsafe) & _) & _).
  exists sys. split; [done|]. split; [done|]. intros c. by split.
Qed.

(** C4. [Unregister] is idempotent and closes once.  An [Unregister] for a
    client that is not in the registry leaves the hub as it is; one for a
    registered client whose channel is open removes it and closes its
    channel.  On every run of the server, whatever the clients do and
    however the goroutines interleave, the hub loop handles every event it
    is sent without a run-time error, and for every client: its channel was
    closed at most once, nothing was queued on it after the close, it has
    not been closed while the client is in the registry, and it has been
    closed exactly once when the client has left the registry.  The same
    holds of the hub loop on any sequence of events that registers each
    client once, with its channel open, which are the sequences that
    [ServeWs] and the pumps produce. *)
Theorem unregister_closes_exactly_once :
  (∀ st c, c ∉ Clients st → Run_step (Unregister c) st = Ok st)
  ∧ (∀ st c cl,
       c ∈ Clients st → heap st !! c = Some cl → closed (send cl) = false →
       ∃ st', Run_step (Unregister c) st = Ok st'
         ∧ (c ∉ Clients st')
         ∧ history st' = history st ++ [OpClose c]
         ∧ Run_step (Unregister c) st' = Ok st')
  ∧ (∀ schedule db,
       ∃ sys, run schedule (boot db) = Ok sys
         ∧ ∀ c, c ∈ dom (heap (hub_state sys)) →
             (closes c (history (hub_state sys)) ≤ 1)%nat
             ∧ ¬ send_after_close c (history (hub_state sys))
             ∧ (c ∈ Clients (hub_state sys) →
                closes c (history (hub_state sys)) = 0%nat)
             ∧ (c ∉ Clients (hub_state sys) →
                closes c (history (hub_state sys)) = 1%nat))
  ∧ (∀ objects events,
       NoDup (registrations events) →
       (∀ c, c ∈ registrations events →
          ∃ cl, objects !! c = Some cl ∧ closed (send cl) = false) →
       ∃ st, Run events (NewHub objects) = Ok st
         ∧ ∀ c, (closes c (history st) ≤ 1)%nat
             ∧ ¬ send_after_close c (history st)
             ∧ (c ∈ Clients st → closes c (history st) = 0%nat)
             ∧ (c ∈ registrations events → c ∉ Clients st →
                closes c (history st) = 1%nat)).
Proof.
  assert (∀ st c, c ∉ Clients st → Run_step (Unregister c) st = Ok st) as Hidem.
  { intros st c Hout. simpl. by rewrite bool_decide_eq_false_2. }
  split; [done|]. split; [|split].
  - intros st c cl Hin Hcl Hopen. exists (dropped c cl st).
    split; [by apply unregister_registered|].
    assert (c ∉ Clients (dropped c cl st)) as Hout.
    { simpl. rewrite elem_of_difference, elem_of_singleton. by intros [_ ?]. }
    split; [done|]. split; [done|]. by apply Hidem.
  - intros schedule db.
    destruct (run_inv schedule (boot db) (system_inv_boot db))
      as (sys & Hrun & ((Hreg & Hzero & Hone & Hsafe) & _ & _ & _ & Hleft) & _).
    exists sys. split; [done|]. intros c Hdom.
    split; [done|]. split; [done|]. split.
    + intros Hin. by apply Hzero, Hreg.
    + intros Hout. by destruct (Hleft c Hdom).
  - apply Run_closes_once.
Qed.

(** X2. Delivery to each connection is first in, first out, on every
    schedule: the text frames written to a client's socket are the first
    payloads that the hub queued on its channel, in the order it queued
    them, and while the client's write pump is running the frames written
    followed by the payloads still queued are exactly the payloads queued
    so far (none lost, none duplicated, none reordered). *)
Theorem delivery_is_first_in_first_out schedule db sys c cl :
  run schedule (boot db) = Ok sys →
  heap (hub_state sys) !! c = Some cl →
  texts (sock_written (Conn cl)) `prefix_of` sent c (history (hub_state sys))
  ∧ (c ∈ writers sys →
     texts (sock_written (Conn cl)) ++ buf (send cl)
     = sent c (history (hub_state sys))).
Proof.
  intros Hrun Hcl.
  destruct (run_inv schedule (boot db) (system_inv_boot db))
    as (sys' & Hrun' & (_ & _ & _ & Hfifo) & _).
  rewrite Hrun in Hrun'. injection Hrun' as <-. by apply Hfifo.
Qed.

(** *** Who speaks, and what is delivered *)

Lemma broadcast_client_frame message c st st' :
  broadcast_client message c st = Ok st' →
  (∃ cl, heap st !! c = Some cl
     ∧ (st' = enqueued c cl message st ∨ st' = dropped c cl st)).
Proof.
  unfold broadcast_client, try_send, close_send.
  destruct (heap st !! c) as [cl|]; [|done].
  destruct (closed (send cl)) eqn:Hopen; [done|].
  case_bool_decide; intros [= <-]; exists cl; (split; [done|]); [by left|by right].
Qed.

(** What a broadcast leaves of each client object, and what it adds to the
    history, with no assumption on the state it starts from. *)
Lemma broadcast_range_frame order message : ∀ st st',
  broadcast_range order message st = Ok st' →
  (∀ c cl', heap st' !! c = Some cl' →
     ∃ cl, heap st !! c = Some cl ∧ ID cl' = ID cl ∧ Conn cl' = Conn cl)
  ∧ (∀ op, op ∈ history st' →
       op ∈ history st ∨ op = OpClose (op_client op)
       ∨ op = OpSend (op_client op) message).
Proof.
  induction order as [|c rest IH]; intros st st'; simpl.
  { intros [= <-]. split; [by eauto|by left]. }
  destruct (broadcast_client message c st) as [st1|] eqn:Hstep; [|done].
  intros [Hheap Hhist]%IH.
  apply broadcast_client_frame in Hstep as (cl & Hcl & Hst1).
  split.
  - intros c0 cl' Hcl'. destruct (Hheap c0 cl' Hcl') as (cl1 & Hcl1 & Hid & Hconn).
    destruct Hst1 as [-> | ->]; simpl in Hcl1;
      (destruct (decide (c0 = c)) as [->|Hne];
       [rewrite lookup_insert_eq in Hcl1; injection Hcl1 as <-; by exists cl
       |rewrite lookup_insert_ne in Hcl1 by done; by exists cl1]).
  - intros op [Hop|Hop]%Hhist; [|by right].
    destruct Hst1 as [-> | ->]; simpl in Hop;
      apply elem_of_app in Hop as [Hop|Hop%list_elem_of_singleton];
      [by left|subst op; by right; right|by left|subst op; by right; left].
Qed.

Lemma perform_frame eff st st' :
  perform eff st = Ok st' →
  (∀ c cl', heap st' !! c = Some cl' →
     ∃ cl, heap st !! c = Some cl ∧ ID cl' = ID cl)
  ∧ (∀ c message, OpSend c message ∈ history st' →
       OpSend c message ∈ history st ∨ eff = HubSend (Broadcast message)).
Proof.
  destruct eff as [[c|c|message]|c v|c]; simpl.
  - intros [= <-]. simpl. split; [by eauto|by left].
  - case_bool_decide; [|intros [= <-]; split; [by eauto|by left]].
    unfold close_send. simpl. destruct (heap st !! c) as [cl|] eqn:Hcl; [|done].
    destruct (closed (send cl)); [done|]. intros [= <-]. simpl. split.
    + intros c0 cl'. destruct (decide (c0 = c)) as [->|Hne].
      * rewrite lookup_insert_eq. intros [= <-]. by exists cl.
      * rewrite lookup_insert_ne by done. by eauto.
    + intros c0 m [Hop|Hop%list_elem_of_singleton]%elem_of_app; [by left|done].
  - intros [Hheap Hhist]%broadcast_range_frame. split.
    + intros c cl' Hcl'. destruct (Hheap c cl' Hcl') as (cl & ? & ? & ?). by exists cl.
    + intros c m [Hop|[Hop|Hop]]%Hhist; [by left|done|].
      injection Hop as ->. by right.
  - unfold conn_write. destruct (heap st !! c) as [cl|] eqn:Hcl; [|done].
    destruct (sock_closed (Conn cl)); intros [= <-]; simpl;
      (split; [|by left]); [by eauto|].
    intros c0 cl'. destruct (decide (c0 = c)) as [->|Hne].
    + rewrite lookup_insert_eq. intros [= <-]. by exists cl.
    + rewrite lookup_insert_ne by done. by eauto.
  - unfold conn_close. destruct (heap st !! c) as [cl|] eqn:Hcl; [|done].
    intros [= <-]. simpl. split; [|by left].
    intros c0 cl'. destruct (decide (c0 = c)) as [->|Hne].
    + rewrite lookup_insert_eq. intros [= <-]. by exists cl.
    + rewrite lookup_insert_ne by done. by eauto.
Qed.

(** *** What the passes do to the store, statement by statement *)

Lemma ServeWs_store token upgrade_ok sys :
  store (ServeWs token upgrade_ok sys).2 = store sys
  ∧ inflight (ServeWs token upgrade_ok sys).2 = inflight sys.
Proof.
  unfold ServeWs. case_bool_decide; [done|].
  destruct (VerifyToken token); [|done]. by destruct upgrade_ok.
Qed.

Lemma store_proceed c p db sys : store (proceed c p db sys) = db.
Proof. by destruct p. Qed.

Section StoreInvariant.
Variables (J : DB → Prop) (G : DB → DB → Prop) (Q : Z → Prop).
Hypothesis G_refl : ∀ db, G db db.
Hypothesis G_trans : ∀ db1 db2 db3, G db1 db2 → G db2 db3 → G db1 db3.
Hypothesis quiet : ∀ db db',
  chats db' = chats db → messages db' = messages db → J db → J db' ∧ G db db'.
Hypothesis chat_insert : ∀ db db' s r,
  chats db' = chats db ++ [mkChatRow (chats_auto_increment db) s r] →
  messages db' = messages db → J db → J db' ∧ G db db'.
Hypothesis message_insert : ∀ past db db' row,
  G past db →
  msg_chat_id row ∈ select_chat_ids (msg_sender_id row) (msg_receiver_id row) past →
  Q (msg_sender_id row) →
  chats db' = chats db → messages db' = messages db ++ [row] →
  J db → J db' ∧ G db db'.
Hypothesis verified_Q : ∀ id, verified id → Q id.

Lemma underway_later {A} (p : Prog A) db db' :
  G db db' → underway J G db p → underway J G db' p.
Proof.
  intros HG (past & Hpast & Hp). exists past. split; [|done]. by eapply G_trans.
Qed.

Lemma store_inv_boot db : J db → store_inv J G Q (boot db).
Proof.
  intros HJ. split; [done|]. split; simpl.
  - intros c cl. by rewrite lookup_empty.
  - intros c p. by rewrite lookup_empty.
Qed.

(** The pass of [c] comes to [p] with the store at [db]. *)
Lemma proceed_store c p db sys :
  store_inv J G Q sys → J db → G (store sys) db →
  upholds J G (λ _ _, True) db p →
  store_inv J G Q (proceed c p db sys).
Proof.
  intros (_ & HQ & Hinflight) HJ HG Hp.
  assert (∀ c0 p0, inflight sys !! c0 = Some p0 → underway J G db p0) as Hothers.
  { intros c0 p0 Hp0. eapply underway_later; [done|]. by eapply Hinflight. }
  destruct p as [effects|R s k]; (split; [done|]); (split; [done|]); simpl.
  - intros c0 p0. destruct (decide (c0 = c)) as [->|Hne].
    + by rewrite lookup_delete_eq.
    + rewrite lookup_delete_ne by done. apply Hothers.
  - intros c0 p0. destruct (decide (c0 = c)) as [->|Hne].
    + rewrite lookup_insert_eq. intros [= <-]. exists db. by split.
    + rewrite lookup_insert_ne by done. apply Hothers.
Qed.

(** Every step keeps [J], keeps the users of the clients within [Q], and
    takes the store from one state to the next within [G]. *)
Lemma step_store a sys sys' :
  store_inv J G Q sys → step a sys = Ok sys' →
  store_inv J G Q sys' ∧ G (store sys) (store sys').
Proof.
  intros Hinv. pose proof Hinv as (HJ & HQ & Hinflight).
  destruct a as [token upgrade_ok|c r|c|c|c write_ok]; unfold step.
  - intros [= <-].
    split; [|rewrite (proj1 (ServeWs_store _ _ _)); by apply G_refl].
    unfold ServeWs. case_bool_decide as Htok; [done|].
    destruct (VerifyToken token) as [UserID|] eqn:Hver; [|done].
    destruct upgrade_ok; [|done]. simpl. split; [done|]. split; [|done]. simpl.
    intros c cl. destruct (decide (c = fresh (dom (heap (hub_state sys))))) as [->|Hne].
    + rewrite lookup_insert_eq. intros [= <-]. apply verified_Q. by exists token.
    + rewrite lookup_insert_ne by done. apply HQ.
  - destruct (heap (hub_state sys) !! c) as [cl|] eqn:Hcl;
      [|intros [= <-]; by split].
    destruct (inflight sys !! c); [intros [= <-]; by split|].
    destruct (default [] (pending sys !! c)); [|intros [= <-]; by split].
    case_bool_decide; [|intros [= <-]; by split].
    destruct (if sock_closed (Conn cl) then ReadError else r) as [message|];
      intros [= <-].
    + split.
      * apply proceed_store; [done..|].
        apply (readPump_frame_upholds J G Q); try done. by eapply HQ.
      * rewrite store_proceed. by apply G_refl.
    + by split.
  - destruct (inflight sys !! c) as [[effs|R s k]|] eqn:Hp;
      [intros [= <-]; by split| |intros [= <-]; by split].
    destruct (Hinflight c _ Hp) as (past & Hpast & Hup).
    destruct (Hup (store sys) Hpast HJ) as (HJ' & HG' & Hk).
    destruct (s (store sys)) as [r db]. simpl in *. intros [= <-].
    split; [by apply proceed_store|].
    by rewrite store_proceed.
  - destruct (default [] (pending sys !! c)) as [|eff rest];
      [intros [= <-]; by split|].
    destruct (perform eff (hub_state sys)) as [st|] eqn:Hperf; [|done].
    intros [= <-]. split; [|by apply G_refl]. split; [done|]. split; [|done].
    simpl. intros c0 cl' Hcl'.
    destruct (perform_frame _ _ _ Hperf) as [Hheap _].
    destruct (Hheap c0 cl' Hcl') as (cl & Hcl & ->). by eapply HQ.
  - destruct (heap (hub_state sys) !! c) as [cl|] eqn:Hcl;
      [|intros [= <-]; by split].
    case_bool_decide; [|intros [= <-]; by split].
    destruct (writePump_pass write_ok cl) as [[cl' returned]|] eqn:Hpass;
      [|intros [= <-]; by split].
    intros [= <-]. split; [|by apply G_refl]. split; [done|]. split; [|done].
    simpl. intros c0 cl0. destruct (decide (c0 = c)) as [->|Hne].
    + rewrite lookup_insert_eq. intros [= <-].
      destruct (writePump_pass_cases _ _ _ _ Hpass) as (_ & -> & _). by eapply HQ.
    + rewrite lookup_insert_ne by done. apply HQ.
Qed.

Lemma run_store schedule : ∀ sys sys',
  store_inv J G Q sys → run schedule sys = Ok sys' →
  store_inv J G Q sys' ∧ G (store sys) (store sys').
Proof.
  induction schedule as [|a rest IH]; intros sys sys' Hinv; simpl.
  { intros [= <-]. by split. }
  destruct (step a sys) as [sys1|] eqn:Hstep; [|done].
  destruct (step_store a sys sys1 Hinv Hstep) as [Hinv1 HG1].
  intros Hrun. destruct (IH sys1 sys' Hinv1 Hrun) as [Hinv' HG'].
  split; [done|]. by eapply G_trans.
Qed.

End StoreInvariant.

(** X3. On every schedule, every client object carries the user id of a
    token that [VerifyToken] accepted, and every message row that the server
    added to the store names such a user id as its sender: no frame makes
    the server store a message in the name of a user who did not
    authenticate on some connection. *)
Theorem stored_senders_are_authenticated schedule db sys :
  run schedule (boot db) = Ok sys →
  (∀ c cl, heap (hub_state sys) !! c = Some cl → verified (ID cl))
  ∧ (∀ row, row ∈ messages (store sys) →
       row ∈ messages db ∨ verified (msg_sender_id row)).
Proof.
  intros Hrun.
  destruct (run_store (senders_verified db) (λ _ _, True) verified)
    with (schedule := schedule) (sys := boot db) (sys' := sys)
    as [(HJ & HQ & _) _]; try done.
  - intros db1 db2 _ Hm HJ. split; [|done]. intros row. rewrite Hm. apply HJ.
  - intros db1 db2 s r _ Hm HJ. split; [|done]. intros row. rewrite Hm. apply HJ.
  - intros past db1 db2 row _ _ HQrow _ Hm HJ. split; [|done].
    intros row'. rewrite Hm.
    intros [Hin|Hin%list_elem_of_singleton]%elem_of_app; [by apply HJ|].
    subst row'. by right.
  - apply store_inv_boot. intros row Hrow. by left.
Qed.

Lemma frames_read_app s1 s2 : frames_read (s1 ++ s2) = frames_read s1 ++ frames_read s2.
Proof. unfold frames_read. apply omap_app. Qed.

Lemma provenance_more frames frames' sys :
  provenance frames sys → provenance (frames ++ frames') sys.
Proof.
  intros (Hhist & Hpend & Hfly). split; [|split].
  - intros c m Hop. apply elem_of_app. left. by eapply Hhist.
  - intros c effs m Hp Hin. apply elem_of_app. left. by eapply Hpend.
  - intros c p Hp. eapply ends_in_impl; [|by eapply Hfly].
    intros effs Heffs m Hin. apply elem_of_app. left. by apply Heffs.
Qed.

(** A pass that has come to [p], all of whose broadcasts are of [frames]. *)
Lemma proceed_provenance frames c p db sys :
  provenance frames sys →
  ends_in (λ effs, ∀ message, HubSend (Broadcast message) ∈ effs →
                              message ∈ frames) p →
  provenance frames (proceed c p db sys).
Proof.
  intros (Hhist & Hpend & Hfly) Hp.
  destruct p as [effects|R s k]; (split; [done|]); split; simpl.
  - intros c0 effs m. destruct (decide (c0 = c)) as [->|Hne].
    + rewrite lookup_insert_eq. intros [= <-]. apply Hp.
    + rewrite lookup_insert_ne by done. apply Hpend.
  - intros c0 p0. destruct (decide (c0 = c)) as [->|Hne].
    + by rewrite lookup_delete_eq.
    + rewrite lookup_delete_ne by done. apply Hfly.
  - done.
  - intros c0 p0. destruct (decide (c0 = c)) as [->|Hne].
    + rewrite lookup_insert_eq. by intros [= <-].
    + rewrite lookup_insert_ne by done. apply Hfly.
Qed.

Lemma step_provenance frames a sys sys' :
  provenance frames sys → step a sys = Ok sys' →
  provenance (frames ++ frames_read [a]) sys'.
Proof.
  intros Hprov. destruct a as [token upgrade_ok|c r|c|c|c write_ok]; unfold step.
  - intros [= <-]. apply provenance_more. unfold ServeWs.
    case_bool_decide; [done|]. destruct (VerifyToken token); [|done].
    destruct upgrade_ok; [|done]. simpl. destruct Hprov as (Hhist & Hpend & Hfly).
    by split.
  - destruct (heap (hub_state sys) !! c) as [cl|] eqn:Hcl;
      [|intros [= <-]; by apply provenance_more].
    destruct (inflight sys !! c); [intros [= <-]; by apply provenance_more|].
    destruct (default [] (pending sys !! c));
      [|intros [= <-]; by apply provenance_more].
    case_bool_decide; [|intros [= <-]; by apply provenance_more].
    destruct (sock_closed (Conn cl)).
    { intros [= <-]. apply provenance_more.
      destruct Hprov as (Hhist & Hpend & Hfly). split; [done|]. split; [|done].
      simpl. intros c0 effs m. destruct (decide (c0 = c)) as [->|Hne].
      - rewrite lookup_insert_eq. intros [= <-] Hin.
        apply elem_of_cons in Hin as [?|Hin]; [done|].
        by apply list_elem_of_singleton in Hin.
      - rewrite lookup_insert_ne by done. apply Hpend. }
    destruct r as [message|]; intros [= <-].
    + apply proceed_provenance; [by apply provenance_more|].
      eapply ends_in_impl; [|apply readPump_frame_cases].
      intros effs Hcases m Hin. apply elem_of_app. right. simpl.
      destruct Hcases as [->|[(err & ->)| ->]].
      * by apply elem_of_nil in Hin.
      * by apply list_elem_of_singleton in Hin.
      * apply list_elem_of_singleton in Hin. injection Hin as ->.
        apply list_elem_of_here.
    + apply provenance_more.
      destruct Hprov as (Hhist & Hpend & Hfly). split; [done|]. split; [|done].
      simpl. intros c0 effs m. destruct (decide (c0 = c)) as [->|Hne].
      * rewrite lookup_insert_eq. intros [= <-] Hin.
        apply elem_of_cons in Hin as [?|Hin]; [done|].
        by apply list_elem_of_singleton in Hin.
      * rewrite lookup_insert_ne by done. apply Hpend.
  - destruct (inflight sys !! c) as [[effs|R s k]|] eqn:Hp;
      [intros [= <-]; by apply provenance_more|
      |intros [= <-]; by apply provenance_more].
    destruct (s (store sys)) as [r db]. intros [= <-].
    apply provenance_more. apply proceed_provenance; [done|].
    destruct Hprov as (_ & _ & Hfly). apply (Hfly c _ Hp).
  - destruct (pending sys !! c) as [effs|] eqn:Hp; simpl;
      [|intros [= <-]; by apply provenance_more].
    destruct effs as [|eff rest]; [intros [= <-]; by apply provenance_more|].
    destruct (perform eff (hub_state sys)) as [st|] eqn:Hperf; [|done].
    intros [= <-]. apply provenance_more. destruct Hprov as (Hhist & Hpend & Hfly).
    destruct (perform_frame _ _ _ Hperf) as [_ Hops]. split; [|split]; simpl.
    + intros c0 m [Hop| ->]%Hops; [by eapply Hhist|].
      eapply (Hpend c); [done|]. apply list_elem_of_here.
    + intros c0 effs m. destruct (decide (c0 = c)) as [->|Hne].
      * rewrite lookup_insert_eq. intros [= <-] Hin.
        eapply (Hpend c); [done|]. by apply list_elem_of_further.
      * rewrite lookup_insert_ne by done. apply Hpend.
    + done.
  - intros Hstep. apply provenance_more. destruct Hprov as (Hhist & Hpend & Hfly).
    destruct (heap (hub_state sys) !! c) as [cl|]; [|by injection Hstep as <-].
    case_bool_decide; [|by injection Hstep as <-].
    destruct (writePump_pass write_ok cl) as [[cl' returned]|];
      injection Hstep as <-; by split.
Qed.

Lemma run_provenance schedule : ∀ frames sys sys',
  provenance frames sys → run schedule sys = Ok sys' →
  provenance (frames ++ frames_read schedule) sys'.
Proof.
  induction schedule as [|a rest IH]; intros frames sys sys' Hprov Hrun;
    simpl in Hrun.
  { injection Hrun as <-. by apply provenance_more. }
  destruct (step a sys) as [sys1|] eqn:Hstep; [|done].
  change (a :: rest) with ([a] ++ rest).
  rewrite frames_read_app, app_assoc. eapply IH; [|done].
  by eapply step_provenance.
Qed.

(** X4. The server delivers nothing that it did not receive: on every
    schedule, each payload queued on a client's channel, and so each text
    frame written to a client's socket, is byte for byte a frame that the
    schedule made some read pump read from its socket. *)
Theorem delivered_frames_were_received schedule db sys c cl message :
  run schedule (boot db) = Ok sys →
  heap (hub_state sys) !! c = Some cl →
  message ∈ sent c (history (hub_state sys))
  ∨ message ∈ texts (sock_written (Conn cl)) →
  ∃ c', ReadPass c' (ReadFrame message) ∈ schedule.
Proof.
  intros Hrun Hcl Hmsg.
  assert (message ∈ sent c (history (hub_state sys))) as Hsent.
  { destruct Hmsg as [?|Hwritten]; [done|].
    destruct (run_inv schedule (boot db) (system_inv_boot db))
      as (sys' & Hrun' & (_ & _ & _ & Hfifo & _) & _).
    rewrite Hrun in Hrun'. injection Hrun' as <-.
    destruct (Hfifo c cl Hcl) as [[rest ->] _]. apply elem_of_app. by left. }
  destruct (run_provenance schedule [] (boot db) sys) as [Hhist _]; [|done|].
  { split; [|split]; simpl; [by intros ? ? ?%elem_of_nil| |].
    - intros ? ? ?. by rewrite lookup_empty.
    - intros ? ?. by rewrite lookup_empty. }
  unfold sent in Hsent. apply list_elem_of_omap in Hsent as (op & Hop & Hsome).
  destruct op as [c0 m|c0]; [|done]. case_bool_decide; [|done].
  injection Hsome as ->. subst c0. apply Hhist in Hop. simpl in Hop.
  unfold frames_read in Hop. apply list_elem_of_omap in Hop as (a & Ha & Hsome).
  destruct a as [| c' [m|] | | |]; try done. injection Hsome as ->. by exists c'.
Qed.

(** *** The write pump on its own *)

Lemma writePump_cons write_ok writes cl :
  writePump (write_ok :: writes) cl
  = match writePump_pass write_ok cl with
    | None => (cl, false)
    | Some (cl', true) => (cl', true)
    | Some (cl', false) => writePump writes cl'
    end.
Proof. done. Qed.

Lemma writePump_all_written : ∀ queue written flag id ok rest,
  writePump (replicate (length queue) true ++ ok :: rest)
    (mkClient (mkSocket false written) (mkChan queue flag) id)
  = (mkClient
       (mkSocket flag
          (written ++ (TextMessage <$> queue)
           ++ (if flag && ok then [CloseMessage] else [])))
       (mkChan [] flag) id,
     flag).
Proof.
  induction queue as [|message queue IH]; intros written flag id ok rest.
  - simpl. destruct flag, ok; simpl; rewrite ?app_nil_r; done.
  - change (replicate (length (message :: queue)) true ++ ok :: rest)
      with (true :: (replicate (length queue) true ++ ok :: rest)).
    rewrite writePump_cons. unfold writePump_pass. simpl.
    rewrite IH. by rewrite <- app_assoc.
Qed.

Lemma writePump_write_fails : ∀ i queue written flag id rest,
  (i < length queue)%nat →
  writePump (replicate i true ++ false :: rest)
    (mkClient (mkSocket false written) (mkChan queue flag) id)
  = (mkClient
       (mkSocket true (written ++ (TextMessage <$> take i queue)))
       (mkChan (drop (S i) queue) flag) id,
     true).
Proof.
  induction i as [|i IH]; intros queue written flag id rest Hi;
    destruct queue as [|message queue]; simpl in Hi; try lia.
  - simpl. by rewrite app_nil_r.
  - change (replicate (S i) true ++ false :: rest)
      with (true :: (replicate i true ++ false :: rest)).
    rewrite writePump_cons. unfold writePump_pass. simpl.
    rewrite IH by lia. by rewrite <- app_assoc.
Qed.

(** X5. The write pump with its socket open.  As long as the network takes
    its frames it writes the queued payloads as text frames, in queue
    order.  When all are written the channel is empty: if the hub closed
    the channel the pump writes the close frame (lost if the network does
    not take it), closes the socket and returns; if not it is left blocked
    on the empty channel with the socket open.  When the network refuses a
    frame, the pump returns and closes the socket: the payloads before it
    are written, that payload is lost, and those behind it stay in the
    channel, unwritten. *)
Theorem writePump_writes_the_queue_in_order cl :
  sock_closed (Conn cl) = false →
  (∀ ok rest,
     writePump (replicate (length (buf (send cl))) true ++ ok :: rest) cl
     = (mkClient
          (mkSocket (closed (send cl))
             (sock_written (Conn cl) ++ (TextMessage <$> buf (send cl))
              ++ (if closed (send cl) && ok then [CloseMessage] else [])))
          (mkChan [] (closed (send cl))) (ID cl),
        closed (send cl)))
  ∧ (∀ i rest, (i < length (buf (send cl)))%nat →
       writePump (replicate i true ++ false :: rest) cl
       = (mkClient
            (mkSocket true
               (sock_written (Conn cl) ++ (TextMessage <$> take i (buf (send cl)))))
            (mkChan (drop (S i) (buf (send cl))) (closed (send cl))) (ID cl),
          true)).
Proof.
  destruct cl as [[sclosed written] [queue flag] id]. simpl. intros ->. split.
  - intros ok rest. apply writePump_all_written.
  - intros i rest Hi. by apply writePump_write_fails.
Qed.

(** X6. With its socket already closed, the write pump takes at most one
    payload from the channel, writes nothing, and returns if there was one
    or if the channel is closed: the payload it took is lost. *)
Theorem writePump_on_a_closed_socket write_ok writes cl :
  sock_closed (Conn cl) = true →
  sock_written (Conn (writePump (write_ok :: writes) cl).1) = sock_written (Conn cl)
  ∧ buf (send (writePump (write_ok :: writes) cl).1) = tail (buf (send cl))
  ∧ (writePump (write_ok :: writes) cl).2
    = bool_decide (buf (send cl) ≠ [] ∨ closed (send cl) = true).
Proof.
  destruct cl as [[sclosed written] [queue flag] id]. simpl. intros ->.
  unfold writePump_pass. simpl.
  destruct queue as [|message rest]; [destruct flag|]; simpl; done.
Qed.

End Server.
(** ** The store under the traffic of the server *)

Lemma prefix_elem_of {A} (l1 l2 : list A) x : l1 `prefix_of` l2 → x ∈ l1 → x ∈ l2.
Proof. intros [k ->] Hx. apply elem_of_app. by left. Qed.

Section ServerInvariant.
Context `{External} `{Auth}.
Variables (J : DB → Prop) (G : DB → DB → Prop) (Q : Z → Prop).
Hypothesis G_refl : ∀ db, G db db.
Hypothesis G_trans : ∀ db1 db2 db3, G db1 db2 → G db2 db3 → G db1 db3.
Hypothesis quiet : ∀ db db',
  chats db' = chats db → messages db' = messages db → J db → J db' ∧ G db db'.
Hypothesis chat_insert : ∀ db db' s r,
  chats db' = chats db ++ [mkChatRow (chats_auto_increment db) s r] →
  messages db' = messages db → J db → J db' ∧ G db db'.
Hypothesis message_insert : ∀ past db db' row,
  G past db →
  msg_chat_id row ∈ select_chat_ids (msg_sender_id row) (msg_receiver_id row) past →
  Q (msg_sender_id row) →
  chats db' = chats db → messages db' = messages db ++ [row] →
  J db → J db' ∧ G db db'.
Hypothesis verified_Q : ∀ id, verified id → Q id.
(** The UPDATE of the procedure GetChatHistory. *)
Hypothesis marks : ∀ u r db,
  J db → J (History.mark_read u r db) ∧ G db (History.mark_read u r db).

Lemma Handlers_GetChatHistory_upholds userID receiverID past :
  upholds J G (λ _ _, True) past (Handlers.GetChatHistory userID receiverID).
Proof.
  unfold Handlers.GetChatHistory.
  eapply upholds_bind with (mid := λ _ _, True).
  { apply (upholds_statement_quiet J G); done. }
  intros db [err|[]] _; [done|].
  intros db1 HG1 HJ1. split; [done|]. split; [by apply G_refl|].
  intros db2 HG2 HJ2. destruct (marks userID receiverID db2 HJ2). done.
Qed.

Lemma server_inv_start db : J db → server_inv J G Q (start db).
Proof. intros HJ. split; [by apply store_inv_boot|]. apply Forall_nil_2. Qed.

(** A request, or the next statement of a handler, keeps [J] and takes the
    store from one state to the next within [G]. *)
Lemma serve_step_inv req srv srv' :
  server_inv J G Q srv → serve_step req srv = Ok srv' →
  server_inv J G Q srv' ∧ G (store (websocket srv)) (store (websocket srv')).
Proof.
  intros [Hinv Hhandlers]. pose proof Hinv as (HJ & HQ & Hinflight).
  destruct req as [a|claims body|userID receiverID|i]; cbn [serve_step].
  - destruct (step a (websocket srv)) as [sys|] eqn:Hstep; [|done]. intros [= <-].
    destruct (step_store J G Q G_refl G_trans quiet chat_insert message_insert
                verified_Q a _ _ Hinv Hstep) as [Hinv' HG].
    split; [|done]. split; [done|]. simpl.
    eapply Forall_impl; [done|]. intros p Hp. by eapply underway_later.
  - intros [= <-]. split; [|by apply G_refl]. split; [done|].
    cbn [websocket handlers]. apply Forall_app. split; [done|]. apply Forall_singleton.
    exists (store (websocket srv)). split; [by apply G_refl|].
    apply (upholds_bind J G (λ _ _, True) (λ _ _, True)
             (Handlers.CreateChat claims body) (λ r, Ret (ChatReply r)));
      [by apply (Handlers_CreateChat_upholds J G)|done].
  - intros [= <-]. split; [|by apply G_refl]. split; [done|].
    cbn [websocket handlers]. apply Forall_app. split; [done|]. apply Forall_singleton.
    exists (store (websocket srv)). split; [by apply G_refl|].
    apply (upholds_bind J G (λ _ _, True) (λ _ _, True)
             (Handlers.GetChatHistory userID receiverID) (λ r, Ret (HistoryReply r)));
      [by apply Handlers_GetChatHistory_upholds|done].
  - destruct (handlers srv !! i) as [[r|R s k]|] eqn:Hi;
      [intros [= <-]; by split| |intros [= <-]; by split].
    destruct (Forall_lookup_1 _ _ _ _ Hhandlers Hi) as (past & Hpast & Hup).
    destruct (Hup (store (websocket srv)) Hpast HJ) as (HJ' & HG' & Hk).
    destruct (s (store (websocket srv))) as [r db]. simpl in *. intros [= <-].
    split; [|done]. split; [split; [done|split; [done|]]|]; simpl.
    + intros c p Hp. eapply underway_later; [done..|]. by eapply Hinflight.
    + apply Forall_insert.
      * eapply Forall_impl; [done|]. intros p Hp. by eapply underway_later.
      * exists db. split; [by apply G_refl|done].
Qed.

Lemma serve_inv requests : ∀ srv srv',
  server_inv J G Q srv → serve requests srv = Ok srv' →
  server_inv J G Q srv' ∧ G (store (websocket srv)) (store (websocket srv')).
Proof.
  induction requests as [|req rest IH]; intros srv srv' Hinv; simpl.
  { intros [= <-]. by split. }
  destruct (serve_step req srv) as [srv1|] eqn:Hstep; [|done].
  destruct (serve_step_inv req srv srv1 Hinv Hstep) as [Hinv1 HG1].
  intros Hrun. destruct (IH srv1 srv' Hinv1 Hrun) as [Hinv' HG'].
  split; [done|]. by eapply G_trans.
Qed.

End ServerInvariant.

(** *** [grows] *)

Lemma grows_same db db' :
  chats db' = chats db → messages db' = messages db → grows db db'.
Proof.
  intros Hc Hm. unfold grows. rewrite Hc, Hm. split; [done|]. split; [done|].
  intros i m m' Hi Hi' Hr. congruence.
Qed.

Lemma grows_refl db : grows db db.
Proof. by apply grows_same. Qed.

Lemma grows_trans db1 db2 db3 : grows db1 db2 → grows db2 db3 → grows db1 db3.
Proof.
  intros (Hc1 & Hm1 & Hr1) (Hc2 & Hm2 & Hr2).
  split; [by etrans|]. split; [by etrans|].
  intros i m m'' Hi Hi'' Hr.
  assert (is_Some (messages db2 !! i)) as [m' Hi'].
  { apply lookup_lt_is_Some. apply prefix_length in Hm1.
    rewrite !length_fmap in Hm1. apply lookup_lt_Some in Hi. lia. }
  eapply Hr2; [done..|]. by eapply Hr1.
Qed.

Lemma grows_chat_insert db db' row :
  chats db' = chats db ++ [row] → messages db' = messages db → grows db db'.
Proof.
  intros Hc Hm. unfold grows. rewrite Hc, Hm.
  split; [by apply prefix_app_r|]. split; [done|].
  intros i m m' Hi Hi' Hr. congruence.
Qed.

Lemma grows_message_insert db db' row :
  chats db' = chats db → messages db' = messages db ++ [row] → grows db db'.
Proof.
  intros Hc Hm. unfold grows. rewrite Hc, Hm, fmap_app.
  split; [done|]. split; [by apply prefix_app_r|].
  intros i m m' Hi Hi' Hr.
  rewrite lookup_app_l in Hi' by (by eapply lookup_lt_Some). congruence.
Qed.

Lemma grows_mark_read u r db : grows db (History.mark_read u r db).
Proof.
  assert (History.set_is_read <$> messages (History.mark_read u r db)
          = History.set_is_read <$> messages db) as Heq.
  { simpl. rewrite <- list_fmap_compose. apply list_fmap_ext.
    intros i m _. simpl. by destruct (History.to_mark u r db m). }
  split; [done|]. split; [by rewrite Heq|].
  intros i m m'. simpl. rewrite list_lookup_fmap. intros -> [= <-] Hr.
  by destruct (History.to_mark u r db m).
Qed.

Section StoreTraffic.
Context `{External} `{Auth}.

(** X7. Every message row sits in a chat of its own sender and receiver,
    and stays there: if that holds of the store the server starts on, it
    holds after any requests to the WebSocket endpoint, to POST /api/chat and
    to GET /api/chat/history, with the statements of the read pumps and of
    the handlers interleaved in any order, and whatever statements the store
    fails. *)
Theorem messages_stay_in_their_own_chat requests db srv :
  messages_in_own_chat db →
  serve requests (start db) = Ok srv →
  messages_in_own_chat (store (websocket srv)).
Proof.
  intros Hown Hserve.
  destruct (serve_inv messages_in_own_chat
              (λ db1 db2, chats db1 `prefix_of` chats db2) (λ _, True))
    with (requests := requests) (srv := start db) (srv' := srv)
    as [[(HJ & _) _] _]; try done.
  - intros db1 db2 db3 ? ?. by etrans.
  - intros db1 db2 Hc Hm HJ. split; [|by rewrite Hc].
    intros row. rewrite Hm, Hc. apply HJ.
  - intros db1 db2 s r Hc Hm HJ. split; [|rewrite Hc; by apply prefix_app_r].
    intros row. rewrite Hm. intros (chat & Hin & Hrest)%HJ.
    exists chat. split; [|done]. rewrite Hc. apply elem_of_app. by left.
  - intros past db1 db2 row Hpast Hsel _ Hc Hm HJ. split; [|by rewrite Hc].
    intros row'. rewrite Hm, Hc.
    intros [Hin|Hin%list_elem_of_singleton]%elem_of_app; [by apply HJ|].
    subst row'. unfold select_chat_ids in Hsel.
    apply list_elem_of_fmap in Hsel as (chat & Hid & Hchat).
    apply list_elem_of_In, List.filter_In in Hchat as [Hchat Hpair].
    exists chat. split; [|done].
    eapply prefix_elem_of; [done|]. by apply list_elem_of_In.
  - intros u r db1 HJ. split; [|done].
    intros row' (m & -> & Hm)%list_elem_of_fmap.
    destruct (HJ m Hm) as (chat & Hin & Hid & Hpair).
    exists chat. split; [done|]. by destruct (History.to_mark u r db1 m).
Qed.

(** X8. The chat routes only add to the store.  (1) After any requests to
    the WebSocket endpoint, to POST /api/chat and to GET /api/chat/history,
    with the statements of the read pumps and of the handlers interleaved in
    any order, the rows of [chats] the server started with are still there,
    unchanged and in place, followed by the rows added; so are the rows of
    [messages], but for their read flags, which GET /api/chat/history sets
    and nothing clears.  (2) The WebSocket endpoint by itself leaves the read
    flags alone too. *)
Theorem store_only_grows db :
  (∀ requests srv,
     serve requests (start db) = Ok srv → grows db (store (websocket srv)))
  ∧ (∀ schedule sys,
       run schedule (boot db) = Ok sys →
       chats db `prefix_of` chats (store sys)
       ∧ messages db `prefix_of` messages (store sys)).
Proof.
  split.
  - intros requests srv Hserve.
    destruct (serve_inv (λ _, True) grows (λ _, True))
      with (requests := requests) (srv := start db) (srv' := srv)
      as [_ HG]; try done.
    + apply grows_refl.
    + apply grows_trans.
    + intros db1 db2 Hc Hm _. split; [done|]. by apply grows_same.
    + intros db1 db2 s r Hc Hm _. split; [done|]. by eapply grows_chat_insert.
    + intros past db1 db2 row _ _ _ Hc Hm _. split; [done|].
      by eapply grows_message_insert.
    + intros u r db1 _. split; [done|]. apply grows_mark_read.
  - intros schedule sys Hrun.
    destruct (run_store (λ _, True)
                (λ db1 db2, chats db1 `prefix_of` chats db2
                            ∧ messages db1 `prefix_of` messages db2) (λ _, True))
      with (schedule := schedule) (sys := boot db) (sys' := sys)
      as [_ HG]; try done.
    + intros db1 db2 db3 [? ?] [? ?]. split; by etrans.
    + intros db1 db2 Hc Hm _. by rewrite Hc, Hm.
    + intros db1 db2 s r Hc Hm _. rewrite Hc, Hm. split; [done|].
      split; [by apply prefix_app_r|done].
    + intros past db1 db2 row _ _ _ Hc Hm _. rewrite Hc, Hm. split; [done|].
      split; [done|by apply prefix_app_r].
Qed.

(** X9. Reply references, on a healthy store where the pair has its chat and
    the date converts.  A reply id that is absent or 0 is stored as NULL; a
    reply id that some message has is stored; a reply id that no message has
    is refused by the store and nothing is inserted.  An empty reply text is
    stored as NULL. *)
Theorem reply_reference_must_exist
    chatID s r text timeStr repliedMessage repliedMessageID hijriDate
    attachedFile isRead db g id rest :
  faults db = [] →
  Utils.SolarToGregorian hijriDate = inr g →
  select_chat_ids s r db = id :: rest → id ≠ 0 →
  chatID = 0 ∨ chatID = id →
  let call := Models.AddMessage chatID s r text timeStr repliedMessage
                repliedMessageID hijriDate attachedFile isRead db in
  let stored reply :=
    ∃ row, call = (inr (), insert_message row db)
      ∧ msg_replied_message_id row = reply
      ∧ msg_replied_message row
        = (if bool_decide (repliedMessage = ""%string) then None
           else Some repliedMessage)
      ∧ msg_chat_id row = id in
  match repliedMessageID with
  | None => stored None
  | Some rid =>
      if bool_decide (rid = 0) then stored None
      else if existsb (λ m, msg_id m =? rid) (messages db) then stored (Some rid)
      else call = (inl ErrForeignKey, db)
  end.
Proof.
  intros Hf Hconv Hsel Hid Hchat call stored.
  assert (call = Schema.AddMessage id s r text timeStr (Some repliedMessage)
                   repliedMessageID (Format_2006_01_02 g) (URL <$> attachedFile)
                   isRead db) as Hcall.
  { unfold call.
    rewrite AddMessage_alone, Hconv, ChatExists_healthy, Hsel by done.
    change (default 0 (head (id :: rest))) with id.
    destruct (Z.eqb_spec id 0); [done|].
    assert (negb (chatID =? 0) && negb (chatID =? id) = false) as ->.
    { destruct Hchat as [->| ->]; [done|]. rewrite Z.eqb_refl. apply andb_false_r. }
    by rewrite statement_healthy. }
  assert (existsb (λ c, chat_id c =? id) (chats db) = true) as Hfk.
  { apply (select_chat_ids_exists s r). rewrite Hsel. apply list_elem_of_here. }
  unfold stored. rewrite Hcall. unfold Schema.AddMessage. rewrite Hfk. simpl.
  destruct repliedMessageID as [rid|]; simpl.
  - case_bool_decide as Hrid; simpl.
    + eexists. split; [done|]. simpl. by repeat split.
    + destruct (existsb _ (messages db)); simpl; [|done].
      eexists. split; [done|]. simpl. by repeat split.
  - eexists. split; [done|]. simpl. by repeat split.
Qed.

(** *** The procedure GetChatHistory *)

Lemma to_mark_set_is_read u r db db' m :
  chats db' = chats db →
  History.to_mark u r db'
    (if History.to_mark u r db m then History.set_is_read m else m) = false.
Proof.
  intros Hc. destruct (History.to_mark u r db m) eqn:Hm.
  - unfold History.to_mark. simpl. apply andb_false_r.
  - unfold History.to_mark in *. by rewrite Hc.
Qed.

(** X10. What reading the history of a pair does to the store: the chats
    and every column of every message other than [is_read] stay as they
    are; a flag only ever goes from unread to read, and only on a message
    of a chat of the pair that the caller did not send; afterwards every
    such message is read; and a second call changes nothing more. *)
Theorem GetChatHistory_marks_incoming_messages_read u r db :
  let db' := (History.GetChatHistory u r db).2 in
  chats db' = chats db
  ∧ length (messages db') = length (messages db)
  ∧ (∀ i m', messages db' !! i = Some m' →
       ∃ m, messages db !! i = Some m
         ∧ History.set_is_read m' = History.set_is_read m
         ∧ (msg_is_read m' ≠ msg_is_read m →
            msg_is_read m = false ∧ msg_is_read m' = true
            ∧ msg_sender_id m ≠ u
            ∧ ∃ c, c ∈ chats db ∧ chat_id c = msg_chat_id m
                   ∧ pair_where u r c = true))
  ∧ (∀ m' c, m' ∈ messages db' → c ∈ chats db →
       chat_id c = msg_chat_id m' → pair_where u r c = true →
       msg_sender_id m' ≠ u → msg_is_read m' = true)
  ∧ (History.GetChatHistory u r db').2 = db'.
Proof.
  simpl. split; [done|]. split; [by rewrite length_fmap|]. split; [|split].
  - intros i m'. rewrite list_lookup_fmap.
    destruct (messages db !! i) as [m|]; [|done]. simpl. intros [= <-].
    exists m. split; [done|]. destruct (History.to_mark u r db m) eqn:Hmark.
    + split; [done|]. intros _. unfold History.to_mark in Hmark.
      apply andb_prop in Hmark as [[Hex Hs]%andb_prop Hr].
      apply negb_true_iff in Hr, Hs. apply Z.eqb_neq in Hs.
      apply existsb_exists in Hex as (c & Hc & [Hid%Z.eqb_eq Hp]%andb_prop).
      repeat split; try done. exists c. by rewrite list_elem_of_In.
    + by split.
  - intros m' c Hm' Hc Hid Hp Hs.
    apply list_elem_of_fmap in Hm' as (m & -> & Hm).
    destruct (History.to_mark u r db m) eqn:Hmark; [done|].
    unfold History.to_mark in Hmark.
    assert (existsb (λ c, (msg_chat_id m =? chat_id c) && pair_where u r c) (chats db)
            = true) as Hex.
    { apply existsb_exists. exists c. rewrite <- list_elem_of_In. split; [done|].
      by rewrite Hid, Z.eqb_refl, Hp. }
    apply Z.eqb_neq in Hs. rewrite Hex, Hs in Hmark. simpl in Hmark.
    by apply negb_false_iff in Hmark.
  - unfold History.mark_read. simpl. f_equal.
    rewrite <- list_fmap_compose. apply list_fmap_ext. intros i m _. simpl.
    by rewrite to_mark_set_is_read.
Qed.

(** X11. The rows of the history of a pair: one row for each message of
    each chat of the pair, and for a chat of the pair without any message
    one row all the same, with message id 0, empty text, time and date, and
    the flag unread. *)
Theorem history_rows u r db row :
  row ∈ History.select_history u r db ↔
  ∃ c, c ∈ chats db ∧ pair_where u r c = true
    ∧ ((∃ m, m ∈ messages db ∧ msg_chat_id m = chat_id c
             ∧ row = History.history_row c (Some m))
       ∨ ((∀ m, m ∈ messages db → msg_chat_id m ≠ chat_id c)
          ∧ row = History.history_row c None)).
Proof.
  unfold History.select_history. rewrite list_elem_of_In, in_flat_map.
  assert (∀ c, In row (History.left_join c (messages db)) ↔
    (∃ m, m ∈ messages db ∧ msg_chat_id m = chat_id c
          ∧ row = History.history_row c (Some m))
    ∨ ((∀ m, m ∈ messages db → msg_chat_id m ≠ chat_id c)
       ∧ row = History.history_row c None)) as Hjoin.
  { intros c. unfold History.left_join.
    destruct (List.filter _ (messages db)) as [|m0 ms] eqn:Hfilter.
    - assert (∀ m, m ∈ messages db → msg_chat_id m ≠ chat_id c) as Hnone.
      { intros m Hm Heq.
        assert (In m (List.filter (λ m, msg_chat_id m =? chat_id c) (messages db)))
          as Hin.
        { apply List.filter_In. split; [by apply list_elem_of_In|by apply Z.eqb_eq]. }
        by rewrite Hfilter in Hin. }
      simpl. split.
      + intros [<-|[]]. by right.
      + intros [(m & Hm & Heq & _)|[_ ->]]; [by destruct (Hnone m Hm)|by left].
    - rewrite <- Hfilter. rewrite <- list_elem_of_In, list_elem_of_fmap. split.
      + intros (m & -> & Hm). left. exists m.
        apply list_elem_of_In, List.filter_In in Hm as [Hm Heq%Z.eqb_eq].
        by rewrite list_elem_of_In.
      + intros [(m & Hm & Heq & ->)|[Hnone _]].
        * exists m. split; [done|]. apply list_elem_of_In, List.filter_In.
          split; [by apply list_elem_of_In|by apply Z.eqb_eq].
        * assert (In m0 (List.filter (λ m, msg_chat_id m =? chat_id c) (messages db)))
            as Hin by (rewrite Hfilter; by left).
          apply List.filter_In in Hin as [Hin Heq%Z.eqb_eq].
          destruct (Hnone m0); [by apply list_elem_of_In|done]. }
  split.
  - intros (c & [Hc Hp]%List.filter_In & Hrow%Hjoin).
    exists c. by rewrite list_elem_of_In.
  - intros (c & Hc & Hp & Hrow). exists c. split.
    + apply List.filter_In. by rewrite <- list_elem_of_In.
    + by apply Hjoin.
Qed.

(** *** The handler CreateChat *)

(** X12. The HTTP handler creates or returns a chat only for a caller who
    is one of exactly two participants: for any other request it sends no
    statement to the store and answers 401, 400 or 403.  A call that runs
    alone, from its first statement to its last, never touches [messages]
    and at most appends to [chats]; and if the store is healthy and serves
    both statements of the call on one connection, the answer for [a; b] is
    the id of the first chat of the pair, which is created if there was
    none, the same whichever participant asks and in whichever order. *)
Theorem CreateChat_handler_is_for_participants claims body db :
  ((∃ UserID a b, claims = Some UserID ∧ body = Some [a; b]
                  ∧ (UserID = a ∨ UserID = b))
   ∨ ∃ status text,
       Handlers.CreateChat claims body = Ret (Handlers.HttpError status text)
       ∧ (status = 401 ∨ status = 400 ∨ status = 403))
  ∧ messages (Handlers.CreateChat claims body db).2 = messages db
  ∧ chats db `prefix_of` chats (Handlers.CreateChat claims body db).2
  ∧ (faults db = [] → pool db = [] → ∀ UserID a b,
       claims = Some UserID → body = Some [a; b] → UserID = a ∨ UserID = b →
       ∃ id db',
         Handlers.CreateChat claims body db = (Handlers.HttpCreated id [a; b], db')
         ∧ select_chat_ids a b db' = select_chat_ids a b db ++
             (if select_chat_ids a b db is [] then [id] else [])
         ∧ head (select_chat_ids a b db') = Some id
         ∧ head (select_chat_ids b a db') = Some id).
Proof.
  assert (∀ UserID p0 p1,
    Handlers.CreateChat (Some UserID) (Some [p0; p1]) db
    = if negb (UserID =? p0) && negb (UserID =? p1)
      then (Handlers.HttpError 403 "Unauthorized: You must be one of the participants", db)
      else match Models.CreateChat p0 p1 db with
           | (inl _, db') => (Handlers.HttpError 500 "Failed to create chat", db')
           | (inr chatID, db') => (Handlers.HttpCreated chatID [p0; p1], db')
           end) as Halone.
  { intros UserID p0 p1. unfold Handlers.CreateChat.
    destruct (negb _ && negb _); [done|]. rewrite alone_bind.
    by destruct (Models.CreateChat p0 p1 db) as [[e|id] db']. }
  assert (∀ p0 p1, messages (Models.CreateChat p0 p1 db).2 = messages db
                   ∧ chats db `prefix_of` chats (Models.CreateChat p0 p1 db).2)
    as Hcreate.
  { intros p0 p1. destruct (Models.CreateChat p0 p1 db) as [res db'] eqn:Hc.
    split; [by eapply CreateChat_messages|]. simpl.
    apply CreateChat_cases in Hc as [->|(_ & ->)]; [done|by apply prefix_app_r]. }
  split; [|split; [|split]].
  - destruct claims as [UserID|]; [|right; by eauto 10].
    destruct body as [participants|]; [|right; by eauto 10].
    destruct participants as [|p0 [|p1 [|p2 ps]]]; try (right; by eauto 10).
    destruct (Z.eqb_spec UserID p0) as [Hp0|Hp0]; [left; by eauto 10|].
    destruct (Z.eqb_spec UserID p1) as [Hp1|Hp1]; [left; by eauto 10|].
    right. eexists 403, _. split; [|by auto]. unfold Handlers.CreateChat.
    destruct (Z.eqb_spec UserID p0); [done|]. by destruct (Z.eqb_spec UserID p1).
  - destruct claims as [UserID|]; [|done]. destruct body as [participants|]; [|done].
    destruct participants as [|p0 [|p1 [|p2 ps]]]; try done.
    rewrite Halone. destruct (negb _ && negb _); [done|].
    destruct (Hcreate p0 p1) as [Hm _].
    by destruct (Models.CreateChat p0 p1 db) as [[e|id] db'].
  - destruct claims as [UserID|]; [|done]. destruct body as [participants|]; [|done].
    destruct participants as [|p0 [|p1 [|p2 ps]]]; try done.
    rewrite Halone. destruct (negb _ && negb _); [done|].
    destruct (Hcreate p0 p1) as [_ Hc].
    by destruct (Models.CreateChat p0 p1 db) as [[e|id] db'].
  - intros Hf Hp UserID a b -> -> Hor. rewrite Halone.
    assert (negb (UserID =? a) && negb (UserID =? b) = false) as ->.
    { destruct Hor as [->| ->]; rewrite Z.eqb_refl; [done|apply andb_false_r]. }
    destruct (select_chat_ids a b db) as [|id rest] eqn:Hsel.
    + rewrite CreateChat_healthy_new by done. eexists _, _. split; [done|].
      rewrite (select_chat_ids_sym b a).
      rewrite (select_chat_ids_chats a b (insert_chat (mkChatRow (chats_auto_increment db) a b) db))
        by done.
      rewrite select_chat_ids_insert, Hsel. simpl.
      unfold pair_where. simpl. by rewrite !Z.eqb_refl.
    + erewrite CreateChat_healthy_existing by done. eexists _, _. split; [done|].
      rewrite (select_chat_ids_sym b a).
      rewrite (select_chat_ids_chats a b db) by done.
      rewrite Hsel, app_nil_r. done.
Qed.

End StoreTraffic.

(** ** The date helpers *)

Section Dates.
Context `{External}.
Import GoStrings UtilsMore.

Lemma Atoi_range s n : Atoi s = Some n → - 2 ^ 63 ≤ n < 2 ^ 63.
Proof.
  unfold Atoi.
  destruct (let '(neg, ds) := _ in _) eqn:Heq; [|done].
  revert Heq. repeat case_match; try done; intros [= <-] [= <-]; lia.
Qed.

Lemma parseSolarDate_bounds date y m d :
  Utils.parseSolarDate date = inr (y, m, d) →
  1 ≤ y < 2 ^ 63 ∧ 1 ≤ m ≤ 12 ∧ 1 ≤ d ≤ 31.
Proof.
  unfold Utils.parseSolarDate.
  destruct (Split (TrimSpace date) "-") as [|p0 [|p1 [|p2 [|p3 ps]]]]; try done.
  destruct (Atoi p0) as [year|] eqn:Hy; [|done].
  destruct (Z.ltb_spec year 1); [done|].
  destruct (Atoi p1) as [month|]; [|done].
  destruct (Z.ltb_spec month 1); [done|]. destruct (Z.ltb_spec 12 month); [done|].
  destruct (Atoi p2) as [day|]; [|done].
  destruct (Z.ltb_spec day 1); [done|]. destruct (Z.ltb_spec 31 day); [done|].
  simpl. intros [= <- <- <-]. apply Atoi_range in Hy. lia.
Qed.

(** X13. [SolarToGregorian] fails exactly when [parseSolarDate] fails, and
    with the same error: its own checks of the month and the day never
    fire.  When the date parses, the year is at least 1, the month is
    between 1 and 12, the day between 1 and 31 (whatever the month), and
    the result is the calendar's date for these three numbers. *)
Theorem SolarToGregorian_fails_only_in_parseSolarDate date :
  match Utils.parseSolarDate date with
  | inl err =>
      Utils.SolarToGregorian date = inl err ∧ IsSolarDateValid date = false
  | inr (y, m, d) =>
      1 ≤ y < 2 ^ 63 ∧ 1 ≤ m ≤ 12 ∧ 1 ≤ d ≤ 31
      ∧ Utils.SolarToGregorian date = inr (ptime_Date y m d)
      ∧ IsSolarDateValid date = true
  end.
Proof.
  unfold Utils.SolarToGregorian, IsSolarDateValid.
  destruct (Utils.parseSolarDate date) as [err|[[y m] d]] eqn:Hparse; [done|].
  destruct (parseSolarDate_bounds date y m d Hparse) as (Hy & Hm & Hd).
  repeat split; try lia.
  destruct (Z.ltb_spec m 1); [lia|]. destruct (Z.ltb_spec 12 m); [lia|].
  destruct (Z.ltb_spec d 1); [lia|]. destruct (Z.ltb_spec 31 d); [lia|]. done.
Qed.

Lemma rank_valid date ymd :
  Utils.parseSolarDate date = inr ymd → rank date = ordinal ymd.
Proof. unfold rank. by intros ->. Qed.

(** On dates that parse, the comparison is the sign of the difference of
    their ordinals. *)
Lemma CompareSolarDates_valid date1 date2 ymd1 ymd2 :
  Utils.parseSolarDate date1 = inr ymd1 →
  Utils.parseSolarDate date2 = inr ymd2 →
  CompareSolarDates date1 date2 = inr (Z.sgn (ordinal ymd1 - ordinal ymd2)).
Proof.
  intros H1 H2. unfold CompareSolarDates. rewrite H1, H2.
  destruct ymd1 as [[y1 m1] d1], ymd2 as [[y2 m2] d2].
  apply parseSolarDate_bounds in H1, H2. f_equal. unfold ordinal.
  repeat case_match; rewrite ?Z.ltb_lt, ?Z.ltb_ge in *; lia.
Qed.

(** X14. [CompareSolarDates] on two dates.  It fails exactly when one of
    them does not parse, with the error of the first that does not.  On
    dates that parse the result is -1, 0 or 1; swapping the dates negates
    it; it is 0 exactly when the two strings parse to the same year, month
    and day (however they are written); and "not after" is transitive. *)
Theorem CompareSolarDates_orders_the_dates date1 date2 :
  match Utils.parseSolarDate date1, Utils.parseSolarDate date2 with
  | inl err, _ => CompareSolarDates date1 date2 = inl err
  | inr _, inl err => CompareSolarDates date1 date2 = inl err
  | inr ymd1, inr ymd2 =>
      ∃ res, CompareSolarDates date1 date2 = inr res
        ∧ (res = -1 ∨ res = 0 ∨ res = 1)
        ∧ CompareSolarDates date2 date1 = inr (- res)
        ∧ (res = 0 ↔ ymd1 = ymd2)
        ∧ ∀ date3 res', CompareSolarDates date2 date3 = inr res' →
            res ≤ 0 → res' ≤ 0 →
            ∃ res'', CompareSolarDates date1 date3 = inr res'' ∧ res'' ≤ 0
  end.
Proof.
  destruct (Utils.parseSolarDate date1) as [e1|ymd1] eqn:H1.
  { unfold CompareSolarDates. by rewrite H1. }
  destruct (Utils.parseSolarDate date2) as [e2|ymd2] eqn:H2.
  { unfold CompareSolarDates. rewrite H1, H2. by destruct ymd1 as [[? ?] ?]. }
  eexists. split; [by apply CompareSolarDates_valid|].
  split; [lia|]. split; [|split].
  - rewrite (CompareSolarDates_valid date2 date1 ymd2 ymd1) by done. f_equal. lia.
  - destruct ymd1 as [[y1 m1] d1] eqn:E1, ymd2 as [[y2 m2] d2] eqn:E2.
    pose proof (parseSolarDate_bounds _ _ _ _ H1).
    pose proof (parseSolarDate_bounds _ _ _ _ H2).
    unfold ordinal. split.
    + intros Hs. assert (y1 = y2 ∧ m1 = m2 ∧ d1 = d2) as (-> & -> & ->) by lia. done.
    + intros [= -> -> ->]. lia.
  - intros date3 res' H23 Hle Hle'.
    destruct (Utils.parseSolarDate date3) as [e3|ymd3] eqn:H3.
    { unfold CompareSolarDates in H23. rewrite H2, H3 in H23.
      by destruct ymd2 as [[? ?] ?]. }
    rewrite (CompareSolarDates_valid date2 date3 ymd2 ymd3) in H23 by done.
    injection H23 as <-.
    eexists. split; [by apply CompareSolarDates_valid|]. lia.
Qed.

End Dates.

(** ** Sorting dates *)

Section Sorting.
Import GoStrings UtilsMore.

Lemma insert_swap_head {A} (l : list A) j a b :
  l !! j = Some b → b :: <[j:=a]> l ≡ₚ a :: l.
Proof.
  revert j. induction l as [|y l IH]; intros [|j] Hj; simplify_eq/=.
  - apply Permutation_swap.
  - rewrite (Permutation_swap y b). rewrite (IH j Hj). apply Permutation_swap.
Qed.

Lemma insert_swap_Permutation {A} (l : list A) i j a b :
  i ≠ j → l !! i = Some a → l !! j = Some b →
  <[i:=b]> (<[j:=a]> l) ≡ₚ l.
Proof.
  revert i j. induction l as [|y l IH]; intros [|i] [|j] Hij Hi Hj;
    simplify_eq/=.
  - by apply insert_swap_head.
  - by apply insert_swap_head.
  - f_equiv. apply IH; [lia|done..].
Qed.

Lemma valid_parses date :
  IsSolarDateValid date = true → ∃ ymd, Utils.parseSolarDate date = inr ymd.
Proof.
  unfold IsSolarDateValid.
  destruct (Utils.parseSolarDate date) as [|ymd]; [done|]. by exists ymd.
Qed.

Lemma CompareSolarDates_rank a b :
  IsSolarDateValid a = true → IsSolarDateValid b = true →
  CompareSolarDates a b = inr (Z.sgn (rank a - rank b)).
Proof.
  intros [ka Ha]%valid_parses [kb Hb]%valid_parses.
  rewrite (rank_valid a ka Ha), (rank_valid b kb Hb).
  by apply CompareSolarDates_valid.
Qed.

Lemma CompareSolarDates_inr a b res :
  CompareSolarDates a b = inr res →
  IsSolarDateValid a = true ∧ IsSolarDateValid b = true.
Proof.
  unfold CompareSolarDates, IsSolarDateValid.
  destruct (Utils.parseSolarDate a) as [|[[? ?] ?]]; [done|].
  by destruct (Utils.parseSolarDate b) as [|[[? ?] ?]].
Qed.

(** Whatever happens, the loops only ever exchange two entries. *)
Lemma sort_inner_Permutation todo : ∀ i j l,
  (i < j)%nat → (sort_inner todo i j l).2 ≡ₚ l.
Proof.
  induction todo as [|todo IH]; intros i j l Hij; simpl; [done|].
  destruct (l !! i) as [a|] eqn:Hi; [|done].
  destruct (l !! j) as [b|] eqn:Hj; [|done].
  destruct (CompareSolarDates a b) as [err|res]; [done|].
  rewrite IH by lia. destruct (0 <? res); [|done].
  apply insert_swap_Permutation; [lia|done..].
Qed.

Lemma sort_outer_Permutation todo : ∀ i l, (sort_outer todo i l).2 ≡ₚ l.
Proof.
  induction todo as [|todo IH]; intros i l; simpl; [done|].
  pose proof (sort_inner_Permutation (length l - S i) i (S i) l) as Hin.
  destruct (sort_inner (length l - S i) i (S i) l) as [[err|] l1]; simpl in *.
  - apply Hin. lia.
  - rewrite IH. apply Hin. lia.
Qed.

(** One run of the inner loop on valid dates: it ends without an error, keeps
    the entries before [i], and leaves at [i] an entry that is not after any
    later one. *)
Lemma sort_inner_valid todo : ∀ i j l,
  Forall (λ d, IsSolarDateValid d = true) l →
  (i < j)%nat → (j + todo = length l)%nat →
  (∀ k a b, (i < k < j)%nat → l !! i = Some a → l !! k = Some b →
     rank a ≤ rank b) →
  ∃ l', sort_inner todo i j l = (None, l')
    ∧ Forall (λ d, IsSolarDateValid d = true) l'
    ∧ (∀ p, (p < i)%nat → l' !! p = l !! p)
    ∧ (∀ k a b, (i < k)%nat → l' !! i = Some a → l' !! k = Some b →
         rank a ≤ rank b)
    ∧ (∀ q b, (i ≤ q)%nat → l' !! q = Some b →
         ∃ q', (i ≤ q')%nat ∧ l !! q' = Some b).
Proof.
  induction todo as [|todo IH]; intros i j l Hvalid Hij Hlen Hmin; simpl.
  { exists l. repeat split; try done.
    - intros k a b Hk Ha Hb. apply (Hmin k a b); [|done..].
      apply lookup_lt_Some in Hb. lia.
    - intros q b Hq Hb. by exists q. }
  destruct (lookup_lt_is_Some_2 l i) as [a Ha]; [lia|].
  destruct (lookup_lt_is_Some_2 l j) as [b Hb]; [lia|].
  rewrite Ha, Hb.
  pose proof (Forall_lookup_1 _ _ _ _ Hvalid Ha) as Hva.
  pose proof (Forall_lookup_1 _ _ _ _ Hvalid Hb) as Hvb. simpl in Hva, Hvb.
  rewrite (CompareSolarDates_rank a b Hva Hvb).
  destruct (Z.ltb_spec 0 (Z.sgn (rank a - rank b))) as [Hgt|Hle].
  - assert (rank b < rank a) as Hlt by lia.
    assert (<[i:=b]> (<[j:=a]> l) !! i = Some b) as Hi1.
    { apply list_lookup_insert_eq. rewrite length_insert. lia. }
    assert (∀ k, k ≠ i → k ≠ j → <[i:=b]> (<[j:=a]> l) !! k = l !! k) as Hk1.
    { intros k Hki Hkj. by rewrite !list_lookup_insert_ne by done. }
    assert (<[i:=b]> (<[j:=a]> l) !! j = Some a) as Hj1.
    { rewrite list_lookup_insert_ne by lia.
      apply list_lookup_insert_eq. lia. }
    destruct (IH i (S j) (<[i:=b]> (<[j:=a]> l)))
      as (l' & Hrun & Hvalid' & Hbefore & Hmin' & Hfrom).
    + by repeat apply Forall_insert.
    + lia.
    + rewrite !length_insert. lia.
    + intros k a' b' Hk Ha' Hb'. rewrite Hi1 in Ha'. injection Ha' as <-.
      destruct (decide (k = j)) as [->|Hkj].
      * rewrite Hj1 in Hb'. injection Hb' as <-. lia.
      * rewrite Hk1 in Hb' by lia.
        pose proof (Hmin k a b' ltac:(lia) Ha Hb'). lia.
    + exists l'. split; [done|]. split; [done|]. split; [|split; [done|]].
      * intros p Hp. rewrite Hbefore by done. apply Hk1; lia.
      * intros q b' Hq Hb'. destruct (Hfrom q b' Hq Hb') as (q' & Hq' & Hb1).
        destruct (decide (q' = i)) as [->|Hqi].
        { rewrite Hi1 in Hb1. injection Hb1 as <-. exists j. split; [lia|done]. }
        destruct (decide (q' = j)) as [->|Hqj].
        { rewrite Hj1 in Hb1. injection Hb1 as <-. exists i. split; [lia|done]. }
        rewrite Hk1 in Hb1 by done. by exists q'.
  - destruct (IH i (S j) l) as (l' & Hrun & Hrest); [done|lia|lia| |].
    + intros k a' b' Hk Ha' Hb'. destruct (decide (k = j)) as [->|Hkj].
      * rewrite Ha in Ha'. rewrite Hb in Hb'. simplify_eq. lia.
      * apply (Hmin k a' b'); [lia|done..].
    + by exists l'.
Qed.

Lemma sort_outer_valid todo : ∀ i l,
  Forall (λ d, IsSolarDateValid d = true) l →
  (i + todo = length l)%nat →
  (∀ p q a b, (p < i)%nat → (p < q)%nat →
     l !! p = Some a → l !! q = Some b → rank a ≤ rank b) →
  ∃ l', sort_outer todo i l = (None, l')
    ∧ Forall (λ d, IsSolarDateValid d = true) l'
    ∧ ∀ p q a b, (p < q)%nat →
        l' !! p = Some a → l' !! q = Some b → rank a ≤ rank b.
Proof.
  induction todo as [|todo IH]; intros i l Hvalid Hlen Hsorted; simpl.
  { exists l. repeat split; try done.
    intros p q a b Hpq Ha Hb. apply (Hsorted p q a b); [|done..].
    apply lookup_lt_Some in Hb. lia. }
  destruct (sort_inner_valid (length l - S i) i (S i) l)
    as (l1 & Hrun & Hvalid1 & Hbefore & Hmin & Hfrom); [done|lia|lia| |].
  { intros k a b Hk. lia. }
  rewrite Hrun.
  assert (length l1 = length l) as Hlen1.
  { pose proof (sort_inner_Permutation (length l - S i) i (S i) l) as Hp.
    rewrite Hrun in Hp. simpl in Hp. rewrite Hp; [done|lia]. }
  apply IH; [done|lia|].
  intros p q a b Hp Hpq Ha Hb.
  destruct (decide (p = i)) as [->|Hpi]; [by apply (Hmin q a b)|].
  rewrite Hbefore in Ha by lia.
  destruct (decide (q < i)%nat) as [Hq|Hq].
  - rewrite Hbefore in Hb by done. apply (Hsorted p q a b); [lia|done..].
  - destruct (Hfrom q b ltac:(lia) Hb) as (q' & Hq' & Hb').
    apply (Hsorted p q' a b); [lia|lia|done..].
Qed.

(** When the inner loop ends without an error, it has parsed the entry at
    [i] and every entry from [j] on. *)
Lemma sort_inner_None todo : ∀ i j l l',
  sort_inner todo i j l = (None, l') →
  (i < j)%nat → (j + todo = length l)%nat →
  ((0 < todo)%nat → ∀ a, l !! i = Some a → IsSolarDateValid a = true)
  ∧ ∀ k b, (j ≤ k)%nat → l !! k = Some b → IsSolarDateValid b = true.
Proof.
  induction todo as [|todo IH]; intros i j l l' Hrun Hij Hlen; simpl in Hrun.
  { split; [lia|]. intros k b Hk Hb. apply lookup_lt_Some in Hb. lia. }
  destruct (lookup_lt_is_Some_2 l i) as [a Ha]; [lia|].
  destruct (lookup_lt_is_Some_2 l j) as [b Hb]; [lia|].
  rewrite Ha, Hb in Hrun.
  destruct (CompareSolarDates a b) as [err|res] eqn:Hcmp; [done|].
  destruct (CompareSolarDates_inr a b res Hcmp) as [Hva Hvb].
  split. { intros _ a' Ha'. by simplify_eq. }
  intros k b' Hk Hb'. destruct (decide (k = j)) as [->|Hkj]; [by simplify_eq|].
  apply IH in Hrun as [_ Hrest]; [|lia|].
  - apply (Hrest k b'); [lia|].
    destruct (0 <? res); [|done].
    by rewrite !list_lookup_insert_ne by lia.
  - destruct (0 <? res); rewrite ?length_insert; lia.
Qed.

(** X15. On a slice of dates that all parse, [SortSolarDates] returns no
    error and leaves the slice a rearrangement of what it was, in ascending
    order: no entry is after a later one by [CompareSolarDates]. *)
Theorem SortSolarDates_sorts_valid_dates (dates : list string)
    (Hvalid : Forall (λ d, IsSolarDateValid d = true) dates) :
  ∃ sorted, SortSolarDates dates = (None, sorted)
    ∧ sorted ≡ₚ dates
    ∧ ∀ p q a b, (p < q)%nat → sorted !! p = Some a → sorted !! q = Some b →
        ∃ res, CompareSolarDates a b = inr res ∧ res ≤ 0.
Proof.
  destruct (sort_outer_valid (length dates) 0 dates)
    as (sorted & Hrun & Hvalid' & Hsorted); [done|lia| |].
  { intros p q a b Hp. lia. }
  exists sorted. split; [done|]. split.
  { pose proof (sort_outer_Permutation (length dates) 0 dates) as Hp.
    by rewrite Hrun in Hp. }
  intros p q a b Hpq Ha Hb.
  pose proof (Forall_lookup_1 _ _ _ _ Hvalid' Ha) as Hva.
  pose proof (Forall_lookup_1 _ _ _ _ Hvalid' Hb) as Hvb. simpl in Hva, Hvb.
  eexists. split; [by apply CompareSolarDates_rank|].
  pose proof (Hsorted p q a b Hpq Ha Hb). lia.
Qed.

(** X16. [SortSolarDates] returns an error exactly when the slice has at
    least two entries and one of them does not parse: a slice of one entry
    is never checked.  With or without an error, the slice is left a
    rearrangement of what it was. *)
Theorem SortSolarDates_fails_on_an_invalid_date (dates : list string) :
  (SortSolarDates dates).2 ≡ₚ dates
  ∧ ((SortSolarDates dates).1 = None ↔
       (length dates ≤ 1)%nat
       ∨ Forall (λ d, IsSolarDateValid d = true) dates).
Proof.
  split; [apply sort_outer_Permutation|]. split.
  - intros Hnone. destruct dates as [|a [|b rest]]; [left; simpl; lia..|].
    right. unfold SortSolarDates in Hnone.
    change (sort_outer (length (a :: b :: rest)) 0 (a :: b :: rest))
      with (match sort_inner (length (a :: b :: rest) - 1) 0 1 (a :: b :: rest)
            with
            | (Some err, dates') => (Some err, dates')
            | (None, dates') =>
                sort_outer (length (b :: rest)) 1 dates'
            end) in Hnone.
    destruct (sort_inner _ 0 1 (a :: b :: rest)) as [[err|] l1] eqn:Hin;
      [done|].
    apply sort_inner_None in Hin as [Hhead Htail]; [|lia|simpl; lia].
    apply Forall_lookup. intros [|k] d Hd.
    + apply Hhead; [simpl; lia|done].
    + apply (Htail (S k)); [lia|done].
  - intros [Hlen|Hvalid].
    + by destruct dates as [|a [|b rest]]; [..|simpl in Hlen; lia].
    + destruct (sort_outer_valid (length dates) 0 dates)
        as (sorted & Hrun & _); [done|lia| |].
      { intros p q a b Hp. lia. }
      unfold SortSolarDates. by rewrite Hrun.
Qed.

End Sorting.

(** ** Writing a date and reading it back *)

Section Formatting.
Import GoStrings UtilsMore.

Lemma digit_digit_char d : 0 ≤ d ≤ 9 → digit (digit_char d) = Some d.
Proof.
  intros Hd.
  assert (d = 0 ∨ d = 1 ∨ d = 2 ∨ d = 3 ∨ d = 4 ∨ d = 5 ∨ d = 6 ∨ d = 7
          ∨ d = 8 ∨ d = 9) as Hcases by lia.
  repeat destruct Hcases as [->|Hcases]; try reflexivity. by subst.
Qed.

Lemma digit_code a : is_Some (digit a) → 48 ≤ code a ≤ 57.
Proof.
  unfold digit. intros [d Hd].
  destruct (Z.leb_spec 48 (code a)), (Z.leb_spec (code a) 57);
    simpl in Hd; try done.
Qed.

Lemma digit_no_sign a : is_Some (digit a) → a ≠ "-"%char ∧ a ≠ "+"%char.
Proof.
  intros Hd%digit_code. split; intros ->; vm_compute in Hd; destruct Hd; done.
Qed.

Lemma digit_no_space a :
  is_Some (digit a) →
  space1 a = false
  ∧ ∀ b c, space2 a b = false ∧ space3 a b c = false
           ∧ space2 b a = false ∧ space3 c b a = false.
Proof.
  intros Hd%digit_code.
  split; [|intros b c; repeat split];
    unfold space1, space2, space3; apply not_true_is_false; intros Hs;
    rewrite ?orb_true_iff, ?andb_true_iff, ?Z.eqb_eq, ?Z.leb_le in Hs; lia.
Qed.

Lemma trim_left_digit a l : is_Some (digit a) → trim_left (a :: l) = a :: l.
Proof.
  intros [Hs Hrest]%digit_no_space. simpl. rewrite Hs.
  destruct l as [|b [|c l]]; [done| |].
  - by rewrite (proj1 (Hrest b b)).
  - destruct (Hrest b c) as (-> & -> & _). done.
Qed.

Lemma trim_left_rev_digit a l :
  is_Some (digit a) → trim_left_rev (a :: l) = a :: l.
Proof.
  intros [Hs Hrest]%digit_no_space. simpl. rewrite Hs.
  destruct l as [|b [|c l]]; [done| |].
  - destruct (Hrest b b) as (_ & _ & -> & _). done.
  - destruct (Hrest b c) as (_ & _ & -> & ->). done.
Qed.

(** A string that starts and ends with a digit has nothing to trim. *)
Lemma TrimSpace_digits a l z :
  is_Some (digit a) → last (a :: l) = Some z → is_Some (digit z) →
  TrimSpace (string_of_list_ascii (a :: l)) = string_of_list_ascii (a :: l).
Proof.
  intros Ha Hlast Hz. unfold TrimSpace.
  rewrite list_ascii_of_string_of_list_ascii, trim_left_digit by done.
  destruct (a :: l) as [|x l' _] using rev_ind; [done|].
  rewrite last_snoc in Hlast. injection Hlast as ->.
  rewrite rev_app_distr. change (rev [z] ++ rev l') with (z :: rev l').
  rewrite trim_left_rev_digit by done.
  change (rev (z :: rev l')) with (rev (rev l') ++ [z]).
  by rewrite rev_involutive.
Qed.

Lemma split_go_app sep ds : ∀ cur rest,
  Forall (λ a, a ≠ sep) ds →
  split_go sep cur (ds ++ rest) = split_go sep (rev ds ++ cur) rest.
Proof.
  induction ds as [|a ds IH]; intros cur rest Hds; [done|].
  apply Forall_cons in Hds as [Ha Hds]. simpl.
  rewrite bool_decide_eq_false_2 by done. rewrite IH by done.
  by rewrite <- app_assoc.
Qed.

Lemma split_go_part sep ds rest :
  Forall (λ a, a ≠ sep) ds →
  split_go sep [] (ds ++ sep :: rest)
  = string_of_list_ascii ds :: split_go sep [] rest.
Proof.
  intros Hds. rewrite split_go_app by done. simpl.
  rewrite bool_decide_eq_true_2 by done.
  by rewrite app_nil_r, rev_involutive.
Qed.

Lemma split_go_last sep ds :
  Forall (λ a, a ≠ sep) ds →
  split_go sep [] ds = [string_of_list_ascii ds].
Proof.
  intros Hds. rewrite <- (app_nil_r ds) at 1. rewrite split_go_app by done.
  simpl. by rewrite app_nil_r, rev_involutive.
Qed.

Lemma digits_value_app l1 : ∀ acc l2,
  digits_value acc (l1 ++ l2)
  = match digits_value acc l1 with
    | Some v => digits_value v l2
    | None => None
    end.
Proof.
  induction l1 as [|a l1 IH]; intros acc l2; simpl; [done|].
  destruct (digit a); [apply IH|done].
Qed.

(** The digits that [Sprintf] writes for a number that is not negative are
    decimal digits, at least one, and read back as the number. *)
Lemma decimal_digits_spec fuel : ∀ n acc,
  0 ≤ n < 2 ^ Z.of_nat (S fuel) →
  ∃ ds, decimal_digits (S fuel) n acc = ds ++ acc ∧ ds ≠ []
    ∧ Forall (λ a, is_Some (digit a)) ds
    ∧ ∀ a, digits_value a ds = Some (a * 10 ^ Z.of_nat (length ds) + n).
Proof.
  induction fuel as [|fuel IH]; intros n acc Hn.
  - assert (n < 10) as Hlt by (change (2 ^ Z.of_nat 1) with 2 in Hn; lia).
    simpl. destruct (Z.ltb_spec n 10); [|lia].
    exists [digit_char (n mod 10)]. rewrite Z.mod_small by lia.
    split; [done|]. split; [done|]. split.
    + apply Forall_singleton. rewrite digit_digit_char by lia. by eexists.
    + intros a. simpl. rewrite digit_digit_char by lia. f_equal; lia.
  - change (decimal_digits (S (S fuel)) n acc)
      with (if n <? 10 then digit_char (n mod 10) :: acc
            else decimal_digits (S fuel) (n / 10)
                   (digit_char (n mod 10) :: acc)).
    assert (digit (digit_char (n mod 10)) = Some (n mod 10)) as Hdigit.
    { apply digit_digit_char. pose proof (Z.mod_pos_bound n 10). lia. }
    destruct (Z.ltb_spec n 10).
    + exists [digit_char (n mod 10)].
      split; [done|]. split; [done|]. split.
      * apply Forall_singleton. rewrite Hdigit. by eexists.
      * intros a. simpl. rewrite Hdigit. rewrite Z.mod_small by lia.
        f_equal; lia.
    + destruct (IH (n / 10) (digit_char (n mod 10) :: acc))
        as (ds & Hrun & Hne & Hdigits & Hvalue).
      { split; [apply Z.div_pos; lia|].
        apply Z.div_lt_upper_bound; [lia|].
        rewrite (Nat2Z.inj_succ (S fuel)), Z.pow_succ_r in Hn by lia. lia. }
      exists (ds ++ [digit_char (n mod 10)]). split.
      { rewrite Hrun. by rewrite <- app_assoc. }
      split. { by destruct ds. }
      split. { apply Forall_app. split; [done|].
               apply Forall_singleton. rewrite Hdigit. by eexists. }
      intros a. rewrite digits_value_app, Hvalue. simpl. rewrite Hdigit.
      f_equal. rewrite length_app. simpl.
      rewrite Nat2Z.inj_add, Z.pow_add_r by lia.
      change (10 ^ Z.of_nat 1) with 10.
      pose proof (Z.div_mod n 10). lia.
Qed.

Lemma digits_value_zeros k : ∀ l,
  digits_value 0 (replicate k "0"%char ++ l) = digits_value 0 l.
Proof. induction k as [|k IH]; intros l; [done|]. simpl. apply IH. Qed.

Lemma zero_padded_spec width n :
  0 ≤ n < 2 ^ 63 →
  Forall (λ a, is_Some (digit a)) (zero_padded width n)
  ∧ zero_padded width n ≠ []
  ∧ Atoi (string_of_list_ascii (zero_padded width n)) = Some n.
Proof.
  intros Hn. unfold zero_padded. destruct (Z.ltb_spec n 0); [lia|].
  rewrite Z.abs_eq by lia. unfold decimal.
  destruct (decimal_digits_spec (Z.to_nat (Z.log2 n)) n [])
    as (ds & Hrun & Hne & Hdigits & Hvalue).
  { split; [lia|]. rewrite Nat2Z.inj_succ, Z2Nat.id by apply Z.log2_nonneg.
    destruct (decide (n = 0)) as [->|]; [done|].
    apply Z.log2_spec. lia. }
  rewrite Hrun, app_nil_r.
  assert (Forall (λ a, is_Some (digit a))
            (replicate (width - length ds) "0"%char ++ ds)) as Hall.
  { apply Forall_app. split; [|done].
    apply Forall_replicate. by eexists. }
  split; [done|]. split. { by destruct ds, (width - _)%nat. }
  unfold Atoi. rewrite list_ascii_of_string_of_list_ascii.
  pose proof (digits_value_zeros (width - length ds) ds) as Hzeros.
  rewrite Hvalue in Hzeros.
  destruct (replicate (width - length ds) "0"%char ++ ds) as [|a l] eqn:Hl.
  { by destruct ds, (width - _)%nat. }
  apply Forall_cons in Hall as [[Hminus Hplus]%digit_no_sign _].
  rewrite !bool_decide_eq_false_2 by done. rewrite Hzeros.
  replace (0 * 10 ^ Z.of_nat (length ds) + n) with n by lia.
  destruct (Z.leb_spec (- 2 ^ 63) n), (Z.ltb_spec n (2 ^ 63)); try lia. done.
Qed.

(** A date written by [Sprintf("%04d-%02d-%02d")] from a year of at least
    1, a month from 1 to 12 and a day from 1 to 31 is read back by
    [parseSolarDate] as the same three numbers. *)
Lemma parseSolarDate_Sprintf_date (year month day : Z)
    (Hyear : 1 ≤ year < 2 ^ 63)
    (Hmonth : 1 ≤ month ≤ 12)
    (Hday : 1 ≤ day ≤ 31) :
  Utils.parseSolarDate (Sprintf_date year month day) = inr (year, month, day).
Proof.
  destruct (zero_padded_spec 4 year) as (Hy & Hyne & Hyv); [lia|].
  destruct (zero_padded_spec 2 month) as (Hm & Hmne & Hmv); [lia|].
  destruct (zero_padded_spec 2 day) as (Hd & Hdne & Hdv); [lia|].
  assert (∀ l, Forall (λ a, is_Some (digit a)) l →
               Forall (λ a, a ≠ "-"%char) l) as Hsep.
  { intros l Hl. eapply Forall_impl; [done|].
    intros a Ha. by apply digit_no_sign. }
  unfold Utils.parseSolarDate, Sprintf_date.
  assert (TrimSpace (string_of_list_ascii
            (zero_padded 4 year ++ "-"%char :: zero_padded 2 month
             ++ "-"%char :: zero_padded 2 day))
          = string_of_list_ascii
            (zero_padded 4 year ++ "-"%char :: zero_padded 2 month
             ++ "-"%char :: zero_padded 2 day)) as ->.
  { destruct (zero_padded 4 year) as [|a ly] eqn:Ey; [done|].
    destruct (zero_padded 2 day) as [|z ld _] eqn:Ed using rev_ind; [done|].
    apply Forall_cons in Hy as [Ha _].
    apply Forall_app in Hd as [_ [Hz _]%Forall_cons].
    assert (last ((a :: ly) ++ "-"%char :: zero_padded 2 month
                  ++ "-"%char :: ld ++ [z]) = Some z) as Hlast.
    { by rewrite last_app_cons, last_cons, last_app_cons, last_cons,
        last_snoc. }
    exact (TrimSpace_digits a _ z Ha Hlast Hz). }
  unfold Split. rewrite list_ascii_of_string_of_list_ascii.
  rewrite split_go_part by auto. rewrite split_go_part by auto.
  rewrite split_go_last by auto.
  rewrite Hyv, Hmv, Hdv.
  destruct (Z.ltb_spec year 1); [lia|].
  destruct (Z.ltb_spec month 1), (Z.ltb_spec 12 month); try lia.
  destruct (Z.ltb_spec day 1), (Z.ltb_spec 31 day); try lia. done.
Qed.

End Formatting.

Section Calendars.
Context `{Calendar}.
Import UtilsMore.

(** X17. When the calendar gives a year of at least 1, a month from 1 to 12
    and a day from 1 to 31 for a time, the string that [GregorianToSolar]
    returns for it is read back by [parseSolarDate] as these three numbers:
    it passes [IsSolarDateValid], and [SolarToGregorian] turns it into the
    calendar's time for the same year, month and day. *)
Theorem SolarToGregorian_accepts_GregorianToSolar (date : GoTime)
    (year month day : Z)
    (Hnew : ptime_New date = (year, month, day))
    (Hyear : 1 ≤ year < 2 ^ 63)
    (Hmonth : 1 ≤ month ≤ 12)
    (Hday : 1 ≤ day ≤ 31) :
  Utils.parseSolarDate (GregorianToSolar date) = inr (year, month, day)
  ∧ IsSolarDateValid (GregorianToSolar date) = true
  ∧ Utils.SolarToGregorian (GregorianToSolar date)
    = inr (ptime_Date year month day).
Proof.
  unfold GregorianToSolar, IsSolarDateValid, Utils.SolarToGregorian.
  rewrite Hnew.
  rewrite (parseSolarDate_Sprintf_date year month day) by done.
  split; [done|]. split; [done|].
  destruct (Z.ltb_spec month 1), (Z.ltb_spec 12 month); try lia.
  destruct (Z.ltb_spec day 1), (Z.ltb_spec 31 day); try lia. done.
Qed.

End Calendars.

(** ** The name and the type of an attached file *)

Section FileNames.
Import GoStrings.

Lemma string_app_cons a (s1 s2 : string) :
  String a s1 +:+ s2 = String a (s1 +:+ s2).
Proof. done. Qed.

Lemma string_app_nil_r (s : string) : s +:+ "" = s.
Proof.
  induction s as [|a s IH]; [done|]. by rewrite string_app_cons, IH.
Qed.

Lemma string_app_assoc (s1 s2 s3 : string) :
  (s1 +:+ s2) +:+ s3 = s1 +:+ (s2 +:+ s3).
Proof.
  induction s1 as [|a s1 IH]; [done|]. by rewrite !string_app_cons, IH.
Qed.

Lemma string_of_list_ascii_app l1 l2 :
  string_of_list_ascii (l1 ++ l2)
  = string_of_list_ascii l1 +:+ string_of_list_ascii l2.
Proof.
  induction l1 as [|a l1 IH]; [done|]. simpl.
  by rewrite string_app_cons, IH.
Qed.

Lemma elem_of_rev {A} (x : A) l : x ∈ rev l ↔ x ∈ l.
Proof. rewrite !list_elem_of_In. symmetry. apply in_rev. Qed.

Lemma split_go_nonempty sep l : ∀ cur, split_go sep cur l ≠ [].
Proof.
  induction l as [|a l IH]; intros cur; simpl; [done|].
  case_bool_decide; [done|apply IH].
Qed.

(** No part holds the separator. *)
Lemma split_go_no_sep sep l : ∀ cur,
  sep ∉ cur →
  Forall (λ p, sep ∉ list_ascii_of_string p) (split_go sep cur l).
Proof.
  induction l as [|a l IH]; intros cur Hcur; simpl.
  - apply Forall_singleton.
    by rewrite list_ascii_of_string_of_list_ascii, elem_of_rev.
  - case_bool_decide as Ha.
    + apply Forall_cons. split.
      * by rewrite list_ascii_of_string_of_list_ascii, elem_of_rev.
      * apply IH. apply not_elem_of_nil.
    + apply IH. rewrite elem_of_cons. intros [->|?]; done.
Qed.

(** A separator in the string gives at least two parts. *)
Lemma split_go_two sep l : ∀ cur,
  sep ∈ l → ∃ p q qs, split_go sep cur l = p :: q :: qs.
Proof.
  induction l as [|a l IH]; intros cur Hin; [by apply elem_of_nil in Hin|].
  simpl. case_bool_decide as Ha.
  - destruct (split_go sep [] l) as [|q qs] eqn:Hrest.
    { by apply split_go_nonempty in Hrest. }
    by eexists _, _, _.
  - apply IH. apply elem_of_cons in Hin as [->|Hin]; done.
Qed.

Lemma Join_cons p q qs sep :
  Join (p :: q :: qs) sep = p +:+ sep +:+ Join (q :: qs) sep.
Proof. done. Qed.

Lemma Join_snoc init x sep :
  init ≠ [] → Join (init ++ [x]) sep = Join init sep +:+ sep +:+ x.
Proof.
  induction init as [|p [|q qs] IH]; intros Hne; [done| |].
  - simpl. by rewrite !string_app_nil_r.
  - change ((p :: q :: qs) ++ [x]) with (p :: (q :: qs) ++ [x]).
    change ((q :: qs) ++ [x]) with (q :: (qs ++ [x])) at 1.
    rewrite Join_cons.
    change (q :: qs ++ [x]) with ((q :: qs) ++ [x]).
    rewrite IH by done. rewrite Join_cons.
    by rewrite !string_app_assoc.
Qed.

(** Joining the parts with the separator gives the string back. *)
Lemma split_go_Join sep l : ∀ cur,
  Join (split_go sep cur l) (String sep "")
  = string_of_list_ascii (rev cur ++ l).
Proof.
  induction l as [|a l IH]; intros cur; simpl.
  - by rewrite string_app_nil_r, app_nil_r.
  - case_bool_decide as Ha.
    + subst a. pose proof (IH []) as Hrest.
      destruct (split_go sep [] l) as [|q qs] eqn:Hsplit.
      { by apply split_go_nonempty in Hsplit. }
      rewrite Join_cons, Hrest. rewrite (string_of_list_ascii_app (rev cur) (sep :: l)).
      reflexivity.
    + rewrite IH. simpl. by rewrite <- app_assoc.
Qed.

Lemma Split_Join s sep : Join (Split s sep) (String sep "") = s.
Proof.
  unfold Split. rewrite split_go_Join. simpl.
  apply string_of_list_ascii_of_string.
Qed.

(** X18. [extractFileNameAndType] looks only at what follows the last
    slash of the URL, the whole URL when it has none.  When that segment
    has no dot, it is the name and the type is empty; otherwise the
    segment is the name, a dot and the type, and the type has no dot: the
    segment is cut at its last dot. *)
Theorem extractFileNameAndType_cuts_at_the_last_dot (url : string) :
  ∃ dir segment,
    url = dir +:+ segment
    ∧ (dir = ""%string ∨ ∃ dir', dir = dir' +:+ "/")
    ∧ ("/"%char ∉ list_ascii_of_string segment)
    ∧ let '(name, type) := extractFileNameAndType url in
      ("."%char ∉ list_ascii_of_string type)
      ∧ (if bool_decide ("."%char ∈ list_ascii_of_string segment)
         then segment = name +:+ "." +:+ type
         else name = segment ∧ type = ""%string).
Proof.
  unfold extractFileNameAndType.
  pose proof (Split_Join url "/") as Hurl.
  pose proof (split_go_no_sep "/" (list_ascii_of_string url) []
                (not_elem_of_nil _)) as Hparts.
  fold (Split url "/") in Hparts.
  destruct (Split url "/") as [|segment init _] eqn:Hsplit using rev_ind.
  { by apply split_go_nonempty in Hsplit. }
  apply Forall_app in Hparts as [_ [Hsegment _]%Forall_cons].
  rewrite last_snoc.
  exists (match init with [] => ""%string | _ => Join init "/" +:+ "/" end),
    segment.
  split; [|split; [|split; [done|]]].
  { destruct init as [|p init]; [simpl in Hurl; by rewrite string_app_nil_r in Hurl|].
    rewrite Join_snoc in Hurl by done. by rewrite string_app_assoc. }
  { destruct init; [by left|right; by eexists]. }
  pose proof (Split_Join segment ".") as Hseg.
  pose proof (split_go_no_sep "." (list_ascii_of_string segment) []
                (not_elem_of_nil _)) as Hfile.
  fold (Split segment ".") in Hfile.
  case_bool_decide as Hdot.
  - destruct (split_go_two "." _ [] Hdot) as (p & q & qs & Hsplit').
    fold (Split segment ".") in Hsplit'.
    destruct (Split segment ".") as [|type finit _] using rev_ind; [done|].
    assert (finit ≠ []) as Hne.
    { intros ->. by destruct qs. }
    apply Forall_app in Hfile as [_ [Htype _]%Forall_cons].
    rewrite length_app. simpl.
    destruct (Nat.ltb_spec (length finit + 1) 2) as [Hlt|_].
    { destruct finit; [done|simpl in Hlt; lia]. }
    replace (length finit + 1 - 1)%nat with (length finit) by lia.
    rewrite take_app_length, last_snoc. simpl.
    split; [done|]. rewrite Join_snoc in Hseg by done. done.
  - unfold Split. rewrite split_go_last.
    + rewrite string_of_list_ascii_of_string. simpl.
      split; [apply not_elem_of_nil|done].
    + apply Forall_forall. intros a Ha ->. done.
Qed.

End FileNames.

(** *** The server on a sample schedule *)

Import Sample SampleServer.

Lemma a_schedule_runs : run a_schedule (boot empty_db) = Ok final_system.
Proof. vm_compute. reflexivity. Defined.

Lemma a_schedule_client_1 : heap (hub_state final_system) !! 1%positive = Some client_1_at_end.
Proof. vm_compute. reflexivity. Defined.

Lemma a_schedule_client_2 : heap (hub_state final_system) !! 2%positive = Some client_2_at_end.
Proof. vm_compute. reflexivity. Defined.

Lemma a_departure_runs : run a_departure (boot empty_db) = Ok after_the_departure.
Proof. vm_compute. reflexivity. Defined.

(** C4 on a run where client 1 leaves and client 2 stays: the channel of
    client 1 was closed once, although its disconnection was asked for
    twice, and that of client 2 was not closed. *)
Lemma unregister_closes_exactly_once_witness :
  run a_departure (boot empty_db) = Ok after_the_departure
  ∧ (1%positive ∉ Clients (hub_state after_the_departure))
  ∧ 2%positive ∈ Clients (hub_state after_the_departure)
  ∧ closes 1%positive (history (hub_state after_the_departure)) = 1%nat
  ∧ closes 2%positive (history (hub_state after_the_departure)) = 0%nat
  ∧ ¬ send_after_close 1%positive (history (hub_state after_the_departure)).
Proof.
  assert (1%positive ∉ Clients (hub_state after_the_departure)) as Hout.
  { apply (bool_decide_unpack _). vm_compute. exact I. }
  assert (2%positive ∈ Clients (hub_state after_the_departure)) as Hin.
  { apply (bool_decide_unpack _). vm_compute. exact I. }
  split; [exact a_departure_runs|]. split; [exact Hout|]. split; [exact Hin|].
  destruct unregister_closes_exactly_once as (_ & _ & Hrun & _).
  destruct (Hrun a_departure empty_db) as (sys & Hsys & Hall).
  rewrite a_departure_runs in Hsys. injection Hsys as <-.
  destruct (Hall 1%positive) as (_ & Hsafe & _ & Honce).
  { apply (bool_decide_unpack _). vm_compute. exact I. }
  destruct (Hall 2%positive) as (_ & _ & Hzero & _).
  { apply (bool_decide_unpack _). vm_compute. exact I. }
  split; [exact (Honce Hout)|]. split; [exact (Hzero Hin)|exact Hsafe].
Defined.

(** C5 fails on the code when the two first messages are concurrent.  Users
    10 and 20 have no chat and each sends the other a first message; the
    statements of the two passes interleave, each pass on a connection of
    its own: both lookups of [ChatExists] find nothing, both calls of the
    procedure CreateChat select before either inserts, and both insert.  The
    store, in which the chats were one per pair, ends with two chat rows for
    the one pair; the message of user 10 is stored in chat 1 and broadcast;
    the message of user 20, stamped with chat 2 while the lookup of
    [AddMessage] finds chat 1, is refused with an error reply, and is neither
    stored nor broadcast.  No transaction, lock or unique key on the pair
    stands between the SELECT and the INSERT. *)
Theorem concurrent_first_messages_make_two_chats :
  one_chat_per_pair two_connections
  ∧ select_chat_ids 10 20 two_connections = []
  ∧ json_Unmarshal frame_10_20 = Some (chat_msg 0 10 20 "1403-05-01")
  ∧ json_Unmarshal frame_20_10 = Some (chat_msg 0 20 10 "1403-05-01")
  ∧ run a_race (boot two_connections) = Ok after_the_race
  ∧ chats (store after_the_race) = [mkChatRow 1 10 20; mkChatRow 2 20 10]
  ∧ select_chat_ids 10 20 (store after_the_race) = [1; 2]
  ∧ ¬ one_chat_per_pair (store after_the_race)
  ∧ messages (store after_the_race)
    = [mkMessageRow 1 1 10 20 "hi" "14:00" None None "2024-07-22" None false]
  ∧ (sock_written ∘ Conn <$> heap (hub_state after_the_race) !! 2%positive
     = Some [JSONValue (mkErrorReply "Failed to send message" (ErrInvalidChatID 2 1))])
  ∧ sent 1%positive (history (hub_state after_the_race)) = [frame_10_20]
  ∧ sent 2%positive (history (hub_state after_the_race)) = [frame_10_20].
Proof.
  split; [intros a b; simpl; lia|].
  split; [reflexivity|]. split; [vm_compute; reflexivity|].
  split; [vm_compute; reflexivity|]. split; [vm_compute; reflexivity|].
  split; [reflexivity|]. split; [reflexivity|].
  split; [|repeat split; vm_compute; reflexivity].
  intros Hone. specialize (Hone 10 20).
  change (select_chat_ids 10 20 (store after_the_race)) with [1; 2] in Hone.
  simpl in Hone. lia.
Qed.

(** X2 on the sample schedule: client 1 has been sent two payloads, has
    written the first and still holds the second. *)
Lemma delivery_is_first_in_first_out_witness :
  run a_schedule (boot empty_db) = Ok final_system
  ∧ heap (hub_state final_system) !! 1%positive = Some client_1_at_end
  ∧ sent 1%positive (history (hub_state final_system)) = [frame_10_20; frame_20_10]
  ∧ [frame_10_20] `prefix_of` sent 1%positive (history (hub_state final_system))
  ∧ (1%positive ∈ writers final_system →
     [frame_10_20] ++ [frame_20_10]
     = sent 1%positive (history (hub_state final_system))).
Proof.
  split; [exact a_schedule_runs|]. split; [exact a_schedule_client_1|].
  split; [vm_compute; reflexivity|].
  exact (delivery_is_first_in_first_out a_schedule empty_db final_system 1%positive
           client_1_at_end a_schedule_runs a_schedule_client_1).
Defined.

(** X3 on the sample schedule: both clients and both stored messages belong
    to users 10 and 20, whose tokens verify. *)
Lemma stored_senders_are_authenticated_witness :
  run a_schedule (boot empty_db) = Ok final_system
  ∧ verified (ID client_2_at_end)
  ∧ length (messages (store final_system)) = 2%nat
  ∧ ∀ row, row ∈ messages (store final_system) →
      row ∈ messages empty_db ∨ verified (msg_sender_id row).
Proof.
  split; [exact a_schedule_runs|].
  destruct (stored_senders_are_authenticated a_schedule empty_db final_system
              a_schedule_runs) as [Hclients Hrows].
  split; [exact (Hclients 2%positive client_2_at_end a_schedule_client_2)|].
  split; [reflexivity|exact Hrows].
Defined.

(** X4 on the sample schedule: the second frame on client 2's socket is the
    frame read from client 2. *)
Lemma delivered_frames_were_received_witness :
  frame_20_10 ∈ texts (sock_written (Conn client_2_at_end))
  ∧ ∃ c', ReadPass c' (ReadFrame frame_20_10) ∈ a_schedule.
Proof.
  assert (frame_20_10 ∈ texts (sock_written (Conn client_2_at_end))) as Hin.
  { apply list_elem_of_further, list_elem_of_here. }
  split; [exact Hin|].
  exact (delivered_frames_were_received a_schedule empty_db final_system 2%positive
           client_2_at_end frame_20_10 a_schedule_runs a_schedule_client_2
           (or_intror Hin)).
Defined.

(** X5 on a client whose channel was closed with two payloads queued: the
    network takes every frame, or refuses the second payload. *)
Lemma writePump_writes_the_queue_in_order_witness :
  sock_closed (Conn closing_client) = false
  ∧ writePump [true; true; true] closing_client
    = (mkClient
         (mkSocket true [TextMessage "a"; TextMessage "b"; TextMessage "c"; CloseMessage])
         (mkChan [] true) 10,
       true)
  ∧ writePump [true; false; true] closing_client
    = (mkClient (mkSocket true [TextMessage "a"; TextMessage "b"]) (mkChan [] true) 10,
       true).
Proof.
  split; [reflexivity|].
  destruct (writePump_writes_the_queue_in_order closing_client eq_refl)
    as [Hall Hrefused].
  split; [exact (Hall true [])|].
  exact (Hrefused 1%nat [true] (Nat.lt_succ_diag_r 1)).
Defined.

(** X6 on a client whose socket is closed: payload "b" is taken and lost. *)
Lemma writePump_on_a_closed_socket_witness :
  sock_closed (Conn dead_client) = true
  ∧ sock_written (Conn (writePump [true; true; true] dead_client).1) = [TextMessage "a"]
  ∧ buf (send (writePump [true; true; true] dead_client).1) = ["c"%string]
  ∧ (writePump [true; true; true] dead_client).2 = true.
Proof.
  split; [reflexivity|].
  exact (writePump_on_a_closed_socket true [true; true] dead_client eq_refl).
Defined.

Lemma a_schedule_runs_later :
  run a_schedule (boot db_after_first_message) = Ok later_system.
Proof. vm_compute. reflexivity. Defined.

Lemma some_requests_served :
  serve some_requests (start db_after_first_message) = Ok served.
Proof. vm_compute. reflexivity. Defined.

Lemma db_after_first_message_in_own_chat : messages_in_own_chat db_after_first_message.
Proof.
  intros row Hrow%list_elem_of_singleton. subst row.
  exists (mkChatRow 1 10 20). split; [apply list_elem_of_here|]. done.
Defined.

(** X7 on the sample requests, from the store with one chat and one
    message: two more messages land in the same chat, while a history and a
    chat request are served. *)
Lemma messages_stay_in_their_own_chat_witness :
  messages_in_own_chat db_after_first_message
  ∧ serve some_requests (start db_after_first_message) = Ok served
  ∧ length (messages (store (websocket served))) = 3%nat
  ∧ messages_in_own_chat (store (websocket served)).
Proof.
  split; [exact db_after_first_message_in_own_chat|].
  split; [exact some_requests_served|]. split; [reflexivity|].
  exact (messages_stay_in_their_own_chat some_requests db_after_first_message served
           db_after_first_message_in_own_chat some_requests_served).
Defined.

(** X8 on the same requests: the history request of user 20 has set the
    flags of the two messages of user 10, the first of which was in the
    store from the start; and on the WebSocket schedule alone. *)
Lemma store_only_grows_witness :
  serve some_requests (start db_after_first_message) = Ok served
  ∧ msg_is_read <$> messages db_after_first_message = [false]
  ∧ msg_is_read <$> messages (store (websocket served)) = [true; true; false]
  ∧ grows db_after_first_message (store (websocket served))
  ∧ run a_schedule (boot db_after_first_message) = Ok later_system
  ∧ chats db_after_first_message `prefix_of` chats (store later_system)
  ∧ messages db_after_first_message `prefix_of` messages (store later_system).
Proof.
  destruct (store_only_grows db_after_first_message) as [Hserve Hrun].
  split; [exact some_requests_served|]. split; [reflexivity|].
  split; [reflexivity|].
  split; [exact (Hserve some_requests served some_requests_served)|].
  split; [exact a_schedule_runs_later|].
  exact (Hrun a_schedule later_system a_schedule_runs_later).
Defined.

(** X9 on the store with message 1: a reply to message 7 is refused, a
    reply to message 1 is stored. *)
Lemma reply_reference_must_exist_witness :
  faults db_after_first_message = []
  ∧ select_chat_ids 20 10 db_after_first_message = [1]
  ∧ Models.AddMessage 1 20 10 "re" "14:05" "hi" (Some 7) "1403-05-01" None
      false db_after_first_message
    = (inl ErrForeignKey, db_after_first_message)
  ∧ ∃ row,
      Models.AddMessage 1 20 10 "re" "14:05" "hi" (Some 1) "1403-05-01" None
        false db_after_first_message
      = (inr (), insert_message row db_after_first_message)
      ∧ msg_replied_message_id row = Some 1
      ∧ msg_replied_message row = Some "hi"%string
      ∧ msg_chat_id row = 1.
Proof.
  assert (1 ≠ 0) as Hid by done.
  split; [reflexivity|]. split; [reflexivity|]. split.
  - exact (reply_reference_must_exist 1 20 10 "re" "14:05" "hi" (Some 7)
             "1403-05-01" None false db_after_first_message
             ((1403, 5, 1) : @GoTime sample_external) 1 []
             eq_refl eq_refl eq_refl Hid (or_intror eq_refl)).
  - exact (reply_reference_must_exist 1 20 10 "re" "14:05" "hi" (Some 1)
             "1403-05-01" None false db_after_first_message
             ((1403, 5, 1) : @GoTime sample_external) 1 []
             eq_refl eq_refl eq_refl Hid (or_intror eq_refl)).
Defined.

(** X15 on four dates. *)
Lemma SortSolarDates_sorts_valid_dates_witness :
  Forall (λ d, UtilsMore.IsSolarDateValid d = true) some_dates
  ∧ (UtilsMore.SortSolarDates some_dates).2
    = ["1401-12-29"; "1402-01-01"; "1403-5-1"; "1403-05-01"]%string
  ∧ ∃ sorted, UtilsMore.SortSolarDates some_dates = (None, sorted)
      ∧ sorted ≡ₚ some_dates
      ∧ ∀ p q a b, (p < q)%nat → sorted !! p = Some a → sorted !! q = Some b →
          ∃ res, UtilsMore.CompareSolarDates a b = inr res ∧ res ≤ 0.
Proof.
  assert (Forall (λ d, UtilsMore.IsSolarDateValid d = true) some_dates) as Hvalid.
  { repeat constructor. }
  split; [exact Hvalid|]. split; [vm_compute; reflexivity|].
  exact (SortSolarDates_sorts_valid_dates some_dates Hvalid).
Defined.

(** X17 on the first day of the fifth month of 1403. *)
Lemma SolarToGregorian_accepts_GregorianToSolar_witness :
  ptime_New ((1403, 5, 1) : @GoTime sample_external) = (1403, 5, 1)
  ∧ GregorianToSolar ((1403, 5, 1) : @GoTime sample_external) = "1403-05-01"%string
  ∧ Utils.parseSolarDate (GregorianToSolar ((1403, 5, 1) : @GoTime sample_external))
    = inr (1403, 5, 1)
  ∧ UtilsMore.IsSolarDateValid (GregorianToSolar ((1403, 5, 1) : @GoTime sample_external)) = true
  ∧ Utils.SolarToGregorian (GregorianToSolar ((1403, 5, 1) : @GoTime sample_external))
    = inr (ptime_Date 1403 5 1).
Proof.
  split; [reflexivity|]. split; [vm_compute; reflexivity|].
  pose proof (SolarToGregorian_accepts_GregorianToSolar
                ((1403, 5, 1) : @GoTime sample_external) 1403 5 1) as Hdate.
  apply Hdate; [reflexivity|lia..].
Defined.
